(** * Variance-minimising discretisation pipeline: a shallow embedding

    The development follows the three TypeScript filters of the repository
    ([sortlastcol.ts], [argmin.ts], [Pipe3.ts]) and the Lua original of the
    third one.  Every filter is translated function by function.  The
    numbers [argmin.ts] computes with are kept abstract behind the class
    [JsNumber], which is instantiated twice: by IEEE binary64 floats (what
    the program runs on) and by the real numbers (exact arithmetic).  The
    other two filters only compare the numbers they read, or add 1 to
    them; there a finite number is a rational. *)

From Stdlib Require Import ZArith QArith Qround Qabs List Floats Reals Lia Psatz String Ascii.
From Stdlib Require Import Permutation Sorted.
From stdpp Require Import list.
Import ListNotations.

Open Scope Z_scope.

(** ** JavaScript numbers *)

(** The arithmetic the filters use on numbers that are not array indices.
    [ltb x y] is the JavaScript comparison [x < y] ([x > y] is [ltb y x]).
    [tiny] and [huge] are the values of [10**-32] and [10**32]. *)
Class JsNumber (N : Type) := {
  add : N -> N -> N;
  sub : N -> N -> N;
  mul : N -> N -> N;
  div : N -> N -> N;
  sqrt : N -> N;
  ltb : N -> N -> bool;
  of_Z : Z -> N;
  tiny : N;
  huge : N
}.

(** What the split search needs of [<]: a strict order.  On floats it is
    one, although every comparison with [NaN] is false. *)
Class JsOrder (N : Type) `{JsNumber N} : Prop := {
  ltb_irrefl : forall x : N, ltb x x = false;
  ltb_trans : forall x y z : N, ltb x y = true -> ltb y z = true -> ltb x z = true
}.

(** An integer as a binary64 float (exact below 2^53). *)
Definition float_of_Z (z : Z) : float :=
  if z <? 0 then PrimFloat.opp (PrimFloat.of_uint63 (Uint63.of_Z (- z)))
  else PrimFloat.of_uint63 (Uint63.of_Z z).

#[export] Instance float_number : JsNumber float := {
  add := PrimFloat.add;
  sub := PrimFloat.sub;
  mul := PrimFloat.mul;
  div := PrimFloat.div;
  sqrt := PrimFloat.sqrt;
  ltb := PrimFloat.ltb;
  of_Z := float_of_Z;
  tiny := 0x1.9f623d5a8a733p-107%float;
  huge := 0x1.3b8b5b5056e17p+106%float
}.

Definition Rltb (x y : R) : bool := if Rlt_dec x y then true else false.

#[export] Instance real_number : JsNumber R := {
  add := Rplus;
  sub := Rminus;
  mul := Rmult;
  div := Rdiv;
  sqrt := R_sqrt.sqrt;
  ltb := Rltb;
  of_Z := IZR;
  tiny := (/ IZR (10 ^ 32))%R;
  huge := IZR (10 ^ 32)
}.

Lemma SFltb_irrefl (x : spec_float) : SFltb x x = false.
Proof.
  unfold SFltb, SFcompare.
  destruct x as [s|s| |s m e]; try destruct s; try reflexivity;
    rewrite Z.compare_refl, Pos.compare_cont_refl; reflexivity.
Qed.

Ltac order_cases :=
  repeat match goal with
  | |- context [(?a ?= ?b)%Z] => destruct (Z.compare_spec a b)
  | |- context [Pos.compare_cont Eq ?a ?b] =>
      change (Pos.compare_cont Eq a b) with (Pos.compare a b);
      destruct (Pos.compare_spec a b)
  end.

Lemma SFltb_trans (x y z : spec_float) :
  SFltb x y = true -> SFltb y z = true -> SFltb x z = true.
Proof.
  unfold SFltb, SFcompare.
  destruct x as [sx|sx| |sx mx ex], y as [sy|sy| |sy my ey], z as [sz|sz| |sz mz ez];
    try discriminate; try (destruct sx); try (destruct sy); try (destruct sz);
    try discriminate; try reflexivity;
    order_cases; cbn; intros; subst; try discriminate; try reflexivity; try lia.
Qed.

#[export] Instance float_order : JsOrder float.
Proof.
  split; cbn [ltb float_number]; intros *; rewrite !ltb_spec.
  - apply SFltb_irrefl.
  - apply SFltb_trans.
Qed.

#[export] Instance real_order : JsOrder R.
Proof.
  split; unfold ltb; simpl; unfold Rltb.
  - intros x. destruct (Rlt_dec x x); [lra | reflexivity].
  - intros x y z. destruct (Rlt_dec x y), (Rlt_dec y z), (Rlt_dec x z);
      intros; try reflexivity; try discriminate; lra.
Qed.

(** ** Reading the standard input *)

(** The string and array built-ins the three filters read their input
    with. *)
Module JsString.

(** The line feed the input is split on. *)
Definition newline : ascii := "010"%char.

(** [s.split(sep)] for a separator of one character: the pieces between
    the separators; there is always at least one piece. *)
Fixpoint split (sep : ascii) (s : string) : list string :=
  match s with
  | EmptyString => [EmptyString]
  | String ch rest =>
      if Ascii.eqb ch sep then EmptyString :: split sep rest
      else
        match split sep rest with
        | piece :: pieces => String ch piece :: pieces
        | [] => [String ch EmptyString]
        end
  end.

(** [data.slice(1, data.length - 1)] *)
Definition inner {A : Type} (data : list A) : list A :=
  firstn (length data - 2) (skipn 1 data).

(** [data[0]] of the pieces of a text ([split] never returns an empty
    array). *)
Definition first (data : list string) : string :=
  match data with
  | piece :: _ => piece
  | [] => EmptyString
  end.

(** [v + ","] and [String(v)] of an array element that is a string or
    missing: [undefined] reads "undefined". *)
Definition toString (v : option string) : string :=
  match v with
  | Some s => s
  | None => "undefined"%string
  end.

End JsString.

(** ** sortlastcol.ts *)

Module SortLastCol.

(** A field of a row as [Number] reads it: [NaN] when the text is not a
    number, an infinity, or a finite value.  The filter only compares the
    numbers it has read, and a finite binary64 value is a rational. *)
Inductive number : Type :=
| NaN
| NegInfinity
| Finite (q : Q)
| Infinity.

(** [x <= y], [x < y] and [x == y] on numbers: each is false when one side
    is [NaN]. *)
Definition leNumber (x y : number) : bool :=
  match x, y with
  | NaN, _ | _, NaN => false
  | NegInfinity, _ => true
  | _, Infinity => true
  | Finite p, Finite q => Qle_bool p q
  | _, _ => false
  end.

Definition ltNumber (x y : number) : bool :=
  match x, y with
  | NaN, _ | _, NaN => false
  | _, NegInfinity => false
  | NegInfinity, _ => true
  | Infinity, _ => false
  | Finite p, Finite q => negb (Qle_bool q p)
  | Finite _, Infinity => true
  end.

Definition eqNumber (x y : number) : bool :=
  match x, y with
  | NegInfinity, NegInfinity => true
  | Infinity, Infinity => true
  | Finite p, Finite q => Qeq_bool p q
  | _, _ => false
  end.

Definition isNumber (x : number) : bool :=
  match x with
  | NaN => false
  | _ => true
  end.

(** A row of the array [vals]: the numbers [readVals] has parsed from a
    line. *)
Definition row : Type := list number.

(** [row[row.length - 1]].  Of a row without fields it is [undefined],
    which the comparisons convert to [NaN]. *)
Definition lastCol (r : row) : number := List.last r NaN.

(** [a <= b], [a > b] and [a < b] on the last columns of two rows. *)
Definition leRow (a b : row) : bool := leNumber (lastCol a) (lastCol b).
Definition gtRow (a b : row) : bool := ltNumber (lastCol b) (lastCol a).
Definition ltRow (a b : row) : bool := ltNumber (lastCol a) (lastCol b).

(** The three loops of [merge]: the result is what they leave in [vals]. *)
Fixpoint merge (left right : list row) : list row :=
  let fix mergeRight (right : list row) : list row :=
    match left, right with
    | [], _ => right
    | _, [] => left
    | a :: left', b :: right' =>
        if leRow a b then a :: merge left' right
        else b :: mergeRight right'
    end in
  mergeRight right.

(** [mergeSort(vals, n)] with [n = vals.length]; the nesting of the
    recursive calls never exceeds [fuel = n]. *)
Fixpoint mergeSortDepth (fuel : nat) (vals : list row) : list row :=
  match fuel with
  | O => vals
  | S fuel' =>
      let n := length vals in
      if (n <? 2)%nat then vals
      else
        let mid := (n / 2)%nat in
        let left := firstn mid vals in
        let right := skipn mid vals in
        merge (mergeSortDepth fuel' left) (mergeSortDepth fuel' right)
  end.

Definition mergeSort (vals : list row) : list row :=
  mergeSortDepth (length vals) vals.

(** [temp = vals[i]; vals[i] = vals[j]; vals[j] = temp] *)
Definition swap {A : Type} (vals : list A) (i j : nat) : list A :=
  match vals !! i, vals !! j with
  | Some a, Some b => <[j := a]> (<[i := b]> vals)
  | _, _ => vals
  end.

(** The body of the inner loop of [bubbleSort]. *)
Definition bubbleStep (vals : list row) (j : nat) : list row :=
  match vals !! j, vals !! (j + 1)%nat with
  | Some a, Some b => if gtRow a b then swap vals j (j + 1) else vals
  | _, _ => vals
  end.

Definition bubblePass (n : nat) (vals : list row) (i : nat) : list row :=
  fold_left bubbleStep (seq 0 (n - i - 1)) vals.

Definition bubbleSort (vals : list row) : list row :=
  let n := length vals in
  fold_left (bubblePass n) (seq 0 (n - 1)) vals.

(** The inner loop of [selectionSort]: the index [min] it ends with. *)
Definition minStep (vals : list row) (min j : nat) : nat :=
  match vals !! j, vals !! min with
  | Some a, Some b => if ltRow a b then j else min
  | _, _ => min
  end.

Definition minIndex (n : nat) (vals : list row) (i : nat) : nat :=
  fold_left (minStep vals) (seq (i + 1) (n - (i + 1))) i.

Definition selectionStep (n : nat) (vals : list row) (i : nat) : list row :=
  swap vals (minIndex n vals i) i.

Definition selectionSort (vals : list row) : list row :=
  let n := length vals in
  fold_left (selectionStep n) (seq 0 (n - 1)) vals.

(** [isSorted(vals)] *)
Definition inOrder (vals : list row) (i : nat) : bool :=
  match vals !! i, vals !! (i - 1)%nat with
  | Some a, Some b => negb (ltRow a b)
  | _, _ => true
  end.

Definition isSorted (vals : list row) : bool :=
  forallb (inOrder vals) (seq 1 (length vals - 1)).

Section WithRandom.
(** [Math.random()]: the [k]-th call returns a number whose product with
    [i] has floor [random k mod i] (every value below [i] can occur, and
    only those; for [i = 0] the floor is 0). *)
Variable random : nat -> nat.

Definition pick (k i : nat) : nat :=
  match i with
  | O => O
  | S _ => random k mod i
  end.

(** One run of the [for] loop of [bogoSort], after [calls] earlier calls
    of [Math.random]. *)
Definition shuffle {A : Type} (calls : nat) (vals : list A) : list A :=
  fold_left (fun v i => swap v i (pick (calls + i) i)) (seq 0 (length vals)) vals.

(** [bogoSort(vals)]; [None] when [fuel] runs of the [while] loop did not
    reach a sorted array. *)
Fixpoint bogoLoop (fuel calls : nat) (vals : list row) : option (list row) :=
  match fuel with
  | O => None
  | S fuel' =>
      if isSorted vals then Some vals
      else bogoLoop fuel' (calls + length vals) (shuffle calls vals)
  end.

Definition bogoSort (fuel : nat) (vals : list row) : option (list row) :=
  bogoLoop fuel 0 vals.

(** How the process ends: [process.exit(code)] after the usage lines on
    the diagnostic stream, or normal completion after [printVals]. *)
Inductive outcome : Type :=
| Exited (code : Z) (stderr : list string)
| Completed (printed : list row).

(** [argsErr()] *)
Definition argsErr : outcome :=
  Exited (-1)
    ["Invalid command line args";
     "-m: merge sort (default)";
     "-b: bubble sort";
     "-s: selection sort"]%string.

(** [args[2] === flag] *)
Definition isFlag (args : list string) (flag : string) : bool :=
  match args !! 2%nat with
  | Some a => String.eqb a flag
  | None => false
  end.

(** [processVals(vals)] with [process.argv = args]; [process.exit] ends
    the program where it is called. *)
Definition processVals (fuel : nat) (args : list string) (vals : list row)
    : option outcome :=
  if (3 <? length args)%nat then Some argsErr
  else if (length args =? 2)%nat || isFlag args "-m" then
    Some (Completed (mergeSort vals))
  else if isFlag args "-b" then Some (Completed (bubbleSort vals))
  else if isFlag args "-s" then Some (Completed (selectionSort vals))
  else if isFlag args "-bogo" then option_map Completed (bogoSort fuel vals)
  else Some argsErr.

End WithRandom.

(** The exit status the shell sees: the code modulo 256, and 0 after
    normal completion. *)
Definition exitStatus (o : outcome) : Z :=
  match o with
  | Exited code _ => code mod 256
  | Completed _ => 0
  end.

(** [readVals()] up to the call of [processVals]: the header line it
    prints, and the array [vals] it builds.  [Number] is JavaScript's
    conversion of a field; [readVals] does not look at the numbers it
    gives, so their type is left open. *)
Definition readVals {N : Type} (Number : string -> N) (text : string)
    : string * list (list N) :=
  let data := JsString.split JsString.newline text in
  (JsString.first data,
   map (fun line => map Number (JsString.split "," line)) (JsString.inner data)).

End SortLastCol.

(** The rows that satisfy a test, counted. *)
Fixpoint countIf {A : Type} (f : A -> bool) (l : list A) : nat :=
  match l with
  | [] => 0
  | y :: t => (if f y then 1 else 0) + countIf f t
  end.

(** ** The strategies on rows that carry a rational key

    The loops of [sortlastcol.ts] once more, comparing a rational that
    every row carries beside its fields.  The comparisons of JavaScript on
    numbers that are not [NaN] are those of the rationals on their [rank]
    (below), and on rationals the loops are studied with the order lemmas
    of the library; [Agreement] carries the results over to
    [SortLastCol]. *)
Module NumericSort.

Definition row : Type := SortLastCol.row * Q.

Definition lastCol (r : row) : Q := snd r.

Definition leRow (a b : row) : bool := Qle_bool (lastCol a) (lastCol b).
Definition gtRow (a b : row) : bool := negb (Qle_bool (lastCol a) (lastCol b)).
Definition ltRow (a b : row) : bool := negb (Qle_bool (lastCol b) (lastCol a)).

Fixpoint merge (left right : list row) : list row :=
  let fix mergeRight (right : list row) : list row :=
    match left, right with
    | [], _ => right
    | _, [] => left
    | a :: left', b :: right' =>
        if leRow a b then a :: merge left' right
        else b :: mergeRight right'
    end in
  mergeRight right.

Fixpoint mergeSortDepth (fuel : nat) (vals : list row) : list row :=
  match fuel with
  | O => vals
  | S fuel' =>
      let n := length vals in
      if (n <? 2)%nat then vals
      else
        let mid := (n / 2)%nat in
        let left := firstn mid vals in
        let right := skipn mid vals in
        merge (mergeSortDepth fuel' left) (mergeSortDepth fuel' right)
  end.

Definition mergeSort (vals : list row) : list row :=
  mergeSortDepth (length vals) vals.

Definition bubbleStep (vals : list row) (j : nat) : list row :=
  match vals !! j, vals !! (j + 1)%nat with
  | Some a, Some b => if gtRow a b then SortLastCol.swap vals j (j + 1) else vals
  | _, _ => vals
  end.

Definition bubblePass (n : nat) (vals : list row) (i : nat) : list row :=
  fold_left bubbleStep (seq 0 (n - i - 1)) vals.

Definition bubbleSort (vals : list row) : list row :=
  let n := length vals in
  fold_left (bubblePass n) (seq 0 (n - 1)) vals.

Definition minStep (vals : list row) (min j : nat) : nat :=
  match vals !! j, vals !! min with
  | Some a, Some b => if ltRow a b then j else min
  | _, _ => min
  end.

Definition minIndex (n : nat) (vals : list row) (i : nat) : nat :=
  fold_left (minStep vals) (seq (i + 1) (n - (i + 1))) i.

Definition selectionStep (n : nat) (vals : list row) (i : nat) : list row :=
  SortLastCol.swap vals (minIndex n vals i) i.

Definition selectionSort (vals : list row) : list row :=
  let n := length vals in
  fold_left (selectionStep n) (seq 0 (n - 1)) vals.

Definition inOrder (vals : list row) (i : nat) : bool :=
  match vals !! i, vals !! (i - 1)%nat with
  | Some a, Some b => negb (ltRow a b)
  | _, _ => true
  end.

Definition isSorted (vals : list row) : bool :=
  forallb (inOrder vals) (seq 1 (length vals - 1)).

Fixpoint bogoLoop (random : nat -> nat) (fuel calls : nat) (vals : list row)
    : option (list row) :=
  match fuel with
  | O => None
  | S fuel' =>
      if isSorted vals then Some vals
      else bogoLoop random fuel' (calls + length vals)
             (SortLastCol.shuffle random calls vals)
  end.

(** Rows in ascending order of their key, and a sort that keeps the rows
    of every key in their original order. *)
Definition rowLe (a b : row) : Prop := (lastCol a <= lastCol b)%Q.

Definition ascending (vals : list row) : Prop := StronglySorted rowLe vals.

Definition hasKey (k : Q) (r : row) : bool := Qeq_bool (lastCol r) k.

Definition stable (input output : list row) : Prop :=
  forall k : Q, List.filter (hasKey k) output = List.filter (hasKey k) input.

(** One pass of the inner loop of [bubbleSort] over the first [m + 1]
    rows, written by recursion on the list; [bubblePass_bubbleUp] shows it
    is what the loop over indices computes. *)
Fixpoint bubbleUp (m : nat) (l : list row) : list row :=
  match m, l with
  | S m', a :: b :: t =>
      if gtRow a b then b :: bubbleUp m' (a :: t)
      else a :: bubbleUp m' (b :: t)
  | _, _ => l
  end.

(** Keys that occur once in an array. *)
Fixpoint distinctKeys (vals : list row) : bool :=
  match vals with
  | [] => true
  | a :: rest => forallb (fun b => negb (hasKey (lastCol a) b)) rest && distinctKeys rest
  end.

(** The rows of [l] with a smaller, or a larger, key than [x]. *)
Definition rowsBelow (x : row) (l : list row) : nat :=
  countIf (fun y => ltRow y x) l.

Definition rowsAbove (x : row) (l : list row) : nat :=
  countIf (fun y => ltRow x y) l.

(** The pairs of rows that stand in the wrong order: an earlier row with
    a larger key than a later one. *)
Fixpoint inversions (l : list row) : nat :=
  match l with
  | [] => 0
  | x :: t => rowsBelow x t + inversions t
  end.

(** The out-of-order pairs with the first row in [l1] and the second in
    [l2], were [l2] to follow [l1]. *)
Fixpoint crossInversions (l1 l2 : list row) : nat :=
  match l1 with
  | [] => 0
  | x :: t => rowsBelow x l2 + crossInversions t l2
  end.

Definition uniqueKeys (l : list row) : Prop :=
  forall k : Q, (countIf (hasKey k) l <= 1)%nat.

End NumericSort.

(** The place of a number that is not [NaN] among the rationals: a finite
    [q] goes to [q / (1 + |q|)], strictly between the places -1 and 1 of
    the two infinities, and [x <= y] on numbers is [<=] on their places
    ([rank_le]). *)
Definition rank (x : SortLastCol.number) : Q :=
  match x with
  | SortLastCol.NaN => 0
  | SortLastCol.NegInfinity => -1
  | SortLastCol.Finite q => q / (1 + Qabs q)
  | SortLastCol.Infinity => 1
  end.

(** A row with the place of its last column as key. *)
Definition tag (r : SortLastCol.row) : NumericSort.row :=
  (r, rank (SortLastCol.lastCol r)).

(** ** argmin.ts *)

Module Argmin.
Section WithNumber.
Context {N : Type} `{JsNumber N}.

(** [var COHEN:number = 0.3;] and the literals [1.05] and [0.0001].  On
    floats the quotient of two small integers is the literal itself. *)
Definition COHEN : N := div (of_Z 3) (of_Z 10).
Definition margin : N := div (of_Z 105) (of_Z 100).
Definition fuzz : N := div (of_Z 1) (of_Z 10000).

(** The "aggregate" [{ count, mean, M2, sd, max, min }]. *)
Record aggr := mkAggr {
  count : Z;
  mean : N;
  M2 : N;
  sd : N;
  max : N;
  min : N
}.

(** [Math.sqrt( aggr.M2 / ( aggr.count - 1 + 10**-32) )] *)
Definition stddev (m2 : N) (cnt : Z) : N :=
  sqrt (div m2 (add (of_Z (cnt - 1)) tiny)).

Definition numInc (a : aggr) (value : N) : aggr :=
  let count' := count a + 1 in
  let delta := sub value (mean a) in
  let mean' := add (mean a) (div delta (of_Z count')) in
  let M2' := add (M2 a) (mul delta (sub value mean')) in
  let max' := if ltb (max a) value then value else max a in
  let min' := if ltb value (min a) then value else min a in
  let sd' := if 2 <=? count' then stddev M2' count' else sd a in
  mkAggr count' mean' M2' sd' max' min'.

Definition numDec (a : aggr) (value : N) : aggr :=
  if count a =? 1 then a
  else
    let count' := count a - 1 in
    let delta := sub value (mean a) in
    let mean' := sub (mean a) (div delta (of_Z count')) in
    let M2' := sub (M2 a) (mul delta (sub value mean')) in
    let sd' := if 2 <=? count' then stddev M2' count' else sd a in
    mkAggr count' mean' M2' sd' (max a) (min a).

(** [{ count: 0, mean: 0, M2: 0, sd: 0, max: -1 * 10**32, min: 10**32 }] *)
Definition emptyAggr : aggr :=
  mkAggr 0 (of_Z 0) (of_Z 0) (of_Z 0) (mul (of_Z (-1)) huge) huge.

(** [lastCol[lo], ..., lastCol[hi-1]], for [hi] within the column. *)
Definition slice (lastCol : list N) (lo hi : nat) : list N :=
  firstn (hi - lo) (skipn lo lastCol).

Definition getStdDev (lastCol : list N) (lo hi : nat) : aggr :=
  fold_left numInc (slice lastCol lo hi) emptyAggr.

(** The globals set by [initValues]. *)
Record globals := mkGlobals {
  numRows : nat;
  lastCol : list N;
  minBinSize : nat;
  minRise : N
}.

(** [initValues], from the column of "dom" values of a table that is not
    empty.  [Math.floor(Math.sqrt n)] is the integer square root for every
    row count below 2^52. *)
Definition initValues (col : list N) : globals :=
  let n := length col in
  let totalStdDev := sd (getStdDev col 0 n) in
  mkGlobals n col (Nat.sqrt n) (mul COHEN totalStdDev).

(** [rows[0].length] throws on an empty table; a row without the field
    [numCols - 1] is outside the model (its dom value would be
    [undefined]). *)
Definition domColumn (rows : list (list N)) : option (list N) :=
  match rows with
  | [] => None
  | r0 :: _ => mapM (fun row : list N => nth_error row (length r0 - 1)) rows
  end.

Definition getTotalVariance (aggrA aggrB : aggr) : N :=
  let cnt := add (of_Z (count aggrA + count aggrB)) fuzz in
  let stdDevA := mul (div (of_Z (count aggrA)) cnt) (sd aggrA) in
  let stdDevB := mul (div (of_Z (count aggrB)) cnt) (sd aggrB) in
  add stdDevA stdDevB.

(** The variables the scanning loop of [argmin] updates; [cut] is [None]
    while it is still [undefined]. *)
Record scan := mkScan {
  belowSplitAggr : aggr;
  aboveSplitAggr : aggr;
  best : N;
  cut : option nat
}.

Section WithGlobals.
Variable g : globals.

(** The two size tests and the two range tests of the loop body. *)
Definition bigEnough (below above : aggr) : bool :=
  (Z.of_nat (minBinSize g) <=? count below) &&
  (Z.of_nat (minBinSize g) <=? count above).

Definition wideEnough (a : aggr) : bool :=
  ltb (minRise g) (sub (max a) (min a)).

Definition cost (below above : aggr) : N :=
  mul (getTotalVariance below above) margin.

(** One iteration of the [for split] loop. *)
Definition scanStep (st : scan) (split : nat) (value : N) : scan :=
  let below := numInc (belowSplitAggr st) value in
  let above := numDec (aboveSplitAggr st) value in
  if bigEnough below above then
    if wideEnough below then
      if wideEnough above then
        let tmp := cost below above in
        if ltb tmp (best st) then mkScan below above tmp (Some split)
        else mkScan below above (best st) (cut st)
      else mkScan below above (best st) (cut st)
    else mkScan below above (best st) (cut st)
  else mkScan below above (best st) (cut st).

Fixpoint scanFrom (values : list N) (split : nat) (st : scan) : scan :=
  match values with
  | [] => st
  | value :: rest => scanFrom rest (S split) (scanStep st split value)
  end.

Definition scanInit (min : nat) : scan :=
  let above := getStdDev (lastCol g) min (numRows g) in
  mkScan (getStdDev (lastCol g) 0 0) above (sd above) None.

(** [argmin( min, max )]; [None] is the [NaN] that [undefined + 1] gives. *)
Definition argmin (min max : nat) : option nat :=
  if (2 * minBinSize g <? max - min)%nat then
    match cut (scanFrom (slice (lastCol g) min max) min (scanInit min)) with
    | Some c => Some (c + 1)%nat
    | None => None
    end
  else None.

(** The two accumulators once the values of rows [min .. s] have been
    moved from the upper partition to the lower one, and what the loop
    body computes from them at [split = s]. *)
Definition belowAt (min s : nat) : aggr :=
  fold_left numInc (slice (lastCol g) min (S s)) emptyAggr.

Definition aboveAt (min s : nat) : aggr :=
  fold_left numDec (slice (lastCol g) min (S s))
    (getStdDev (lastCol g) min (numRows g)).

Definition candidate (min s : nat) : bool :=
  bigEnough (belowAt min s) (aboveAt min s) &&
  wideEnough (belowAt min s) && wideEnough (aboveAt min s).

Definition splitCost (min s : nat) : N :=
  cost (belowAt min s) (aboveAt min s).

(** The initial value of [best]: the deviation of rows [min .. numRows-1]. *)
Definition wholeCost (min : nat) : N :=
  sd (getStdDev (lastCol g) min (numRows g)).

(** The second loop of [calcSplits]: rows [prevCut .. numRows-1] with
    [numRows] appended; nothing when [prevCut] is still [undefined]. *)
Definition restRows (prevCut : option nat) : list (nat * nat) :=
  match prevCut with
  | None => []
  | Some p => map (fun i => (i, numRows g)) (seq p (numRows g - p))
  end.

(** The first loop of [calcSplits].  An output line [rows[j] + "," + cut]
    is the pair [(j, cut)].  When [argmin] gives [NaN] the inner loop does
    nothing, [i] becomes [NaN] and the test [i < numRows] ends the loop. *)
Fixpoint splitLoop (fuel i : nat) (cut prevCut : option nat)
    (out : list (nat * nat)) : option (list (nat * nat)) :=
  match fuel with
  | O => None
  | S fuel' =>
    if (i <? numRows g)%nat then
      if (minBinSize g <? numRows g - i)%nat then
        match argmin i (numRows g) with
        | None => Some (out ++ restRows cut)
        | Some c =>
          splitLoop fuel' (c - 1 + 1)%nat (Some c) cut
            (out ++ map (fun j => (j, c)) (seq i (c - i)))
        end
      else splitLoop fuel' (i + 1)%nat cut prevCut out
    else Some (out ++ restRows prevCut)
  end.

Definition calcSplitsWith : option (list (nat * nat)) :=
  splitLoop (S (numRows g)) 0%nat (Some 0%nat) None [].

End WithGlobals.

(** [initValues(); calcSplits();] on a dom column. *)
Definition calcSplits (col : list N) : option (list (nat * nat)) :=
  calcSplitsWith (initValues col).

End WithNumber.

(** [readInput()]: the globals [attributes] and [rows]. *)
Definition readInput {N : Type} (Number : string -> N) (text : string)
    : list string * list (list N) :=
  let data := JsString.split JsString.newline text in
  (JsString.split "," (JsString.first data),
   map (fun line => map Number (JsString.split "," line)) (JsString.inner data)).

(** The first line [calcSplits] writes: [attributes[i] + ", "] for
    [i < numCols - 1], then [attributes[i]]. *)
Definition headerOut (attributes : list string) (numCols : nat) : string :=
  (String.concat ""
     (map (fun i => JsString.toString (nth_error attributes i) ++ ", ")
        (seq 0 (numCols - 1)))
   ++ JsString.toString (nth_error attributes (numCols - 1)))%string.

End Argmin.

(** ** Pipe3.ts *)

Module Pipe3.

(** The fields of class [table] that [cuts], [mark] and [band] read;
    [enough] is [rows ** 0.5] and is kept as the row count it is computed
    from. *)
Record table := mkTable {
  cols : Z;
  rows : Z;
  c : Z;
  data : list (list string)
}.

(** [dataSet(newData)]; [newData[0].length] throws on an empty array. *)
Definition dataSet (newData : list (list string)) : option table :=
  match newData with
  | [] => None
  | row0 :: _ =>
      let cols := Z.of_nat (length row0) - 1 in
      Some (mkTable cols (Z.of_nat (length newData) - 1) (cols - 1) newData)
  end.

(** [d > input.enough], with the exact square root of [rows]. *)
Definition exceedsEnough (d : Q) (rows : Z) : bool :=
  (0 <=? rows) && negb (Qle_bool d 0) && negb (Qle_bool (d * d)%Q (inject_Z rows)).

(** The array index a number denotes, if it is one. *)
Definition indexOf (q : Q) : option nat :=
  let z := Qfloor q in
  if Qeq_bool q (inject_Z z) && (0 <=? z) then Some (Z.to_nat z) else None.

(** [input.data[i]]: [None] is [undefined]. *)
Definition rowAt (rows : list (list string)) (i : Q) : option (list string) :=
  match indexOf i with
  | Some n => nth_error rows n
  | None => None
  end.

(** [row[j]] for an integer field index. *)
Definition cellAt (row : list string) (j : Z) : option string :=
  if j <? 0 then None else nth_error row (Z.to_nat j).

(** [String(v)] and [pre.concat(v)] of a cell: [undefined] reads
    "undefined". *)
Definition str (cell : option string) : string :=
  match cell with
  | Some s => s
  | None => "undefined"%string
  end.

(** [row[j] = b].  A write past the end leaves holes, which every later
    read of this program turns into "undefined". *)
Definition setCell (row : list string) (j : Z) (b : string) : list string :=
  if j <? 0 then row
  else
    let n := Z.to_nat j in
    if (n <? length row)%nat then <[n := b]> row
    else row ++ repeat "undefined"%string (n - length row) ++ [b].

(** What a call ends with: the table it leaves, or a [TypeError]. *)
Inductive completion : Type :=
| Returned (t : table)
| Thrown.

(** [band(input, low, high)]: the label, or [None] for a [TypeError].  The
    line "band" it also writes to the standard output is left out. *)
Definition band (input : table) (low high : Q) : option string :=
  if Qeq_bool low 1 then
    match rowAt (data input) high with
    | Some rh => Some (".." ++ str (cellAt rh (c input)))%string
    | None => None
    end
  else
    match rowAt (data input) low, rowAt (data input) high with
    | Some rl, Some rh =>
        Some (str (cellAt rl (c input)) ++ ".." ++ str (cellAt rh (c input)))%string
    | _, _ => None
    end.

(** The values [i] takes in [for(i = low; i <= high; i++)]. *)
Definition upTo (low high : Q) : list Q :=
  if Qle_bool low high then
    map (fun k => (low + inject_Z (Z.of_nat k))%Q)
      (seq 0 (Z.to_nat (Qfloor (high - low)%Q) + 1))
  else [].

Definition writeBand (b : string) (acc : completion) (i : Q) : completion :=
  match acc with
  | Thrown => Thrown
  | Returned t =>
      match indexOf i with
      | Some n =>
          match nth_error (data t) n with
          | Some row =>
              Returned (mkTable (cols t) (rows t) (c t)
                          (<[n := setCell row (cols t) b]> (data t)))
          | None => Thrown
          end
      | None => Thrown
      end
  end.

(** [mark(input, low, high)]. *)
Definition mark (input : table) (low high : Q) : completion :=
  match band input low high with
  | Some b => fold_left (writeBand b) (upTo low high) (Returned input)
  | None => Thrown
  end.

Section WithNumber.
(** JavaScript's [Number] on strings; [None] is [NaN]. *)
Variable Number : string -> option Q.

(** [Number(row[j])]; [Number(undefined)] is [NaN]. *)
Definition numberAt (row : list string) (j : Z) : option Q :=
  match cellAt row j with
  | Some s => Number s
  | None => None
  end.

(** [cut && cut <= input.rows] *)
Definition usable (cut : option Q) (rows : Z) : bool :=
  match cut with
  | Some q => negb (Qeq_bool q 0) && Qle_bool q (inject_Z rows)
  | None => false
  end.

(** [cuts(input, low, high, pre)]: the lines written to the diagnostic
    stream and how the call ends; [None] when [fuel] nested calls were not
    enough.  [cut + 1] is the exact sum.  That is the sum JavaScript
    computes when the cut field reads as an integer (a row number, as
    [argmin.ts] writes it); for a cut field with a fraction binary64 may
    round the sum to an integer, so what is proved of the rows a nested
    call reaches is stated for integer cut fields ([integerCuts]). *)
Fixpoint cuts (fuel : nat) (input : table) (low high : Q) (pre : string)
    : option (list string * completion) :=
  match fuel with
  | O => None
  | S fuel' =>
      match rowAt (data input) low with
      | None => Some ([], Thrown)
      | Some row =>
          let tbPrint := (pre ++ str (cellAt row (c input)))%string in
          let finish :=
            match mark input 1 (low - 1)%Q with
            | Returned t1 => mark t1 low high
            | Thrown => Thrown
            end in
          if exceedsEnough (high - low)%Q (rows input) then
            let cut := numberAt row (cols input) in
            if usable cut (rows input) then
              match cut with
              | Some q =>
                  match cuts fuel' input (q + 1)%Q high (pre ++ "|..")%string with
                  | Some (log, r) => Some (tbPrint :: log, r)
                  | None => None
                  end
              | None => Some ([tbPrint], finish)
              end
            else Some ([tbPrint], finish)
          else Some ([tbPrint], finish)
      end
  end.

End WithNumber.

(** [Number] on the strings the examples use: the empty string (0), and
    decimal digits after an optional minus sign.  Every other string is
    taken as [NaN] here. *)
Definition digitValue (ch : ascii) : option Z :=
  let n := Z.of_nat (nat_of_ascii ch) in
  if (48 <=? n) && (n <=? 57) then Some (n - 48) else None.

Fixpoint digits (acc : Z) (s : string) : option Z :=
  match s with
  | EmptyString => Some acc
  | String ch rest =>
      match digitValue ch with
      | Some d => digits (10 * acc + d) rest
      | None => None
      end
  end.

Definition decimalNumber (s : string) : option Q :=
  match s with
  | EmptyString => Some 0%Q
  | String "-"%char (String ch rest) =>
      option_map (fun z => inject_Z (- z)) (digits 0 (String ch rest))
  | String _ _ => option_map inject_Z (digits 0 s)
  end.

(** [readInput(dataTable)]: the attributes and the table; [None] is the
    [TypeError] of [dataSet] on a text without data lines. *)
Definition readInput (text : string) : option (list string * table) :=
  let data := JsString.split JsString.newline text in
  match dataSet (map (JsString.split ",") (JsString.inner data)) with
  | Some t => Some (JsString.split "," (JsString.first data), t)
  | None => None
  end.

(** The header line: [attributes[j] + ","] for [j < c], then
    [attributes[j] + ", !klass"]. *)
Definition headerOut (attributes : list string) (c : Z) : string :=
  (String.concat ""
     (map (fun j => str (nth_error attributes j) ++ ",") (seq 0 (Z.to_nat c)))
   ++ str (nth_error attributes (Z.to_nat c)) ++ ", !klass")%string.

(** A data line: [row[j] + ","] for [j < cols], then [row[j]]. *)
Definition rowOut (cols : Z) (row : list string) : string :=
  (String.concat ""
     (map (fun j => str (nth_error row j) ++ ",") (seq 0 (Z.to_nat cols)))
   ++ str (nth_error row (Z.to_nat cols)))%string.

(** How a run of the script ends, with the lines it wrote: normally, or
    with an uncaught [TypeError] (the "band" lines written to the standard
    output before the error, at most two, are left out, and so is the
    interpreter's report of the error). *)
Inductive run : Type :=
| Finished (stdout stderr : list string)
| Crashed (stderr : list string).

Section Script.
Variable Number : string -> option Q.

(** The statements at the end of the file, on the text of the standard
    input; [None] when [fuel] nested calls of [cuts] were not enough. *)
Definition main (fuel : nat) (text : string) : option run :=
  match readInput text with
  | None => Some (Crashed [])
  | Some (attributes, csv) =>
      let banner :=
        [""; "-- " ++ str (cellAt attributes (c csv)) ++ "----------"]%string in
      match cuts Number fuel csv 0 (inject_Z (rows csv)) "|.. " with
      | None => None
      | Some (log, Thrown) => Some (Crashed (banner ++ log))
      | Some (log, Returned t) =>
          Some (Finished
                  ("band" :: "band" :: headerOut attributes (c t)
                   :: map (rowOut (cols t)) (firstn (Z.to_nat (rows t)) (data t)))%string
                  (banner ++ log))
      end
  end.

End Script.

End Pipe3.

(** The number of rows of a table, [data.length]. *)
Definition dataRows (t : Pipe3.table) : Z := Z.of_nat (length (Pipe3.data t)).

(** The tables the recursion is stated for, [r] being the number of their
    rows.  [cutsInRange]: the cut field of every row [i] is not a positive
    number, or lies between [i] and [r].  [cutsZeroOrInRange]: it is [NaN]
    or zero, or lies between [i] and [r]. *)
Definition cutsInRange (Number : string -> option Q) (t : Pipe3.table) : Prop :=
  forall (i : nat) (row : list string),
    nth_error (Pipe3.data t) i = Some row ->
    match Pipe3.numberAt Number row (Pipe3.cols t) with
    | None => True
    | Some q =>
        ~ (0 < q)%Q \/
        (inject_Z (Z.of_nat i) <= q /\ q <= inject_Z (dataRows t))%Q
    end.

Definition cutsZeroOrInRange (Number : string -> option Q) (t : Pipe3.table) : Prop :=
  forall (i : nat) (row : list string),
    nth_error (Pipe3.data t) i = Some row ->
    match Pipe3.numberAt Number row (Pipe3.cols t) with
    | None => True
    | Some q =>
        (q == 0)%Q \/
        (inject_Z (Z.of_nat i) <= q /\ q <= inject_Z (dataRows t))%Q
    end.

(** The tables whose cut fields are row numbers: every cut field that
    reads as a number reads as an integer.  On these [cut + 1] is computed
    exactly by JavaScript, as it is in [Pipe3.cuts]. *)
Definition integerCuts (Number : string -> option Q) (t : Pipe3.table) : Prop :=
  forall row : list string,
    In row (Pipe3.data t) ->
    match Pipe3.numberAt Number row (Pipe3.cols t) with
    | None => True
    | Some q => (inject_Z (Qfloor q) == q)%Q
    end.

(** ** The Lua original of the third filter *)

Module Label.

(** [rows[i]] with Lua's indices from 1; [None] is [nil]. *)
Definition rowAt (rows : list (list string)) (i : Z) : option (list string) :=
  if i <? 1 then None else nth_error rows (Z.to_nat (i - 1)).

Definition cellAt (row : list string) (j : Z) : option string :=
  if j <? 1 then None else nth_error row (Z.to_nat (j - 1)).

(** The local [most] of [label]: declared in its parameter list and never
    assigned, so it is [nil] when [band] compares [hi] with it. *)
Definition most : option Z := None.

(** [hi == most] *)
Definition isMost (hi : Z) : bool :=
  match most with
  | Some m => hi =? m
  | None => false
  end.

(** [band(c, lo, hi)]; indexing [nil] or concatenating it is an error
    ([None]). *)
Definition band (rows : list (list string)) (c lo hi : Z) : option string :=
  let cell i := match rowAt rows i with
                | Some row => cellAt row c
                | None => None
                end in
  if lo =? 1 then
    match cell hi with
    | Some h => Some (".." ++ h)%string
    | None => None
    end
  else if isMost hi then
    match cell lo with
    | Some l => Some (l ++ "..")%string
    | None => None
    end
  else
    match cell lo, cell hi with
    | Some l, Some h => Some (l ++ ".." ++ h)%string
    | _, _ => None
    end.

End Label.

(** Rows in ascending order of their last column: [a <= b] holds of every
    row [a] and every later row [b].  A sort that keeps the rows of every
    last-column value in their original order.  The arrays without a [NaN]
    in the last column. *)
Definition rowLe (a b : SortLastCol.row) : Prop := SortLastCol.leRow a b = true.

Definition ascending (vals : list SortLastCol.row) : Prop :=
  StronglySorted rowLe vals.

Definition hasKey (k : SortLastCol.number) (r : SortLastCol.row) : bool :=
  SortLastCol.eqNumber (SortLastCol.lastCol r) k.

Definition stable (input output : list SortLastCol.row) : Prop :=
  forall k : SortLastCol.number,
    List.filter (hasKey k) output = List.filter (hasKey k) input.

Definition numericKeys (vals : list SortLastCol.row) : bool :=
  forallb (fun r => SortLastCol.isNumber (SortLastCol.lastCol r)) vals.

(** A row with a first field [id] and a last field [key]. *)
Definition keyed (id key : Z) : SortLastCol.row :=
  [SortLastCol.Finite (inject_Z id); SortLastCol.Finite (inject_Z key)].

(** Three rows with the last columns 2, [NaN] and 1. *)
Definition nanRows : list SortLastCol.row :=
  [[SortLastCol.Finite 0; SortLastCol.Finite 2];
   [SortLastCol.Finite 1; SortLastCol.NaN];
   [SortLastCol.Finite 2; SortLastCol.Finite 1]].

(** Returns of [Math.random] that make the shuffling loop of [bogoSort]
    on four rows pick the rows 0 and 0, then twice the rows 0 and 2. *)
Definition threeRandom (k : nat) : nat := if (k =? 3)%nat then 0%nat else 2%nat.

(** Sequences of [numInc] / [numDec] calls on one accumulator. *)
Inductive op (N : Type) : Type :=
| Inc (value : N)
| Dec (value : N).
Arguments Inc {N} value.
Arguments Dec {N} value.

Section Traces.
Context {N : Type} `{JsNumber N}.

Definition applyOp (a : Argmin.aggr) (o : op N) : Argmin.aggr :=
  match o with
  | Inc v => Argmin.numInc a v
  | Dec v => Argmin.numDec a v
  end.

Definition runFrom (a : Argmin.aggr) (ops : list (op N)) : Argmin.aggr :=
  fold_left applyOp ops a.

Definition runOps (ops : list (op N)) : Argmin.aggr :=
  runFrom Argmin.emptyAggr ops.

(** Inserts only, as [getStdDev] issues them. *)
Definition insertAll (values : list N) : Argmin.aggr :=
  fold_left Argmin.numInc values Argmin.emptyAggr.

End Traces.

(** The multiset an accumulator is meant to hold after a sequence of calls:
    an insert adds its value, a remove takes one occurrence of its value
    out.  [heldFrom k b ops b'] allows a remove only while at least [k]
    values are held. *)
Inductive heldFrom {N : Type} (k : nat) : list N -> list (op N) -> list N -> Prop :=
| held_done b : heldFrom k b [] b
| held_insert b v ops b' :
    heldFrom k (v :: b) ops b' -> heldFrom k b (Inc v :: ops) b'
| held_remove b v b1 ops b' :
    (k <= length b)%nat -> Permutation b (v :: b1) ->
    heldFrom k b1 ops b' -> heldFrom k b (Dec v :: ops) b'.

(** Mean and sample variance computed directly from the held values, in
    exact arithmetic; the variance has the accumulator's denominator
    [count - 1 + 10**-32]. *)
Definition total (bag : list R) : R := fold_right Rplus 0%R bag.

Definition meanOf (bag : list R) : R :=
  (total bag / IZR (Z.of_nat (length bag)))%R.

Definition squaredDeviations (bag : list R) : R :=
  fold_right (fun x acc => ((x - meanOf bag) * (x - meanOf bag) + acc)%R) 0%R bag.

Definition varianceOf (bag : list R) : R :=
  (squaredDeviations bag / (IZR (Z.of_nat (length bag) - 1) + tiny))%R.

(** The sample variance with the plain denominator [n - 1]. *)
Definition sampleVariance (bag : list R) : R :=
  (squaredDeviations bag / IZR (Z.of_nat (length bag) - 1))%R.

(** [M2 / (count - 1 + 10**-32)], in the arithmetic of the accumulator. *)
Definition variance {N : Type} `{JsNumber N} (a : Argmin.aggr) : N :=
  div (Argmin.M2 a) (add (of_Z (Argmin.count a - 1)) tiny).

(** The float a decimal literal with one place reads as: [0.7] is
    [tenths 7]. *)
Definition tenths (z : Z) : float := div (of_Z z) (of_Z 10).

Definition fl (zs : list Z) : list float := map float_of_Z zs.

(** The row indices of the output lines, in the order they are written. *)
Definition emittedRows (out : list (nat * nat)) : list nat := map fst out.

(** Last columns that occur once in an array. *)
Fixpoint distinctKeys (vals : list SortLastCol.row) : bool :=
  match vals with
  | [] => true
  | a :: rest =>
      forallb (fun b => negb (hasKey (SortLastCol.lastCol a) b)) rest && distinctKeys rest
  end.

(** The rows of [l] with a smaller last column than [x], and the pairs of
    rows that stand in the wrong order: an earlier row with a larger last
    column than a later one. *)
Definition rowsBelow (x : SortLastCol.row) (l : list SortLastCol.row) : nat :=
  countIf (fun y => SortLastCol.ltRow y x) l.

Fixpoint inversions (l : list SortLastCol.row) : nat :=
  match l with
  | [] => 0
  | x :: t => rowsBelow x t + inversions t
  end.

(** An output line of [calcSplits]: its label is above the index of its
    row and not above the number of rows. *)
Definition labelInRange (numRows : nat) (line : nat * nat) : Prop :=
  (fst line < snd line <= numRows)%nat.

(** What [mark] leaves in the table: the band [b] in the field [cols] of
    the rows [l .. h], every other row as it was. *)
Definition relabel (cols : Z) (b : string) (l h : nat) (d : list (list string))
    : list (list string) :=
  imap (fun i row =>
          if (l <=? i)%nat && (i <=? h)%nat then Pipe3.setCell row cols b else row) d.

(** Whether, and how often, a character occurs in a string; the text
    made of pieces joined by line feeds. *)
Fixpoint hasChar (ch : ascii) (s : string) : bool :=
  match s with
  | EmptyString => false
  | String c rest => Ascii.eqb c ch || hasChar ch rest
  end.

Fixpoint countChar (ch : ascii) (s : string) : nat :=
  match s with
  | EmptyString => 0
  | String c rest => (if Ascii.eqb c ch then 1 else 0) + countChar ch rest
  end.

Definition unlines (pieces : list string) : string :=
  String.concat (String JsString.newline EmptyString) pieces.

(** A float that is not a number. *)
Definition isNaN (x : float) : Prop := Prim2SF x = S754_nan.

(** * Properties *)

(** ** The accumulator *)

Section AccumulatorFacts.
Context {N : Type} `{JsNumber N}.

Lemma count_numInc (a : Argmin.aggr) (v : N) :
  Argmin.count (Argmin.numInc a v) = Argmin.count a + 1.
Proof. reflexivity. Qed.

Lemma count_numDec (a : Argmin.aggr) (v : N) :
  Argmin.count (Argmin.numDec a v) =
  if Argmin.count a =? 1 then 1 else Argmin.count a - 1.
Proof.
  unfold Argmin.numDec.
  destruct (Argmin.count a =? 1) eqn:E; [apply Z.eqb_eq in E; exact E | reflexivity].
Qed.

Lemma count_insertAll (values : list N) :
  Argmin.count (insertAll values) = Z.of_nat (length values).
Proof.
  unfold insertAll.
  enough (G : forall a, Argmin.count (fold_left Argmin.numInc values a)
                        = Argmin.count a + Z.of_nat (length values))
    by (rewrite G; reflexivity).
  induction values as [|v vs IH]; intros a; simpl fold_left.
  - simpl. lia.
  - rewrite IH, count_numInc. simpl length. lia.
Qed.

(** [numInc] leaves [sd] alone until the second value arrives. *)
Lemma sd_numInc_small (a : Argmin.aggr) (v : N) :
  Argmin.count (Argmin.numInc a v) < 2 ->
  Argmin.sd (Argmin.numInc a v) = Argmin.sd a.
Proof.
  rewrite count_numInc. intros Hc. unfold Argmin.numInc. simpl.
  destruct (2 <=? Argmin.count a + 1) eqn:E; [apply Z.leb_le in E; lia | reflexivity].
Qed.

(** [numDec] never resets [sd]: below two values it keeps the old one. *)
Lemma sd_numDec_small (a : Argmin.aggr) (v : N) :
  Argmin.count (Argmin.numDec a v) < 2 ->
  Argmin.sd (Argmin.numDec a v) = Argmin.sd a.
Proof.
  unfold Argmin.numDec.
  destruct (Argmin.count a =? 1) eqn:E1; [reflexivity|].
  simpl. intros Hc.
  destruct (2 <=? Argmin.count a - 1) eqn:E; [apply Z.leb_le in E; lia | reflexivity].
Qed.

(** C5 (amended): at [count == 1] the guard of [numDec] fires and the
    accumulator is returned as it was: count, mean, M2, sd, min and max are
    all unchanged, whatever the value. *)
Theorem numDec_noop_at_one (a : Argmin.aggr) (value : N) :
  Argmin.count a = 1 -> Argmin.numDec a value = a.
Proof.
  intros Hc. unfold Argmin.numDec. rewrite Hc. reflexivity.
Qed.

Lemma sd_applyOp_small (a : Argmin.aggr) (o : op N) :
  Argmin.count (applyOp a o) < 2 -> Argmin.sd (applyOp a o) = Argmin.sd a.
Proof.
  destruct o; [apply sd_numInc_small | apply sd_numDec_small].
Qed.

Lemma sd_kept_below_two (ops : list (op N)) :
  forall a : Argmin.aggr,
    (forall k, (k <= length ops)%nat -> Argmin.count (runFrom a (firstn k ops)) < 2) ->
    Argmin.sd (runFrom a ops) = Argmin.sd a.
Proof.
  induction ops as [|o ops IH]; intros a Hlow; [reflexivity|].
  cbn [runFrom fold_left]. fold (runFrom (applyOp a o) ops).
  rewrite IH.
  - apply sd_applyOp_small. apply (Hlow 1%nat). simpl. lia.
  - intros k Hk. apply (Hlow (S k)). simpl. lia.
Qed.

(** C6 (amended): as long as the count has stayed below 2 during a
    sequence of inserts and removes from the initial state, [sd] is 0. *)
Theorem sd_zero_before_two_values (ops : list (op N)) :
  (forall k, (k <= length ops)%nat -> Argmin.count (runOps (firstn k ops)) < 2) ->
  Argmin.sd (runOps ops) = of_Z 0.
Proof.
  intros Hlow. unfold runOps. now rewrite sd_kept_below_two.
Qed.

End AccumulatorFacts.

Lemma numDec_noop_at_one_witness :
  Argmin.count (insertAll [7%float]) = 1 /\
  Argmin.numDec (insertAll [7%float]) 9%float = insertAll [7%float].
Proof.
  split; [reflexivity | apply (numDec_noop_at_one (insertAll [7%float]) 9%float); reflexivity].
Defined.

(** C5, as stated, fails on the empty accumulator: [count == 0] is not
    caught by the guard [count == 1], so the count drops to -1 and the mean
    becomes the removed value. *)
Lemma numDec_changes_empty :
  Argmin.count (Argmin.emptyAggr (N:=float)) <= 1 /\
  Argmin.numDec Argmin.emptyAggr 5%float <> Argmin.emptyAggr /\
  Argmin.count (Argmin.numDec (Argmin.emptyAggr (N:=float)) 5%float) = -1 /\
  Argmin.mean (Argmin.numDec (Argmin.emptyAggr (N:=float)) 5%float) = 5%float.
Proof.
  split; [vm_compute; discriminate|].
  split; [|split; reflexivity].
  intros E. apply (f_equal Argmin.count) in E. vm_compute in E. discriminate.
Qed.

Lemma sd_zero_before_two_values_witness :
  (forall k, (k <= length [Inc 7%float; Dec 7%float])%nat ->
     Argmin.count (runOps (firstn k [Inc 7%float; Dec 7%float])) < 2) /\
  Argmin.sd (runOps [Inc 7%float; Dec 7%float]) = of_Z 0.
Proof.
  assert (Hlow : forall k, (k <= length [Inc 7%float; Dec 7%float])%nat ->
     Argmin.count (runOps (firstn k [Inc 7%float; Dec 7%float])) < 2).
  { intros k _. destruct k as [|[|[|k]]]; reflexivity. }
  split; [exact Hlow|].
  exact (sd_zero_before_two_values [Inc 7%float; Dec 7%float] Hlow).
Defined.

(** C6, as stated, fails after insert 1, insert 3, remove 3: one value is
    left and [sd] is still the deviation of the two, about 1.414. *)
Lemma sd_stale_after_remove :
  let a := runOps [Inc 1%float; Inc 3%float; Dec 3%float] in
  Argmin.count a = 1 /\ Argmin.sd a = 0x1.6a09e667f3bcdp+0%float /\
  Argmin.sd a <> 0%float.
Proof.
  split; [reflexivity|]. split; [reflexivity|].
  intros E.
  assert (F : PrimFloat.eqb
    (Argmin.sd (runOps [Inc 1%float; Inc 3%float; Dec 3%float])) 0%float = true)
    by (rewrite E; reflexivity).
  vm_compute in F. discriminate.
Qed.

(** ** The count of the values held *)

(** The count is an integer and exact in every arithmetic: as long as no
    remove meets the guard of [numDec], it is the number of values held. *)
Lemma count_run {N : Type} `{JsNumber N} (ops : list (op N)) :
  forall (a : Argmin.aggr) (b b' : list N),
    heldFrom 2 b ops b' -> Argmin.count a = Z.of_nat (length b) ->
    Argmin.count (runFrom a ops) = Z.of_nat (length b').
Proof.
  induction ops as [|o ops IH]; intros a b b' Hh Hc; inversion Hh; subst; cbn [runFrom fold_left].
  - exact Hc.
  - eapply IH; [eassumption|].
    cbn [applyOp length]. rewrite count_numInc. lia.
  - match goal with Hp : Permutation b _ |- _ =>
      pose proof (Permutation_length Hp) as Hl end.
    cbn [length] in Hl.
    eapply IH; [eassumption|].
    cbn [applyOp]. rewrite count_numDec.
    destruct (Z.eqb_spec (Argmin.count a) 1); lia.
Qed.

(** ** Welford's update in exact arithmetic *)

Section ExactAccumulator.
Local Open Scope R_scope.

Definition sumSquares (bag : list R) : R :=
  fold_right (fun x acc => x * x + acc) 0 bag.

(** What the accumulator knows about the values it holds. *)
Definition tracks (a : Argmin.aggr (N:=R)) (bag : list R) : Prop :=
  Argmin.count a = Z.of_nat (length bag) /\
  IZR (Argmin.count a) * Argmin.mean a = total bag /\
  Argmin.M2 a = sumSquares bag - total bag * Argmin.mean a.

Lemma total_perm (b1 b2 : list R) : Permutation b1 b2 -> total b1 = total b2.
Proof.
  induction 1; simpl; lra || congruence.
Qed.

Lemma sumSquares_perm (b1 b2 : list R) :
  Permutation b1 b2 -> sumSquares b1 = sumSquares b2.
Proof.
  induction 1; simpl; lra || congruence.
Qed.

Lemma tracks_empty : tracks Argmin.emptyAggr [].
Proof.
  unfold tracks; simpl. repeat split; lra.
Qed.

Lemma tracks_numInc (a : Argmin.aggr) (bag : list R) (v : R) :
  tracks a bag -> tracks (Argmin.numInc a v) (v :: bag).
Proof.
  intros (Hc & Hm & Hq).
  assert (Hn : 0 <= IZR (Argmin.count a)) by (rewrite Hc; apply IZR_le; lia).
  unfold tracks, Argmin.numInc; cbn -[Z.add Z.of_nat total sumSquares].
  rewrite plus_IZR.
  change (total (v :: bag)) with (v + total bag).
  change (sumSquares (v :: bag)) with (v * v + sumSquares bag).
  split; [lia|].
  set (n := IZR (Argmin.count a)) in *.
  set (m := Argmin.mean a) in *.
  assert (Hm' : (n + 1) * (m + (v - m) / (n + 1)) = v + total bag)
    by (rewrite <- Hm; field; lra).
  split; [exact Hm'|].
  rewrite Hq.
  set (m' := m + (v - m) / (n + 1)) in *.
  assert (E : m * ((n + 1) * m') = m * (v + total bag)) by (rewrite Hm'; reflexivity).
  rewrite <- Hm in E |- *. nra.
Qed.

Lemma tracks_numDec (a : Argmin.aggr) (bag b1 : list R) (v : R) :
  (2 <= length bag)%nat -> Permutation bag (v :: b1) ->
  tracks a bag -> tracks (Argmin.numDec a v) b1.
Proof.
  intros Hlen Hp (Hc & Hm & Hq).
  pose proof (Permutation_length Hp) as Hl. simpl in Hl.
  rewrite (total_perm _ _ Hp) in Hm, Hq. rewrite (sumSquares_perm _ _ Hp) in Hq.
  simpl in Hm, Hq.
  assert (Hn : 2 <= IZR (Argmin.count a)) by (rewrite Hc; apply IZR_le; lia).
  unfold tracks, Argmin.numDec.
  destruct (Z.eqb_spec (Argmin.count a) 1) as [E1|_]; [lia|].
  cbn -[Z.sub Z.of_nat total sumSquares]. rewrite minus_IZR.
  split; [lia|].
  set (n := IZR (Argmin.count a)) in *.
  set (m := Argmin.mean a) in *.
  assert (Hm' : (n - 1) * (m - (v - m) / (n - 1)) = total b1)
    by (replace (total b1) with (n * m - v) by lra; field; lra).
  split; [exact Hm'|].
  rewrite Hq.
  set (m' := m - (v - m) / (n - 1)) in *.
  assert (E : m * ((n - 1) * m') = m * total b1) by (rewrite Hm'; reflexivity).
  nra.
Qed.

Lemma tracks_run (ops : list (op R)) :
  forall (a : Argmin.aggr) (b b' : list R),
    heldFrom 2 b ops b' -> tracks a b -> tracks (runFrom a ops) b'.
Proof.
  induction ops as [|o ops IH]; intros a b b' Hh Ht; inversion Hh; subst; simpl.
  - exact Ht.
  - eapply IH; [eassumption|]. now apply tracks_numInc.
  - eapply IH; [eassumption|]. eapply tracks_numDec; eassumption.
Qed.

(** The directly computed sum of squared deviations, expanded. *)
Lemma squares_about (m : R) (bag : list R) :
  fold_right (fun x acc => (x - m) * (x - m) + acc) 0 bag =
  sumSquares bag - 2 * m * total bag + IZR (Z.of_nat (length bag)) * m * m.
Proof.
  induction bag as [|x bag IH].
  - unfold sumSquares, total. cbv [fold_right length Z.of_nat]. lra.
  - change (sumSquares (x :: bag)) with (x * x + sumSquares bag).
    change (total (x :: bag)) with (x + total bag).
    cbn [fold_right length]. rewrite IH, Nat2Z.inj_succ, succ_IZR. lra.
Qed.

Lemma squaredDeviations_nonneg (bag : list R) : 0 <= squaredDeviations bag.
Proof.
  unfold squaredDeviations. generalize (meanOf bag) as m. intros m.
  induction bag as [|x bag IH]; simpl.
  - apply Rle_refl.
  - pose proof (Rle_0_sqr (x - m)) as Hsq. unfold Rsqr in Hsq. lra.
Qed.

Lemma tiny_pos : 0 < tiny (N:=R).
Proof. cbn [tiny real_number]. apply Rinv_0_lt_compat, IZR_lt. reflexivity. Qed.

(** The epsilon in the denominator lowers the variance by a relative
    [10**-32] at most. *)
Lemma variance_close (bag : list R) :
  (2 <= length bag)%nat ->
  0 <= sampleVariance bag - varianceOf bag <= tiny * sampleVariance bag.
Proof.
  intros Hlen. unfold sampleVariance, varianceOf.
  pose proof (squaredDeviations_nonneg bag) as Hq.
  pose proof tiny_pos as He.
  assert (Hn : 1 <= IZR (Z.of_nat (length bag) - 1)) by (apply IZR_le; lia).
  set (q := squaredDeviations bag) in *. set (e := tiny (N:=R)) in *.
  set (n1 := IZR (Z.of_nat (length bag) - 1)) in *.
  assert (Hi1 : 0 < / n1) by (apply Rinv_0_lt_compat; lra).
  assert (Hi2 : 0 < / (n1 + e)) by (apply Rinv_0_lt_compat; lra).
  assert (Hone : (n1 + e) * / (n1 + e) = 1) by (apply Rinv_r; lra).
  assert (Hle : / (n1 + e) <= 1) by nra.
  assert (E : q / n1 - q / (n1 + e) = e * (q / n1) * / (n1 + e)) by (field; lra).
  rewrite E. unfold Rdiv.
  assert (Hx : 0 <= e * (q * / n1)) by (apply Rmult_le_pos; [lra | apply Rmult_le_pos; lra]).
  split; nra.
Qed.

(** C3 (amended): when every remove takes out a held value while at least
    two values are held (so the guard of [numDec] never fires), the count
    is the number of held values, in every arithmetic; and in exact
    arithmetic a sequence of calls that ends with [count >= 2] leaves the
    mean equal to the arithmetic mean of the held values, [M2] equal to
    their summed squared deviations and [M2 / (count - 1 + eps)] equal to
    these divided by the same denominator, which is the sample variance up
    to a relative [10**-32]. *)
Theorem welford_tracks_held :
  (forall (N : Type) (number : JsNumber N) (ops : list (op N)) (bag : list N),
     heldFrom 2 [] ops bag ->
     Argmin.count (runOps ops) = Z.of_nat (length bag)) /\
  (forall (ops : list (op R)) (bag : list R),
     heldFrom 2 [] ops bag ->
     (2 <= Argmin.count (runOps ops))%Z ->
     Argmin.mean (runOps ops) = meanOf bag /\
     Argmin.M2 (runOps ops) = squaredDeviations bag /\
     variance (runOps ops) = varianceOf bag /\
     0 <= sampleVariance bag - variance (runOps ops) <= tiny * sampleVariance bag).
Proof.
  split.
  { intros N number ops bag Hh. apply (count_run ops _ [] bag Hh). reflexivity. }
  intros ops bag Hh Hc.
  destruct (tracks_run ops _ _ _ Hh tracks_empty) as (Hn & Hm & Hq).
  fold (runOps ops) in Hn, Hm, Hq.
  assert (Hpos : 2 <= IZR (Argmin.count (runOps ops))) by now apply IZR_le.
  assert (Hmean : Argmin.mean (runOps ops) = meanOf bag).
  { unfold meanOf. rewrite <- Hn, <- Hm. field. lra. }
  assert (Hsq : Argmin.M2 (runOps ops) = squaredDeviations bag).
  { unfold squaredDeviations. rewrite squares_about, <- Hmean, <- Hn, Hq.
    rewrite <- Hm. ring. }
  assert (Hvar : variance (runOps ops) = varianceOf bag).
  { unfold variance, varianceOf. rewrite Hsq, Hn. reflexivity. }
  repeat split; try assumption; rewrite Hvar; apply variance_close; lia.
Qed.

End ExactAccumulator.

Lemma welford_tracks_held_witness :
  let ops := [Inc 1%R; Inc 2%R; Inc 4%R; Dec 2%R] in
  let bag := [4%R; 1%R] in
  let fops : list (op float) := [Inc (of_Z 1); Inc (of_Z 2); Inc (of_Z 4); Dec (of_Z 2)] in
  let fbag : list float := [of_Z 4; of_Z 1] in
  heldFrom 2 [] fops fbag /\ heldFrom 2 [] ops bag /\ 2 <= Argmin.count (runOps ops) /\
  Argmin.count (runOps fops) = Z.of_nat (length fbag) /\
  (Argmin.mean (runOps ops) = meanOf bag /\
   Argmin.M2 (runOps ops) = squaredDeviations bag /\
   variance (runOps ops) = varianceOf bag /\
   (0 <= sampleVariance bag - variance (runOps ops) <= tiny * sampleVariance bag)%R).
Proof.
  assert (Hh : forall (N : Type) (a b c : N),
             heldFrom 2 [] [Inc a; Inc b; Inc c; Dec b] [c; a]).
  { intros N a b c. do 3 apply held_insert.
    apply held_remove with (b1 := [c; a]); [simpl; lia | apply perm_swap | apply held_done]. }
  assert (Hc : 2 <= Argmin.count (runOps [Inc 1%R; Inc 2%R; Inc 4%R; Dec 2%R])).
  { lazy. discriminate. }
  cbv zeta. split; [apply Hh|]. split; [apply Hh|]. split; [exact Hc|].
  split.
  - apply (proj1 welford_tracks_held). apply Hh.
  - exact (proj2 welford_tracks_held _ _ (Hh R _ _ _) Hc).
Defined.

(** C3, as stated, fails on insert 1, remove 1, insert 2, insert 3: the
    remove is dropped by the guard [count == 1], so the accumulator ends
    with count 3 and mean 2 while the values held are 2 and 3.  It also
    fails on binary64, whatever the tolerance.  After insert 10^9, insert 1,
    insert 2, remove 10^9 the values held are 1 and 2, with sample variance
    1/2, and the accumulator has [M2 / (count - 1 + eps)] equal to 128.
    After insert 0.1, three times insert 0.7 and remove 0.1 the accumulator
    has a negative [M2], and its [sd] is [NaN]. *)
Lemma welford_off_held_values :
  (let ops := [Inc 1%R; Dec 1%R; Inc 2%R; Inc 3%R] in
   let bag := [3%R; 2%R] in
   heldFrom 0 [] ops bag /\ 2 <= Argmin.count (runOps ops) /\
   Argmin.count (runOps ops) <> Z.of_nat (length bag) /\
   Argmin.mean (runOps ops) <> meanOf bag) /\
  (let big : float := of_Z (10 ^ 9) in
   let ops := [Inc big; Inc (of_Z 1); Inc (of_Z 2); Dec big] in
   let bag := [2%R; 1%R] in
   heldFrom 2 [] ops [of_Z 2; of_Z 1] /\
   Argmin.count (runOps ops) = 2 /\
   variance (runOps ops) = of_Z 128 /\
   sampleVariance bag = (1 / 2)%R /\
   (/ IZR (10 ^ 9) * sampleVariance bag < IZR 128 - sampleVariance bag)%R) /\
  (let ops := [Inc (tenths 1); Inc (tenths 7); Inc (tenths 7); Inc (tenths 7);
               Dec (tenths 1)] in
   heldFrom 2 [] ops [tenths 7; tenths 7; tenths 7] /\
   Argmin.count (runOps ops) = 3 /\
   ltb (Argmin.M2 (runOps ops)) (of_Z 0) = true /\
   isNaN (Argmin.sd (runOps ops))).
Proof.
  assert (Hv : sampleVariance [2%R; 1%R] = (1 / 2)%R).
  { unfold sampleVariance, squaredDeviations, meanOf, total.
    cbn [fold_right length]. change (Z.of_nat 2 - 1) with 1. change (Z.of_nat 2) with 2.
    field. }
  split; [|split].
  - split.
    { apply held_insert.
      apply held_remove with (b1 := []); [simpl; lia | apply Permutation_refl |].
      do 2 apply held_insert. apply held_done. }
    split; [lazy; discriminate|].
    split; [lazy; discriminate|].
    lazy beta iota zeta delta -[Rplus Rminus Rmult Rdiv Rinv Ropp IZR not]. lra.
  - cbv zeta. split.
    { do 3 apply held_insert.
      apply held_remove with (b1 := [of_Z 2; of_Z 1]);
        [simpl; lia | symmetry; apply (Permutation_cons_append [_; _]) | apply held_done]. }
    split; [vm_compute; reflexivity|].
    split; [vm_compute; reflexivity|].
    split; [exact Hv|].
    rewrite Hv.
    assert (Hp : (0 < / IZR (10 ^ 9) < 1)%R).
    { split; [apply Rinv_0_lt_compat, IZR_lt; reflexivity|].
      rewrite <- Rinv_1. apply Rinv_lt_contravar; [|apply IZR_lt; reflexivity].
      rewrite Rmult_1_l. apply IZR_lt. reflexivity. }
    lra.
  - cbv zeta. split.
    { do 4 apply held_insert.
      apply held_remove with (b1 := [tenths 7; tenths 7; tenths 7]);
        [simpl; lia | symmetry; apply (Permutation_cons_append [_; _; _]) | apply held_done]. }
    split; [vm_compute; reflexivity|].
    split; [vm_compute; reflexivity|].
    unfold isNaN. vm_compute. reflexivity.
Qed.

(** ** The split search *)

Section SplitSearch.
Context {N : Type} `{JsOrder N}.
Variable g : Argmin.globals (N:=N).

Lemma scanStep_below (st : Argmin.scan) (split : nat) (v : N) :
  Argmin.belowSplitAggr (Argmin.scanStep g st split v) =
  Argmin.numInc (Argmin.belowSplitAggr st) v.
Proof.
  unfold Argmin.scanStep.
  repeat match goal with |- context [if ?b then _ else _] => destruct b end;
    reflexivity.
Qed.

Lemma scanStep_above (st : Argmin.scan) (split : nat) (v : N) :
  Argmin.aboveSplitAggr (Argmin.scanStep g st split v) =
  Argmin.numDec (Argmin.aboveSplitAggr st) v.
Proof.
  unfold Argmin.scanStep.
  repeat match goal with |- context [if ?b then _ else _] => destruct b end;
    reflexivity.
Qed.

(** The loop body assigns [cut] only behind all four tests and the
    comparison with [best]. *)
Lemma scanStep_records (st : Argmin.scan) (split : nat) (v : N) :
  Argmin.cut (Argmin.scanStep g st split v) <> Argmin.cut st ->
  let below := Argmin.numInc (Argmin.belowSplitAggr st) v in
  let above := Argmin.numDec (Argmin.aboveSplitAggr st) v in
  Z.of_nat (Argmin.minBinSize g) <= Argmin.count below /\
  Z.of_nat (Argmin.minBinSize g) <= Argmin.count above /\
  Argmin.wideEnough g below = true /\ Argmin.wideEnough g above = true /\
  ltb (Argmin.cost below above) (Argmin.best st) = true /\
  Argmin.cut (Argmin.scanStep g st split v) = Some split.
Proof.
  unfold Argmin.scanStep. cbv zeta.
  destruct (Argmin.bigEnough g _ _) eqn:Eb; [|intros E; now elim E].
  destruct (Argmin.wideEnough g (Argmin.numInc _ _)) eqn:Ew1; [|intros E; now elim E].
  destruct (Argmin.wideEnough g (Argmin.numDec _ _)) eqn:Ew2; [|intros E; now elim E].
  destruct (ltb _ (Argmin.best st)) eqn:El; [|intros E; now elim E].
  intros _. unfold Argmin.bigEnough in Eb.
  apply andb_prop in Eb as [E1 E2]. apply Z.leb_le in E1, E2.
  repeat split; assumption.
Qed.

Lemma scanFrom_snoc (l : list N) (v : N) :
  forall (i : nat) (st : Argmin.scan),
    Argmin.scanFrom g (l ++ [v]) i st =
    Argmin.scanStep g (Argmin.scanFrom g l i st) (i + length l) v.
Proof.
  induction l as [|x l IH]; intros i st; simpl.
  - now rewrite Nat.add_0_r.
  - rewrite IH. f_equal. lia.
Qed.

(** The loop over an explicit list of values [vs], starting at row [min]. *)
Section OverValues.
Variable min : nat.
Variable vs : list N.

Let above0 := Argmin.getStdDev (Argmin.lastCol g) min (Argmin.numRows g).
Let best0 := Argmin.sd above0.
Let below_ (j : nat) := fold_left Argmin.numInc (firstn (S j) vs) Argmin.emptyAggr.
Let above_ (j : nat) := fold_left Argmin.numDec (firstn (S j) vs) above0.
Let cand_ (j : nat) : bool :=
  Argmin.bigEnough g (below_ j) (above_ j) &&
  Argmin.wideEnough g (below_ j) && Argmin.wideEnough g (above_ j).
Let cost_ (j : nat) : N := Argmin.cost (below_ j) (above_ j).
Let state_ (k : nat) := Argmin.scanFrom g (firstn k vs) min (Argmin.scanInit g min).

(** The invariant of the [for split] loop after [k] iterations. *)
Definition scanned (k : nat) (st : Argmin.scan) : Prop :=
  Argmin.belowSplitAggr st = fold_left Argmin.numInc (firstn k vs) Argmin.emptyAggr /\
  Argmin.aboveSplitAggr st = fold_left Argmin.numDec (firstn k vs) above0 /\
  match Argmin.cut st with
  | None =>
      Argmin.best st = best0 /\
      forall j, (j < k)%nat -> cand_ j = true -> ltb (cost_ j) best0 = false
  | Some c =>
      exists j, (j < k)%nat /\ c = (min + j)%nat /\ cand_ j = true /\
        Argmin.best st = cost_ j /\ ltb (cost_ j) best0 = true /\
        (forall j', (j' < k)%nat -> cand_ j' = true ->
                    ltb (cost_ j') (cost_ j) = false) /\
        (forall j', (j' < k)%nat -> cand_ j' = true ->
                    cost_ j' = cost_ j -> (j <= j')%nat)
  end.

Lemma ltb_false_trans (x y z : N) :
  ltb x z = false -> ltb y z = true -> ltb x y = false.
Proof.
  intros Hxz Hyz. destruct (ltb x y) eqn:E; [|reflexivity].
  now rewrite (ltb_trans _ _ _ E Hyz) in Hxz.
Qed.

Lemma scanned_step (k : nat) (v : N) :
  vs !! k = Some v -> scanned k (state_ k) -> scanned (S k) (state_ (S k)).
Proof.
  intros Hv (Hb & Ha & Hcut).
  assert (Hlen : (k < length vs)%nat) by (eapply lookup_lt_Some; eassumption).
  assert (Ek : firstn (S k) vs = firstn k vs ++ [v]) by now apply take_S_r.
  assert (Est : state_ (S k) = Argmin.scanStep g (state_ k) (min + k) v).
  { unfold state_. rewrite Ek, scanFrom_snoc. do 2 f_equal.
    rewrite length_take. lia. }
  assert (Hb' : Argmin.numInc (Argmin.belowSplitAggr (state_ k)) v = below_ k).
  { unfold below_. now rewrite Ek, fold_left_app, Hb. }
  assert (Ha' : Argmin.numDec (Argmin.aboveSplitAggr (state_ k)) v = above_ k).
  { unfold above_. now rewrite Ek, fold_left_app, Ha. }
  split; [rewrite Est, scanStep_below, Hb'; reflexivity|].
  split; [rewrite Est, scanStep_above, Ha'; reflexivity|].
  rewrite Est. unfold Argmin.scanStep. rewrite Hb', Ha'.
  fold (cost_ k).
  assert (Ecand : cand_ k =
    (if Argmin.bigEnough g (below_ k) (above_ k) then
       if Argmin.wideEnough g (below_ k) then Argmin.wideEnough g (above_ k)
       else false else false)).
  { unfold cand_. now destruct (Argmin.bigEnough g _ _), (Argmin.wideEnough g (below_ k)). }
  assert (Hkeep :
    (cand_ k = true -> ltb (cost_ k) (Argmin.best (state_ k)) = false) ->
    match Argmin.cut (state_ k) with
    | None =>
        Argmin.best (state_ k) = best0 /\
        forall j, (j < S k)%nat -> cand_ j = true -> ltb (cost_ j) best0 = false
    | Some c =>
        exists j, (j < S k)%nat /\ c = (min + j)%nat /\ cand_ j = true /\
          Argmin.best (state_ k) = cost_ j /\ ltb (cost_ j) best0 = true /\
          (forall j', (j' < S k)%nat -> cand_ j' = true ->
                      ltb (cost_ j') (cost_ j) = false) /\
          (forall j', (j' < S k)%nat -> cand_ j' = true ->
                      cost_ j' = cost_ j -> (j <= j')%nat)
    end).
  { intros Hno. destruct (Argmin.cut (state_ k)) as [c|].
    - destruct Hcut as (j & Hj & Hc & Hcj & Hbest & Hlt & Hmin & Htie).
      exists j. repeat split; try assumption; try lia.
      + intros j' Hj' Hc'. destruct (Nat.eq_dec j' k) as [->|Hne].
        * rewrite <- Hbest. now apply Hno.
        * apply Hmin; [lia | assumption].
      + intros j' Hj' Hc' He. destruct (Nat.eq_dec j' k) as [->|Hne]; [lia|].
        apply Htie; [lia | assumption | assumption].
    - destruct Hcut as (Hbest & Hnone). split; [assumption|].
      intros j Hj Hc'. destruct (Nat.eq_dec j k) as [->|Hne].
      + rewrite <- Hbest. now apply Hno.
      + apply Hnone; [lia | assumption]. }
  destruct (Argmin.bigEnough g (below_ k) (above_ k)); cbn [Argmin.cut Argmin.best];
    [|apply Hkeep; rewrite Ecand; discriminate].
  destruct (Argmin.wideEnough g (below_ k)); cbn [Argmin.cut Argmin.best];
    [|apply Hkeep; rewrite Ecand; discriminate].
  destruct (Argmin.wideEnough g (above_ k)) eqn:Ew; cbn [Argmin.cut Argmin.best];
    [|apply Hkeep; rewrite Ecand; discriminate].
  destruct (ltb (cost_ k) (Argmin.best (state_ k))) eqn:Elt; cbn [Argmin.cut Argmin.best];
    [|apply Hkeep; intros _; reflexivity].
  (* the split [min + k] is recorded *)
  exists k.
  assert (Hlt0 : ltb (cost_ k) best0 = true).
  { destruct (Argmin.cut (state_ k)) as [c|].
    - destruct Hcut as (j & _ & _ & _ & Hbest & Hlt & _).
      rewrite Hbest in Elt. exact (ltb_trans _ _ _ Elt Hlt).
    - destruct Hcut as (Hbest & _). now rewrite Hbest in Elt. }
  assert (Hprev : forall j', (j' < k)%nat -> cand_ j' = true ->
                             ltb (cost_ j') (Argmin.best (state_ k)) = false).
  { intros j' Hj' Hc'. destruct (Argmin.cut (state_ k)) as [c|].
    - destruct Hcut as (j & _ & _ & _ & Hbest & _ & Hmin & _).
      rewrite Hbest. now apply Hmin.
    - destruct Hcut as (Hbest & Hnone). rewrite Hbest. now apply Hnone. }
  repeat split; try assumption; try lia.
  - intros j' Hj' Hc'. destruct (Nat.eq_dec j' k) as [->|Hne]; [apply ltb_irrefl|].
    eapply ltb_false_trans; [apply Hprev; [lia | assumption] | exact Elt].
  - intros j' Hj' Hc' He. destruct (Nat.eq_dec j' k) as [->|Hne]; [lia|].
    exfalso. rewrite <- He, Hprev in Elt; [discriminate | lia | assumption].
Qed.

Lemma scanned_all (k : nat) : (k <= length vs)%nat -> scanned k (state_ k).
Proof.
  induction k as [|k IH]; intros Hk.
  - unfold scanned, state_. simpl.
    repeat split; try reflexivity. intros j Hj. lia.
  - destruct (lookup_lt_is_Some_2 vs k) as [v Hv]; [lia|].
    apply (scanned_step k v Hv). apply IH. lia.
Qed.

End OverValues.

Lemma take_slice (min max j : nat) :
  (j < max - min)%nat ->
  firstn (S j) (Argmin.slice (Argmin.lastCol g) min max) =
  Argmin.slice (Argmin.lastCol g) min (S (min + j)).
Proof.
  intros Hj. unfold Argmin.slice. rewrite take_take.
  f_equal. lia.
Qed.

Lemma length_slice (min max : nat) :
  (max <= length (Argmin.lastCol g))%nat ->
  length (Argmin.slice (Argmin.lastCol g) min max) = (max - min)%nat.
Proof.
  intros Hmax. unfold Argmin.slice. rewrite length_take, length_drop. lia.
Qed.

(** What [argmin] returns, for any globals. *)
Lemma argmin_characterised (min max : nat) :
  (max <= length (Argmin.lastCol g))%nat ->
  match Argmin.argmin g min max with
  | Some c =>
      exists s, c = (s + 1)%nat /\ (min <= s < max)%nat /\
        Argmin.candidate g min s = true /\
        ltb (Argmin.splitCost g min s) (Argmin.wholeCost g min) = true /\
        (forall s', (min <= s' < max)%nat -> Argmin.candidate g min s' = true ->
           ltb (Argmin.splitCost g min s') (Argmin.splitCost g min s) = false) /\
        (forall s', (min <= s' < max)%nat -> Argmin.candidate g min s' = true ->
           Argmin.splitCost g min s' = Argmin.splitCost g min s -> (s <= s')%nat)
  | None =>
      (max - min <= 2 * Argmin.minBinSize g)%nat \/
      (forall s', (min <= s' < max)%nat -> Argmin.candidate g min s' = true ->
         ltb (Argmin.splitCost g min s') (Argmin.wholeCost g min) = false)
  end.
Proof.
  intros Hmax. unfold Argmin.argmin.
  destruct (Nat.ltb_spec (2 * Argmin.minBinSize g) (max - min)) as [Hbig|Hsmall];
    [|left; lia].
  set (vs := Argmin.slice (Argmin.lastCol g) min max).
  assert (Hlen : length vs = (max - min)%nat) by now apply length_slice.
  pose proof (scanned_all min vs (length vs) (Nat.le_refl _)) as (_ & _ & Hcut).
  rewrite firstn_all in Hcut.
  assert (Hb : forall j, (j < max - min)%nat ->
    fold_left Argmin.numInc (firstn (S j) vs) Argmin.emptyAggr
    = Argmin.belowAt g min (min + j)).
  { intros j Hj. unfold Argmin.belowAt, vs. now rewrite take_slice. }
  assert (Ha : forall j, (j < max - min)%nat ->
    fold_left Argmin.numDec (firstn (S j) vs)
      (Argmin.getStdDev (Argmin.lastCol g) min (Argmin.numRows g))
    = Argmin.aboveAt g min (min + j)).
  { intros j Hj. unfold Argmin.aboveAt, vs. now rewrite take_slice. }
  destruct (Argmin.cut _) as [c|].
  - destruct Hcut as (j & Hj & -> & Hc & _ & Hlt & Hmin & Htie).
    rewrite Hlen in Hj, Hmin, Htie.
    rewrite Hb, Ha in Hc, Hlt by assumption.
    exists (min + j)%nat. split; [reflexivity|]. split; [lia|].
    split; [exact Hc|]. split; [exact Hlt|].
    split.
    + intros s' Hs' Hc'. specialize (Hmin (s' - min)%nat).
      rewrite !Hb, !Ha in Hmin by lia.
      replace (min + (s' - min))%nat with s' in Hmin by lia.
      apply Hmin; [lia | exact Hc'].
    + intros s' Hs' Hc' He. specialize (Htie (s' - min)%nat).
      rewrite !Hb, !Ha in Htie by lia.
      replace (min + (s' - min))%nat with s' in Htie by lia.
      specialize (Htie ltac:(lia) Hc' He). lia.
  - right. destruct Hcut as (_ & Hnone). rewrite Hlen in Hnone.
    intros s' Hs' Hc'. specialize (Hnone (s' - min)%nat).
    rewrite Hb, Ha in Hnone by lia.
    replace (min + (s' - min))%nat with s' in Hnone by lia.
    apply Hnone; [lia | exact Hc'].
Qed.

End SplitSearch.

(** How the two accumulators relate to the two partitions of a split. *)
Section PartitionsOfASplit.
Context {N : Type} `{JsNumber N}.

Lemma count_fold_numInc (vs : list N) :
  forall a, Argmin.count (fold_left Argmin.numInc vs a)
            = Argmin.count a + Z.of_nat (length vs).
Proof.
  induction vs as [|v vs IH]; intros a; cbn [fold_left length].
  - lia.
  - rewrite IH, count_numInc. lia.
Qed.

Lemma count_fold_numDec (vs : list N) :
  forall a, 1 <= Argmin.count a ->
    Argmin.count (fold_left Argmin.numDec vs a)
    = Z.max 1 (Argmin.count a - Z.of_nat (length vs)).
Proof.
  induction vs as [|v vs IH]; intros a Ha; cbn [fold_left length].
  - lia.
  - rewrite IH; rewrite count_numDec; destruct (Z.eqb_spec (Argmin.count a) 1); lia.
Qed.

(** [numDec] never touches [max] and [min]. *)
Lemma range_fold_numDec (vs : list N) :
  forall a, Argmin.max (fold_left Argmin.numDec vs a) = Argmin.max a /\
            Argmin.min (fold_left Argmin.numDec vs a) = Argmin.min a.
Proof.
  induction vs as [|v vs IH]; intros a; cbn [fold_left]; [now split|].
  destruct (IH (Argmin.numDec a v)) as [-> ->].
  unfold Argmin.numDec. now destruct (Argmin.count a =? 1).
Qed.

Variable col : list N.

Lemma length_slice_col (lo hi : nat) :
  (hi <= length col)%nat -> length (Argmin.slice col lo hi) = (hi - lo)%nat.
Proof.
  intros Hhi. unfold Argmin.slice. rewrite length_take, length_drop. lia.
Qed.

Lemma belowAt_count (min s : nat) :
  (min <= s < length col)%nat ->
  Argmin.count (Argmin.belowAt (Argmin.initValues col) min s) = Z.of_nat (s - min + 1).
Proof.
  intros Hs. unfold Argmin.belowAt. cbn [Argmin.lastCol Argmin.initValues].
  rewrite count_fold_numInc, length_slice_col by lia.
  cbn [Argmin.count Argmin.emptyAggr]. lia.
Qed.

Lemma aboveAt_count (min s : nat) :
  (min <= s)%nat -> (s + 1 < length col)%nat ->
  Argmin.count (Argmin.aboveAt (Argmin.initValues col) min s)
  = Z.of_nat (length col - s - 1).
Proof.
  intros Hmin Hs. unfold Argmin.aboveAt, Argmin.getStdDev.
  cbn [Argmin.lastCol Argmin.numRows Argmin.initValues].
  rewrite count_fold_numDec; rewrite count_fold_numInc, !length_slice_col by lia;
    cbn [Argmin.count Argmin.emptyAggr]; lia.
Qed.

(** The guard of [numDec] keeps the last value: once every row from [min]
    on has been taken out the count stays at 1. *)
Lemma aboveAt_count_guarded (min s : nat) :
  (min <= s < length col)%nat ->
  Argmin.count (Argmin.aboveAt (Argmin.initValues col) min s)
  = Z.max 1 (Z.of_nat (length col - s - 1)).
Proof.
  intros Hs. unfold Argmin.aboveAt, Argmin.getStdDev.
  cbn [Argmin.lastCol Argmin.numRows Argmin.initValues].
  rewrite count_fold_numDec; rewrite count_fold_numInc, !length_slice_col by lia;
    cbn [Argmin.count Argmin.emptyAggr]; lia.
Qed.

Lemma aboveAt_range (min s : nat) :
  let g := Argmin.initValues col in
  Argmin.max (Argmin.aboveAt g min s) = Argmin.max (Argmin.getStdDev col min (length col)) /\
  Argmin.min (Argmin.aboveAt g min s) = Argmin.min (Argmin.getStdDev col min (length col)).
Proof. apply range_fold_numDec. Qed.

End PartitionsOfASplit.

(** C2 (amended): [minRise] is 0.3 times the deviation of the whole
    column, fixed by [initValues]; the loop body assigns [cut] only when
    both accumulators pass the size test and the range test; [argmin] gives
    the no-split value when the range is not longer than twice
    [minBinSize]; a split [s] it returns (as [s + 1]) passed these tests,
    where the lower accumulator counts the rows [min .. s], the count of
    the upper one is the number of rows above [s], or 1 when no row is
    above [s] (the guard of [numDec] keeps the last value), and the upper one
    still has the [max] and [min] of all rows [min .. numRows-1]; the
    split costs strictly less than the whole range, no candidate of the
    range is cheaper under [<], and among candidates of equal cost it is
    the leftmost; when [argmin] gives the no-split value, no candidate was
    cheaper than the whole range. *)
Theorem argmin_spec {N : Type} `{JsOrder N} (col : list N) (min max : nat) :
  let g := Argmin.initValues col in
  (max <= Argmin.numRows g)%nat ->
  Argmin.minRise g =
    mul Argmin.COHEN (Argmin.sd (Argmin.getStdDev col 0 (length col))) /\
  (forall (st : Argmin.scan) (split : nat) (value : N),
     Argmin.cut (Argmin.scanStep g st split value) <> Argmin.cut st ->
     Z.of_nat (Argmin.minBinSize g)
       <= Argmin.count (Argmin.numInc (Argmin.belowSplitAggr st) value) /\
     Z.of_nat (Argmin.minBinSize g)
       <= Argmin.count (Argmin.numDec (Argmin.aboveSplitAggr st) value) /\
     Argmin.wideEnough g (Argmin.numInc (Argmin.belowSplitAggr st) value) = true /\
     Argmin.wideEnough g (Argmin.numDec (Argmin.aboveSplitAggr st) value) = true) /\
  ((max - min <= 2 * Argmin.minBinSize g)%nat -> Argmin.argmin g min max = None) /\
  match Argmin.argmin g min max with
  | Some c =>
      exists s, c = (s + 1)%nat /\ (min <= s < max)%nat /\
        (Z.of_nat (Argmin.minBinSize g) <= Argmin.count (Argmin.belowAt g min s) /\
         Z.of_nat (Argmin.minBinSize g) <= Argmin.count (Argmin.aboveAt g min s) /\
         Argmin.wideEnough g (Argmin.belowAt g min s) = true /\
         Argmin.wideEnough g (Argmin.aboveAt g min s) = true) /\
        (Argmin.count (Argmin.belowAt g min s) = Z.of_nat (s - min + 1) /\
         Argmin.count (Argmin.aboveAt g min s)
           = Z.max 1 (Z.of_nat (length col - s - 1)) /\
         Argmin.max (Argmin.aboveAt g min s)
           = Argmin.max (Argmin.getStdDev col min (length col)) /\
         Argmin.min (Argmin.aboveAt g min s)
           = Argmin.min (Argmin.getStdDev col min (length col))) /\
        ltb (Argmin.splitCost g min s) (Argmin.wholeCost g min) = true /\
        (forall s', (min <= s' < max)%nat -> Argmin.candidate g min s' = true ->
           ltb (Argmin.splitCost g min s') (Argmin.splitCost g min s) = false) /\
        (forall s', (min <= s' < max)%nat -> Argmin.candidate g min s' = true ->
           Argmin.splitCost g min s' = Argmin.splitCost g min s -> (s <= s')%nat)
  | None =>
      (2 * Argmin.minBinSize g < max - min)%nat ->
      forall s', (min <= s' < max)%nat -> Argmin.candidate g min s' = true ->
        ltb (Argmin.splitCost g min s') (Argmin.wholeCost g min) = false
  end.
Proof.
  intros g Hmax.
  split; [reflexivity|].
  split.
  { intros st split value Hrec.
    pose proof (scanStep_records g st split value Hrec) as (H1 & H2 & H3 & H4 & _).
    auto. }
  split.
  { intros Hsmall. unfold Argmin.argmin.
    destruct (Nat.ltb_spec (2 * Argmin.minBinSize g) (max - min)); [lia | reflexivity]. }
  pose proof (argmin_characterised g min max Hmax) as Hch.
  destruct (Argmin.argmin g min max) as [c|].
  - destruct Hch as (s & Hc & Hs & Hcand & Hrest).
    exists s. split; [exact Hc|]. split; [exact Hs|].
    assert (Hlen : (max <= length col)%nat) by exact Hmax.
    split; [|split; [|exact Hrest]].
    + unfold Argmin.candidate, Argmin.bigEnough in Hcand.
      apply andb_prop in Hcand as [Hcand Hw2].
      apply andb_prop in Hcand as [Hcand Hw1].
      apply andb_prop in Hcand as [Hc1 Hc2].
      apply Z.leb_le in Hc1, Hc2. auto.
    + split; [apply belowAt_count; lia|].
      split; [apply aboveAt_count_guarded; lia|].
      apply aboveAt_range.
  - intros Hbig. destruct Hch as [Hsmall|Hall]; [lia | exact Hall].
Qed.

Lemma argmin_spec_witness :
  let col := fl [1; 2; 3; 4; 4] in
  let g := Argmin.initValues col in
  (5 <= Argmin.numRows g)%nat /\
  (Argmin.minRise g =
     mul Argmin.COHEN (Argmin.sd (Argmin.getStdDev col 0 (length col))) /\
   (forall (st : Argmin.scan) (split : nat) (value : float),
      Argmin.cut (Argmin.scanStep g st split value) <> Argmin.cut st ->
      Z.of_nat (Argmin.minBinSize g)
        <= Argmin.count (Argmin.numInc (Argmin.belowSplitAggr st) value) /\
      Z.of_nat (Argmin.minBinSize g)
        <= Argmin.count (Argmin.numDec (Argmin.aboveSplitAggr st) value) /\
      Argmin.wideEnough g (Argmin.numInc (Argmin.belowSplitAggr st) value) = true /\
      Argmin.wideEnough g (Argmin.numDec (Argmin.aboveSplitAggr st) value) = true) /\
   ((5 - 0 <= 2 * Argmin.minBinSize g)%nat -> Argmin.argmin g 0 5 = None) /\
   match Argmin.argmin g 0 5 with
   | Some c =>
       exists s, c = (s + 1)%nat /\ (0 <= s < 5)%nat /\
         (Z.of_nat (Argmin.minBinSize g) <= Argmin.count (Argmin.belowAt g 0 s) /\
          Z.of_nat (Argmin.minBinSize g) <= Argmin.count (Argmin.aboveAt g 0 s) /\
          Argmin.wideEnough g (Argmin.belowAt g 0 s) = true /\
          Argmin.wideEnough g (Argmin.aboveAt g 0 s) = true) /\
         (Argmin.count (Argmin.belowAt g 0 s) = Z.of_nat (s - 0 + 1) /\
          Argmin.count (Argmin.aboveAt g 0 s)
            = Z.max 1 (Z.of_nat (length col - s - 1)) /\
          Argmin.max (Argmin.aboveAt g 0 s)
            = Argmin.max (Argmin.getStdDev col 0 (length col)) /\
          Argmin.min (Argmin.aboveAt g 0 s)
            = Argmin.min (Argmin.getStdDev col 0 (length col))) /\
         ltb (Argmin.splitCost g 0 s) (Argmin.wholeCost g 0) = true /\
         (forall s', (0 <= s' < 5)%nat -> Argmin.candidate g 0 s' = true ->
            ltb (Argmin.splitCost g 0 s') (Argmin.splitCost g 0 s) = false) /\
         (forall s', (0 <= s' < 5)%nat -> Argmin.candidate g 0 s' = true ->
            Argmin.splitCost g 0 s' = Argmin.splitCost g 0 s -> (s <= s')%nat)
   | None =>
       (2 * Argmin.minBinSize g < 5 - 0)%nat ->
       forall s', (0 <= s' < 5)%nat -> Argmin.candidate g 0 s' = true ->
         ltb (Argmin.splitCost g 0 s') (Argmin.wholeCost g 0) = false
   end).
Proof.
  split; [apply Nat.le_refl|].
  apply (argmin_spec (N:=float) (fl [1; 2; 3; 4; 4]) 0 5). apply Nat.le_refl.
Defined.

(** C2, as stated, fails on the dom column 1,2,3,4,4 (floats): [argmin]
    returns 3, the split after row 2, although the upper partition it
    makes, rows 3 and 4, has [max - min = 0], which is not above
    [minRise] (about 0.39).  The range test passed on the upper
    accumulator, whose [max] and [min] are still 4 and 1.  It also fails
    on the column 0,3,3: [argmin] returns 3, the split after the last row,
    although the upper partition it makes is empty and [minBinSize] is 1.
    The size test passed on the upper accumulator, whose count the guard
    of [numDec] has kept at 1. *)
Lemma argmin_keeps_stale_range :
  let col := fl [1; 2; 3; 4; 4] in
  let g := Argmin.initValues col in
  let col3 := fl [0; 3; 3] in
  let g3 := Argmin.initValues col3 in
  (Argmin.argmin g 0 5 = Some 3%nat /\
   Argmin.max (Argmin.getStdDev col 3 5) = 4%float /\
   Argmin.min (Argmin.getStdDev col 3 5) = 4%float /\
   Argmin.wideEnough g (Argmin.getStdDev col 3 5) = false /\
   Argmin.max (Argmin.aboveAt g 0 2) = 4%float /\
   Argmin.min (Argmin.aboveAt g 0 2) = 1%float /\
   Argmin.wideEnough g (Argmin.aboveAt g 0 2) = true) /\
  (Argmin.argmin g3 0 3 = Some 3%nat /\
   Argmin.minBinSize g3 = 1%nat /\
   Argmin.count (Argmin.getStdDev col3 3 3) = 0 /\
   Argmin.count (Argmin.aboveAt g3 0 2) = 1).
Proof.
  cbv zeta. repeat split; vm_compute; reflexivity.
Qed.

(** ** The partition driver *)

(** C1 fails on the code.  With dom values 1,2,3,4,4 the cut after row 2
    leaves exactly [minBinSize = 2] rows, the loop runs out without another
    [argmin] call, and the final loop starts from the stale [prevCut = 0]:
    rows 0..2 are written twice, in the partition labelled 3 and in the one
    labelled 5.  The column 1,1,1,1,2,2,50,51,52,53 repeats rows 0..6 the
    same way, and a table of one row is not written at all. *)
Theorem calcSplits_repeats_rows :
  Argmin.calcSplits (fl [1; 2; 3; 4; 4]) =
    Some [(0, 3); (1, 3); (2, 3); (0, 5); (1, 5); (2, 5); (3, 5); (4, 5)]%nat /\
  option_map emittedRows (Argmin.calcSplits (fl [1; 1; 1; 1; 2; 2; 50; 51; 52; 53])) =
    Some (seq 0 7 ++ seq 0 10) /\
  Argmin.calcSplits (fl [5]) = Some [].
Proof.
  repeat split; vm_compute; reflexivity.
Qed.

(** ** The recursive driver of Pipe3.ts *)

Section CutsTermination.
Variable Number : string -> option Q.
Variable t : Pipe3.table.

Lemma indexOf_sound (q : Q) (n : nat) :
  Pipe3.indexOf q = Some n -> (q == inject_Z (Z.of_nat n))%Q.
Proof.
  unfold Pipe3.indexOf.
  destruct (Qeq_bool q (inject_Z (Qfloor q))) eqn:Eq; simpl; [|discriminate].
  destruct (0 <=? Qfloor q) eqn:Ez; [|discriminate].
  intros [= <-]. apply Qeq_bool_iff in Eq. apply Z.leb_le in Ez.
  now rewrite Z2Nat.id.
Qed.

Lemma exceedsEnough_pos (d : Q) (r : Z) :
  Pipe3.exceedsEnough d r = true -> (0 < d)%Q.
Proof.
  unfold Pipe3.exceedsEnough. intros Hd.
  apply andb_prop in Hd as [Hd _]. apply andb_prop in Hd as [_ Hd].
  apply negb_true_iff in Hd. apply Qnot_le_lt. intros Hle.
  apply Qle_bool_iff in Hle. congruence.
Qed.

Lemma usable_some (cut : option Q) (r : Z) :
  Pipe3.usable cut r = true ->
  exists q, cut = Some q /\ ~ (q == 0)%Q /\ (q <= inject_Z r)%Q.
Proof.
  destruct cut as [q|]; simpl; [|discriminate].
  intros Hu. apply andb_prop in Hu as [Hnz Hle].
  exists q. split; [reflexivity|]. split.
  - intros Hz. apply Qeq_bool_iff in Hz. rewrite Hz in Hnz. discriminate.
  - now apply Qle_bool_iff.
Qed.

(** Fuel for one call, and for one more than the distance from [low] to
    [high], is enough. *)
Lemma cuts_enough_fuel (Hcuts : cutsZeroOrInRange Number t) (fuel : nat) :
  forall (low high : Q) (pre : string),
    (1 <= fuel)%nat ->
    (high - low + 1 <= inject_Z (Z.of_nat fuel))%Q ->
    exists out, Pipe3.cuts Number fuel t low high pre = Some out.
Proof.
  induction fuel as [|fuel IH]; intros low high pre Hone Hfuel; [lia|].
  cbn [Pipe3.cuts].
  destruct (Pipe3.rowAt (Pipe3.data t) low) as [row|] eqn:Erow; [|eauto].
  destruct (Pipe3.exceedsEnough (high - low) (Pipe3.rows t)) eqn:Ebig; [|eauto].
  destruct (Pipe3.usable _ _) eqn:Eu; [|eauto].
  destruct (usable_some _ _ Eu) as (q & Eq & Hnz & Hle). rewrite Eq.
  apply exceedsEnough_pos in Ebig.
  unfold Pipe3.rowAt in Erow.
  destruct (Pipe3.indexOf low) as [n|] eqn:En; [|discriminate].
  apply indexOf_sound in En.
  specialize (Hcuts n row Erow). rewrite Eq in Hcuts.
  destruct Hcuts as [Hz|[Hlo _]]; [contradiction|].
  rewrite Nat2Z.inj_succ, <- Z.add_1_r, inject_Z_plus in Hfuel.
  change (inject_Z 1) with 1%Q in Hfuel.
  assert (Hf1 : (1 <= fuel)%nat).
  { destruct fuel; [|lia]. change (inject_Z (Z.of_nat 0)) with 0%Q in Hfuel.
    exfalso. lra. }
  destruct (IH (q + 1)%Q high (pre ++ "|..")%string Hf1) as [[log r] Hout].
  { rewrite En in Hfuel. lra. }
  rewrite Hout. eauto.
Qed.

End CutsTermination.

(** C10 (amended): on a table of [r] rows, when the cut field of every row
    [i] is [NaN] or zero, or lies between [i] and [r], [cuts] on
    [0 <= low <= high <= r] ends within [high - low + 1] nested calls. *)
Theorem cuts_terminates (Number : string -> option Q) (t : Pipe3.table)
    (low high : Z) (pre : string) :
  cutsZeroOrInRange Number t ->
  0 <= low <= high /\ high <= dataRows t ->
  exists out,
    Pipe3.cuts Number (Z.to_nat (high - low + 1)) t
      (inject_Z low) (inject_Z high) pre = Some out.
Proof.
  intros Hcuts [Hlow Hhigh].
  apply cuts_enough_fuel; [assumption | lia |].
  rewrite Z2Nat.id by lia.
  unfold Z.sub. rewrite !inject_Z_plus, inject_Z_opp.
  change (inject_Z 1) with 1%Q. lra.
Qed.

(** Three rows whose first cut field is -1, and five rows as [argmin.ts]
    writes them, the cut field of the last partition being the number of
    rows. *)
Definition negativeCutTable : Pipe3.table :=
  Pipe3.mkTable 1 2 0 [["5"; "-1"]; ["6"; "0"]; ["7"; "0"]]%string.

Definition fiveRows : list (list string) :=
  [["10"; "2"]; ["20"; "2"]; ["30"; "5"]; ["40"; "5"]; ["50"; "5"]]%string.

Lemma cuts_terminates_witness :
  let t := Pipe3.mkTable 1 4 0 fiveRows in
  Pipe3.dataSet fiveRows = Some t /\
  cutsZeroOrInRange Pipe3.decimalNumber t /\
  (0 <= 0 <= 5 /\ 5 <= dataRows t) /\
  exists out,
    Pipe3.cuts Pipe3.decimalNumber (Z.to_nat (5 - 0 + 1)) t
      (inject_Z 0) (inject_Z 5) "|.. " = Some out.
Proof.
  cbv zeta.
  assert (Hc : cutsZeroOrInRange Pipe3.decimalNumber (Pipe3.mkTable 1 4 0 fiveRows)).
  { intros i row Hi.
    destruct i as [|[|[|[|[|i]]]]]; simpl in Hi;
      [injection Hi as <-; cbn; right; split; apply Qle_bool_iff; reflexivity ..
      | destruct i; discriminate]. }
  assert (Hr : 0 <= 0 <= 5 /\ 5 <= dataRows (Pipe3.mkTable 1 4 0 fiveRows))
    by (unfold dataRows; simpl; lia).
  split; [reflexivity|]. split; [exact Hc|]. split; [exact Hr|].
  exact (cuts_terminates Pipe3.decimalNumber (Pipe3.mkTable 1 4 0 fiveRows) 0 5 "|.. " Hc Hr).
Defined.

(** One call on the table with the negative cut: the cut -1 is truthy and
    not above [rows], so the call recurses with [low = -1 + 1]. *)
Lemma cuts_negative_step (fuel : nat) (pre : string) :
  Pipe3.cuts Pipe3.decimalNumber (S fuel) negativeCutTable 0 2 pre =
  match Pipe3.cuts Pipe3.decimalNumber fuel negativeCutTable 0 2 (pre ++ "|..")%string with
  | Some (log, r) => Some ((pre ++ "5")%string :: log, r)
  | None => None
  end.
Proof. reflexivity. Qed.

(** C10, as stated, fails: -1 is not a positive number, so the table meets
    the condition on its cut fields, yet [cuts] from [low = 0] calls itself
    with [low = 0] again and no number of nested calls is enough. *)
Lemma cuts_loops_on_negative_cut :
  Pipe3.dataSet [["5"; "-1"]; ["6"; "0"]; ["7"; "0"]]%string = Some negativeCutTable /\
  cutsInRange Pipe3.decimalNumber negativeCutTable /\
  (0 <= 0 <= 2 /\ 2 <= dataRows negativeCutTable) /\
  forall (fuel : nat) (pre : string),
    Pipe3.cuts Pipe3.decimalNumber fuel negativeCutTable (inject_Z 0) (inject_Z 2) pre = None.
Proof.
  split; [reflexivity|]. split; [|split; [unfold dataRows; simpl; lia|]].
  - intros i row Hi.
    destruct i as [|[|[|i]]]; simpl in Hi;
      [injection Hi as <-; cbn; left; apply Qle_not_lt, Qle_bool_iff; reflexivity ..
      | destruct i; discriminate].
  - induction fuel as [|fuel IH]; intros pre; [reflexivity|].
    change (inject_Z 0) with 0%Q in *. change (inject_Z 2) with 2%Q in *.
    now rewrite cuts_negative_step, IH.
Qed.

(** ** Band labels *)

(** C4 fails on the code for the last partition.  In Pipe3.ts the rows
    3..4 of a five-row table are the last partition ([high = rows = 4]) and
    [band] labels them "40..50", not "40..": it has no case for the last
    partition.  The Lua original has the case, but compares [hi] with
    [most], which is never assigned, so its last partition 4..5 gets
    "40..50" too.  The first and the interior partitions are labelled as
    the claim says, where [band] is called for them: a whole run of [cuts]
    on the table marks the rows 1..2 with "..30" and the rows 3..4 with
    "40..50", and leaves row 0 with its cut field. *)
Theorem band_last_partition_closed :
  Pipe3.dataSet fiveRows = Some (Pipe3.mkTable 1 4 0 fiveRows) /\
  Pipe3.band (Pipe3.mkTable 1 4 0 fiveRows) 3 4 = Some "40..50"%string /\
  Label.band fiveRows 1 4 5 = Some "40..50"%string /\
  Pipe3.band (Pipe3.mkTable 1 4 0 fiveRows) 1 2 = Some "..30"%string /\
  Label.band fiveRows 1 1 2 = Some "..20"%string /\
  Label.band fiveRows 1 3 4 = Some "30..40"%string /\
  Pipe3.cuts Pipe3.decimalNumber 5 (Pipe3.mkTable 1 4 0 fiveRows) 0 4 "|.. " =
    Some (["|.. 10"; "|.. |..40"]%string,
          Pipe3.Returned
            (Pipe3.mkTable 1 4 0
               [["10"; "2"]; ["20"; "..30"]; ["30"; "..30"];
                ["40"; "40..50"]; ["50"; "40..50"]]%string)).
Proof. repeat split; reflexivity. Qed.

(** ** The sorting strategies *)

(** *** Exchanges of two rows

    What [bubbleSort], [selectionSort] and the shuffling loop of
    [bogoSort] do to the array, whatever the rows are. *)
Section Exchanges.
Import SortLastCol.
Context {A : Type}.

Lemma swap_perm (vals : list A) (i j : nat) : Permutation (swap vals i j) vals.
Proof.
  unfold swap.
  destruct (vals !! i) as [a|] eqn:Ei; [|reflexivity].
  destruct (vals !! j) as [b|] eqn:Ej; [|reflexivity].
  now apply Permutation_insert_swap.
Qed.

Lemma swap_app_r (front rest : list A) (m i : nat) :
  (length front <= m)%nat -> (length front <= i)%nat ->
  swap (front ++ rest) m i = front ++ swap rest (m - length front) (i - length front).
Proof.
  intros Hm Hi. unfold swap. rewrite !lookup_app_r by assumption.
  destruct (rest !! (m - length front)%nat); [|reflexivity].
  destruct (rest !! (i - length front)%nat); [|reflexivity].
  now rewrite !insert_app_r_alt by assumption.
Qed.

Lemma swap_same (vals : list A) (i : nat) : swap vals i i = vals.
Proof.
  unfold swap. destruct (vals !! i) as [a|] eqn:Ea; [|reflexivity].
  rewrite list_insert_insert_eq. now apply list_insert_id.
Qed.

Lemma length_swap (vals : list A) (i j : nat) : length (swap vals i j) = length vals.
Proof.
  unfold swap. destruct (vals !! i), (vals !! j); try reflexivity.
  now rewrite !length_insert.
Qed.

Lemma swap_split (vals : list A) (i j : nat) (a b : A) :
  (j < i)%nat -> vals !! i = Some a -> vals !! j = Some b ->
  exists pre mid post : list A,
    vals = pre ++ b :: mid ++ a :: post /\
    swap vals i j = pre ++ a :: mid ++ b :: post.
Proof.
  intros Hji Ea Eb.
  pose proof (take_drop_middle vals j b Eb) as E1.
  set (pre := take j vals) in *. set (r := drop (S j) vals) in *.
  assert (Lpre : length pre = j).
  { unfold pre. rewrite length_take. apply lookup_lt_Some in Eb. lia. }
  assert (Er : r !! (i - j - 1)%nat = Some a).
  { unfold r. rewrite lookup_drop. rewrite <- Ea. f_equal. lia. }
  pose proof (take_drop_middle r (i - j - 1) a Er) as E2.
  set (mid := take (i - j - 1) r) in *. set (post := drop (S (i - j - 1)) r) in *.
  assert (Lmid : length mid = (i - j - 1)%nat).
  { unfold mid. rewrite length_take. apply lookup_lt_Some in Er. lia. }
  exists pre, mid, post. rewrite <- E2 in E1. split; [now symmetry|].
  unfold swap. rewrite Ea, Eb. rewrite <- E1.
  rewrite (insert_app_r_alt pre _ i) by lia.
  replace (i - length pre)%nat with (S (length mid)) by lia.
  cbn [insert list_insert]. fold (@insert nat A (list A) _).
  rewrite (insert_app_r_alt mid _ (length mid)) by lia.
  rewrite Nat.sub_diag. cbn [insert list_insert].
  rewrite (insert_app_r_alt pre _ j) by lia.
  rewrite Lpre, Nat.sub_diag. reflexivity.
Qed.

Lemma swaps_perm (choose : nat -> nat) (idx : list nat) :
  forall vals : list A,
    Permutation (fold_left (fun v i => swap v i (choose i)) idx vals) vals.
Proof.
  induction idx as [|i idx IH]; intros vals; [reflexivity|].
  cbn [fold_left]. rewrite IH. apply swap_perm.
Qed.

(** An exchange commutes with every relabelling of the rows. *)
Lemma swap_fmap {B : Type} (f : A -> B) (vals : list A) (i j : nat) :
  f <$> swap vals i j = swap (f <$> vals) i j.
Proof.
  unfold swap. rewrite !list_lookup_fmap.
  destruct (vals !! i) as [a|]; [|reflexivity].
  destruct (vals !! j) as [b|]; [|reflexivity].
  cbn [fmap option_fmap option_map]. now rewrite !list_fmap_insert.
Qed.

Variable random : nat -> nat.

Lemma pick_lt (k i : nat) : (0 < i)%nat -> (pick random k i < i)%nat.
Proof. destruct i; [lia|]. intros _. cbn [pick]. apply Nat.mod_upper_bound. lia. Qed.

Lemma shuffle_perm (calls : nat) (vals : list A) :
  Permutation (shuffle random calls vals) vals.
Proof.
  unfold shuffle.
  apply (swaps_perm (fun i => pick random (calls + i) i)).
Qed.

Lemma shuffle_fmap {B : Type} (f : A -> B) (calls : nat) (vals : list A) :
  f <$> shuffle random calls vals = shuffle random calls (f <$> vals).
Proof.
  unfold shuffle. rewrite length_fmap.
  generalize (seq 0 (length vals)) as idx. intros idx. revert vals.
  induction idx as [|i idx IH]; intros vals; [reflexivity|].
  cbn [fold_left]. now rewrite IH, swap_fmap.
Qed.

(** One run of the shuffling loop on three rows: row 0 stays, rows 0 and
    1 are exchanged, and row 2 is exchanged with row 0 or row 1.  Either
    way the three rows are rotated. *)
Lemma shuffle_three (calls : nat) (x y z : A) :
  shuffle random calls [x; y; z] = [z; x; y] \/
  shuffle random calls [x; y; z] = [y; z; x].
Proof.
  unfold shuffle. cbn [length seq fold_left].
  assert (E0 : pick random (calls + 0) 0 = 0%nat) by reflexivity.
  assert (E1 : pick random (calls + 1) 1 = 0%nat).
  { unfold pick. destruct (random (calls + 1)%nat); reflexivity. }
  assert (E2 : pick random (calls + 2) 2 = 0%nat \/ pick random (calls + 2) 2 = 1%nat).
  { unfold pick. pose proof (Nat.mod_upper_bound (random (calls + 2)%nat) 2). lia. }
  rewrite E0, E1. destruct E2 as [-> | ->]; [left | right]; reflexivity.
Qed.

End Exchanges.

(** *** The strategies on keyed rows *)

Section Sorting.
Import SortLastCol.
Import NumericSort.

Lemma leRow_true (a b : row) : leRow a b = true <-> rowLe a b.
Proof. apply Qle_bool_iff. Qed.

Lemma leRow_false (a b : row) :
  leRow a b = false -> (lastCol b < lastCol a)%Q.
Proof.
  intros Hf. apply Qnot_le_lt. intros Hle.
  apply leRow_true in Hle. congruence.
Qed.

Lemma rowLe_trans (a b c : row) : rowLe a b -> rowLe b c -> rowLe a c.
Proof. unfold rowLe. apply Qle_trans. Qed.

Lemma hasKey_above (k : Q) (a : row) (l : list row) :
  (k < lastCol a)%Q -> Forall (rowLe a) l -> List.filter (hasKey k) (a :: l) = [].
Proof.
  intros Hk Hl.
  assert (Hno : forall r, (k < lastCol r)%Q -> hasKey k r = false).
  { intros r Hr. unfold hasKey. destruct (Qeq_bool (lastCol r) k) eqn:E; [|reflexivity].
    apply Qeq_bool_iff in E. rewrite E in Hr. now apply Qlt_irrefl in Hr. }
  simpl. rewrite (Hno a Hk).
  induction Hl as [|r l Hr _ IH]; [reflexivity|].
  simpl. rewrite (Hno r); [exact IH|].
  eapply Qlt_le_trans; [exact Hk | exact Hr].
Qed.

Lemma merge_cons (a b : row) (left right : list row) :
  merge (a :: left) (b :: right) =
  if leRow a b then a :: merge left (b :: right)
  else b :: merge (a :: left) right.
Proof. reflexivity. Qed.

Lemma merge_nil_r (left : list row) : merge left [] = left.
Proof. now destruct left. Qed.

Lemma merge_nil_l (right : list row) : merge [] right = right.
Proof. now destruct right. Qed.

Lemma merge_perm (left : list row) :
  forall right, Permutation (merge left right) (left ++ right).
Proof.
  induction left as [|a left IHl]; intros right; [now rewrite merge_nil_l|].
  induction right as [|b right IHr].
  - rewrite merge_nil_r, app_nil_r. reflexivity.
  - rewrite merge_cons. destruct (leRow a b).
    + simpl. constructor. apply IHl.
    + rewrite IHr. apply (Permutation_middle (a :: left) right b).
Qed.

Lemma merge_ascending (left : list row) :
  forall right, ascending left -> ascending right -> ascending (merge left right).
Proof.
  unfold ascending.
  induction left as [|a left IHl]; intros right Hl Hr; [now rewrite merge_nil_l|].
  induction right as [|b right IHr]; [now rewrite merge_nil_r|].
  apply StronglySorted_inv in Hl as [Hl Ha].
  apply StronglySorted_inv in Hr as [Hr Hb].
  rewrite merge_cons. destruct (leRow a b) eqn:E.
  - apply leRow_true in E. constructor.
    + apply IHl; [exact Hl | now constructor].
    + rewrite merge_perm. apply Forall_app. split; [exact Ha|].
      constructor; [exact E|].
      eapply List.Forall_impl; [|exact Hb]. intros r. now apply rowLe_trans.
  - apply leRow_false in E. constructor.
    + apply IHr. exact Hr.
    + rewrite merge_perm. apply Forall_app. split; [|exact Hb].
      assert (Hba : rowLe b a) by now apply Qlt_le_weak.
      constructor; [exact Hba|].
      eapply List.Forall_impl; [|exact Ha]. intros r. now apply rowLe_trans.
Qed.

(** [merge] takes from the left half on a tie, so the rows of one key keep
    their order: those of the left half, then those of the right half. *)
Lemma merge_filter (k : Q) (left : list row) :
  forall right, ascending left ->
    List.filter (hasKey k) (merge left right) =
    List.filter (hasKey k) left ++ List.filter (hasKey k) right.
Proof.
  unfold ascending.
  induction left as [|a left IHl]; intros right Hl; [now rewrite merge_nil_l|].
  induction right as [|b right IHr].
  - now rewrite merge_nil_r, app_nil_r.
  - pose proof Hl as Hl0. apply StronglySorted_inv in Hl as [Hl Ha].
    rewrite merge_cons. destruct (leRow a b) eqn:E.
    + simpl. rewrite (IHl _ Hl). simpl. now destruct (hasKey k a).
    + apply leRow_false in E.
      change (List.filter (hasKey k) (b :: merge (a :: left) right)) with
        (if hasKey k b then b :: List.filter (hasKey k) (merge (a :: left) right)
         else List.filter (hasKey k) (merge (a :: left) right)).
      rewrite IHr.
      change (List.filter (hasKey k) (b :: right)) with
        (if hasKey k b then b :: List.filter (hasKey k) right
         else List.filter (hasKey k) right).
      destruct (hasKey k b) eqn:Eb; [|reflexivity].
      apply Qeq_bool_iff in Eb.
      rewrite (hasKey_above k a left); [reflexivity | now rewrite <- Eb | exact Ha].
Qed.

Lemma mergeSortDepth_correct (fuel : nat) :
  forall vals, (length vals <= fuel)%nat ->
    ascending (mergeSortDepth fuel vals) /\
    stable vals (mergeSortDepth fuel vals) /\
    Permutation (mergeSortDepth fuel vals) vals.
Proof.
  induction fuel as [|fuel IH]; intros vals Hlen.
  - destruct vals; [|simpl in Hlen; lia].
    repeat split; [constructor | reflexivity].
  - cbn [mergeSortDepth].
    destruct (Nat.ltb_spec (length vals) 2) as [Hsmall|Hbig].
    + repeat split; try reflexivity.
      destruct vals as [|a [|b vals]]; [constructor | | simpl in Hsmall; lia].
      repeat constructor.
    + set (mid := (length vals / 2)%nat).
      assert (Hmid : (0 < mid < length vals)%nat).
      { unfold mid. split.
        - apply Nat.div_str_pos. lia.
        - apply Nat.div_lt; lia. }
      destruct (IH (firstn mid vals)) as (Hs1 & Hst1 & Hp1);
        [rewrite length_take; lia|].
      destruct (IH (skipn mid vals)) as (Hs2 & Hst2 & Hp2);
        [rewrite length_drop; lia|].
      split; [now apply merge_ascending|]. split.
      * intros k. rewrite merge_filter by assumption.
        rewrite Hst1, Hst2, <- List.filter_app, firstn_skipn. reflexivity.
      * rewrite merge_perm, Hp1, Hp2, firstn_skipn. reflexivity.
Qed.

Lemma mergeSort_correct (vals : list row) :
  ascending (mergeSort vals) /\ stable vals (mergeSort vals) /\
  Permutation (mergeSort vals) vals.
Proof. apply mergeSortDepth_correct. apply Nat.le_refl. Qed.

(** *** bubbleSort *)

Lemma bubbleStep_middle (pre : list row) (a b : row) (t : list row) :
  bubbleStep (pre ++ a :: b :: t) (length pre) =
  pre ++ (if gtRow a b then b :: a :: t else a :: b :: t).
Proof.
  unfold bubbleStep, swap.
  assert (Ea : (pre ++ a :: b :: t) !! length pre = Some a)
    by now apply list_lookup_middle.
  assert (Eb : (pre ++ a :: b :: t) !! (length pre + 1)%nat = Some b).
  { rewrite lookup_app_r by lia.
    replace (length pre + 1 - length pre)%nat with 1%nat by lia. reflexivity. }
  rewrite Ea, Eb. destruct (gtRow a b); [|reflexivity].
  rewrite insert_app_r_alt by lia. rewrite Nat.sub_diag. cbn [insert list_insert].
  rewrite insert_app_r_alt by lia.
  replace (length pre + 1 - length pre)%nat with 1%nat by lia. reflexivity.
Qed.

Lemma bubbleStep_short (vals : list row) (j : nat) :
  (length vals <= j + 1)%nat -> bubbleStep vals j = vals.
Proof.
  intros Hj. unfold bubbleStep.
  rewrite (lookup_ge_None_2 vals (j + 1)) by lia.
  now destruct (vals !! j).
Qed.

Lemma bubbleSteps_short (m : nat) :
  forall (s : nat) (vals : list row),
    (length vals <= s + 1)%nat -> fold_left bubbleStep (seq s m) vals = vals.
Proof.
  induction m as [|m IH]; intros s vals Hs; [reflexivity|].
  cbn [seq fold_left]. rewrite bubbleStep_short by lia. apply IH. lia.
Qed.

Lemma bubbleSteps_bubbleUp (m : nat) :
  forall pre l : list row,
    fold_left bubbleStep (seq (length pre) m) (pre ++ l) = pre ++ bubbleUp m l.
Proof.
  induction m as [|m IH]; intros pre l; [now destruct l|].
  cbn [seq fold_left].
  destruct l as [|a [|b t]].
  - rewrite bubbleStep_short, bubbleSteps_short; rewrite ?app_nil_r; trivial; lia.
  - rewrite bubbleStep_short, bubbleSteps_short; rewrite ?length_app; simpl; trivial; lia.
  - rewrite bubbleStep_middle. cbn [bubbleUp].
    destruct (gtRow a b).
    + specialize (IH (pre ++ [b]) (a :: t)).
      rewrite length_app, Nat.add_1_r, <- !app_assoc in IH. exact IH.
    + specialize (IH (pre ++ [a]) (b :: t)).
      rewrite length_app, Nat.add_1_r, <- !app_assoc in IH. exact IH.
Qed.

Lemma bubblePass_bubbleUp (n : nat) (vals : list row) (i : nat) :
  bubblePass n vals i = bubbleUp (n - i - 1) vals.
Proof. exact (bubbleSteps_bubbleUp (n - i - 1) [] vals). Qed.

Lemma gtRow_true (a b : row) : gtRow a b = true -> (lastCol b < lastCol a)%Q.
Proof.
  unfold gtRow. intros Hg. apply negb_true_iff in Hg. now apply leRow_false.
Qed.

Lemma gtRow_false (a b : row) : gtRow a b = false -> rowLe a b.
Proof.
  unfold gtRow. intros Hg. apply negb_false_iff in Hg. now apply leRow_true.
Qed.

Lemma bubbleUp_perm (m : nat) :
  forall l, Permutation (bubbleUp m l) l.
Proof.
  induction m as [|m IH]; intros l; [now destruct l|].
  destruct l as [|a [|b t]]; try reflexivity.
  cbn [bubbleUp]. destruct (gtRow a b).
  - rewrite IH. apply perm_swap.
  - now rewrite IH.
Qed.

(** A swap exchanges two rows of different keys, so it moves no row past
    another one of its own key. *)
Lemma bubbleUp_stable (m : nat) :
  forall l, stable l (bubbleUp m l).
Proof.
  induction m as [|m IH]; intros l k; [now destruct l|].
  destruct l as [|a [|b t]]; try reflexivity.
  cbn [bubbleUp]. destruct (gtRow a b) eqn:E.
  - cbn [List.filter]. rewrite (IH (a :: t) k). cbn [List.filter].
    destruct (hasKey k b) eqn:Eb, (hasKey k a) eqn:Ea; try reflexivity.
    apply gtRow_true in E. apply Qeq_bool_iff in Ea, Eb.
    rewrite Ea, Eb in E. now apply Qlt_irrefl in E.
  - cbn [List.filter]. now rewrite (IH (b :: t) k).
Qed.

(** After a pass over [a :: front], the last of these rows is their
    maximum; the rows behind are not touched. *)
Lemma bubbleUp_max (m : nat) :
  forall (a : row) (front back : list row),
    length front = m ->
    exists (front' : list row) (mx : row),
      bubbleUp m (a :: front ++ back) = front' ++ mx :: back /\
      Permutation (front' ++ [mx]) (a :: front) /\
      Forall (fun r => rowLe r mx) (a :: front).
Proof.
  induction m as [|m IH]; intros a front back Hlen.
  - destruct front; [|discriminate]. exists [], a.
    repeat split; try reflexivity. repeat constructor. apply Qle_refl.
  - destruct front as [|b front]; [discriminate|]. injection Hlen as Hlen.
    cbn [bubbleUp app]. destruct (gtRow a b) eqn:E.
    + destruct (IH a front back Hlen) as (f' & mx & Hb & Hp & Hmx).
      exists (b :: f'), mx. rewrite Hb. split; [reflexivity|]. split.
      * cbn [app]. rewrite Hp. apply perm_swap.
      * apply Forall_cons in Hmx as [Ha Hf].
        constructor; [exact Ha|]. constructor; [|exact Hf].
        apply gtRow_true in E. eapply rowLe_trans; [|exact Ha].
        now apply Qlt_le_weak.
    + destruct (IH b front back Hlen) as (f' & mx & Hb & Hp & Hmx).
      exists (a :: f'), mx. rewrite Hb. split; [reflexivity|]. split.
      * cbn [app]. now rewrite Hp.
      * constructor; [|exact Hmx].
        apply Forall_cons in Hmx as [Hbm _].
        eapply rowLe_trans; [|exact Hbm]. now apply gtRow_false.
Qed.

(** What [i] passes of the outer loop have established: the last [i] rows
    are in order and no row before them is larger. *)
Definition bubbled (i : nat) (l : list row) : Prop :=
  exists front back : list row,
    l = front ++ back /\ length back = i /\ ascending back /\
    Forall (fun x => Forall (rowLe x) back) front.

Lemma bubbled_pass (n i : nat) (l : list row) :
  length l = n -> (i + 1 < n)%nat -> bubbled i l -> bubbled (S i) (bubblePass n l i).
Proof.
  intros Hn Hi (front & back & -> & Hlen & Hasc & Hle).
  rewrite length_app in Hn.
  destruct front as [|a front]; [simpl in Hn; lia|].
  rewrite bubblePass_bubbleUp.
  destruct (bubbleUp_max (n - i - 1) a front back) as (f' & mx & Hb & Hp & Hmx);
    [simpl in Hn; lia|].
  cbn [app]. rewrite Hb. exists f', (mx :: back).
  split; [reflexivity|]. split; [simpl; lia|].
  assert (Hin : forall x, In x (f' ++ [mx]) -> Forall (rowLe x) back /\ rowLe x mx).
  { intros x Hx. apply (Permutation_in _ Hp) in Hx.
    rewrite List.Forall_forall in Hle, Hmx. auto. }
  split.
  - constructor; [exact Hasc|]. apply Hin, in_or_app. right. now left.
  - apply List.Forall_forall. intros x Hx.
    destruct (Hin x) as [Hxb Hxm]; [apply in_or_app; now left|].
    now constructor.
Qed.

Lemma bubbleSort_passes (n k : nat) :
  forall (i : nat) (l : list row),
    length l = n -> (i + k + 1 <= n)%nat -> bubbled i l ->
    bubbled (i + k) (fold_left (bubblePass n) (seq i k) l) /\
    stable l (fold_left (bubblePass n) (seq i k) l) /\
    Permutation (fold_left (bubblePass n) (seq i k) l) l.
Proof.
  induction k as [|k IH]; intros i l Hn Hk Hb.
  - rewrite Nat.add_0_r. repeat split; [exact Hb | reflexivity].
  - cbn [seq fold_left].
    assert (Hperm : Permutation (bubblePass n l i) l)
      by (rewrite bubblePass_bubbleUp; apply bubbleUp_perm).
    destruct (IH (S i) (bubblePass n l i)) as (Hb' & Hs' & Hp').
    + now rewrite (Permutation_length Hperm).
    + lia.
    + apply bubbled_pass; [assumption | lia | assumption].
    + replace (i + S k)%nat with (S i + k)%nat by lia.
      split; [exact Hb'|]. split.
      * intros key. rewrite Hs', bubblePass_bubbleUp. apply bubbleUp_stable.
      * now rewrite Hp'.
Qed.

Lemma bubbled_all (n : nat) (l : list row) :
  length l = n -> bubbled (n - 1) l -> ascending l.
Proof.
  intros Hn (front & back & -> & Hlen & Hasc & Hle).
  rewrite length_app in Hn.
  destruct front as [|a [|b front]].
  - exact Hasc.
  - apply Forall_cons in Hle as [Ha _]. now constructor.
  - simpl in Hn. lia.
Qed.

Lemma bubbleSort_correct (vals : list row) :
  ascending (bubbleSort vals) /\ stable vals (bubbleSort vals) /\
  Permutation (bubbleSort vals) vals.
Proof.
  unfold bubbleSort.
  destruct vals as [|a vals]; [repeat split; [constructor | reflexivity]|].
  set (l := a :: vals). set (n := length l).
  destruct (bubbleSort_passes n (n - 1) 0 l) as (Hb & Hs & Hp).
  - reflexivity.
  - unfold n, l. simpl. lia.
  - exists l, []. rewrite app_nil_r.
    split; [reflexivity|]. split; [reflexivity|]. split; [constructor|].
    apply List.Forall_forall. intros; constructor.
  - split; [|split; assumption].
    apply (bubbled_all n); [now rewrite (Permutation_length Hp) | exact Hb].
Qed.

(** *** selectionSort *)

Lemma ltRow_true (a b : row) : ltRow a b = true -> (lastCol a < lastCol b)%Q.
Proof.
  unfold ltRow. intros Hl. apply negb_true_iff in Hl.
  apply Qnot_le_lt. intros Hle. apply Qle_bool_iff in Hle. congruence.
Qed.

Lemma ltRow_false (a b : row) : ltRow a b = false -> rowLe b a.
Proof.
  unfold ltRow. intros Hl. apply negb_false_iff in Hl. now apply Qle_bool_iff.
Qed.

(** The inner loop leaves in [min] the index of a smallest row among
    [vals[i..n-1]]. *)
Lemma minSteps_spec (vals : list row) (i k : nat) :
  forall s m0 : nat,
    (i <= m0 < s)%nat -> (s + k)%nat = length vals ->
    (forall j a b, (i <= j < s)%nat ->
       vals !! m0 = Some a -> vals !! j = Some b -> rowLe a b) ->
    let m := fold_left (minStep vals) (seq s k) m0 in
    (i <= m < length vals)%nat /\
    forall j a b, (i <= j < length vals)%nat ->
      vals !! m = Some a -> vals !! j = Some b -> rowLe a b.
Proof.
  induction k as [|k IH]; intros s m0 Hm0 Hs Hmin; cbn [seq fold_left].
  - rewrite Nat.add_0_r in Hs. subst s. split; [lia | exact Hmin].
  - destruct (lookup_lt_is_Some_2 vals s) as [a Ea]; [lia|].
    destruct (lookup_lt_is_Some_2 vals m0) as [b Eb]; [lia|].
    assert (Estep : minStep vals m0 s = if ltRow a b then s else m0)
      by (unfold minStep; now rewrite Ea, Eb).
    rewrite Estep. destruct (ltRow a b) eqn:E.
    + apply ltRow_true in E. apply IH; [lia | lia |].
      intros j a' b' Hj Ha' Hb'. rewrite Ea in Ha'. injection Ha' as <-.
      destruct (Nat.eq_dec j s) as [->|Hne].
      * rewrite Ea in Hb'. injection Hb' as <-. apply Qle_refl.
      * eapply rowLe_trans; [apply Qlt_le_weak; exact E|].
        apply (Hmin j b b'); [lia | exact Eb | exact Hb'].
    + apply ltRow_false in E. apply IH; [lia | lia |].
      intros j a' b' Hj Ha' Hb'. rewrite Eb in Ha'. injection Ha' as <-.
      destruct (Nat.eq_dec j s) as [->|Hne].
      * rewrite Ea in Hb'. injection Hb' as <-. exact E.
      * apply (Hmin j b b'); [lia | exact Eb | exact Hb'].
Qed.

Lemma minIndex_spec (vals : list row) (i : nat) :
  (i < length vals)%nat ->
  let m := minIndex (length vals) vals i in
  (i <= m < length vals)%nat /\
  forall j a b, (i <= j < length vals)%nat ->
    vals !! m = Some a -> vals !! j = Some b -> rowLe a b.
Proof.
  intros Hi. unfold minIndex.
  apply minSteps_spec; [lia | lia |].
  intros j a b Hj Ha Hb. replace j with i in Hb by lia.
  rewrite Ha in Hb. injection Hb as <-. apply Qle_refl.
Qed.

Lemma ascending_snoc (front : list row) (m : row) :
  ascending front -> Forall (fun x => rowLe x m) front -> ascending (front ++ [m]).
Proof.
  unfold ascending. induction 1 as [|a front Hs IH Ha]; intros Hm.
  - repeat constructor.
  - apply Forall_cons in Hm as [Ham Hm]. cbn [app]. constructor; [now apply IH|].
    apply Forall_app. split; [exact Ha | now constructor].
Qed.

(** What [i] rounds of the outer loop have established: the first [i] rows
    are in order and no row behind them is smaller. *)
Definition selected (i : nat) (l : list row) : Prop :=
  exists front rest : list row,
    l = front ++ rest /\ length front = i /\ ascending front /\
    Forall (fun x => Forall (rowLe x) rest) front.

Lemma selected_step (n i : nat) (l : list row) :
  length l = n -> (i < n)%nat -> selected i l ->
  selected (S i) (selectionStep n l i) /\ Permutation (selectionStep n l i) l.
Proof.
  intros Hn Hi (front & rest & -> & Hlen & Hasc & Hle).
  unfold selectionStep. subst n.
  destruct (minIndex_spec (front ++ rest) i Hi) as [Hm Hmin].
  set (m := minIndex (length (front ++ rest)) (front ++ rest) i) in *.
  split; [|apply swap_perm].
  rewrite length_app in Hi, Hm.
  rewrite swap_app_r by lia. rewrite Hlen, Nat.sub_diag.
  destruct (lookup_lt_is_Some_2 rest (m - i)) as [mn Emn]; [lia|].
  destruct rest as [|r0 rest]; [simpl in Hi; lia|].
  assert (Hperm : Permutation (swap (r0 :: rest) (m - i) 0) (r0 :: rest))
    by apply swap_perm.
  assert (Hsw : exists tl, swap (r0 :: rest) (m - i) 0 = mn :: tl).
  { unfold swap. rewrite Emn. cbn [lookup list_lookup].
    destruct (<[(m - i)%nat := r0]> (r0 :: rest)) as [|x tl] eqn:Ex.
    - apply (f_equal length) in Ex. rewrite length_insert in Ex. discriminate.
    - exists tl. reflexivity. }
  destruct Hsw as [tl Hsw]. rewrite Hsw in Hperm |- *.
  assert (Hall : Forall (rowLe mn) (r0 :: rest)).
  { apply List.Forall_forall. intros y Hy.
    apply list_elem_of_In, list_elem_of_lookup_1 in Hy as [j Ej].
    apply (Hmin (i + j)%nat mn y).
    - apply lookup_lt_Some in Ej. rewrite length_app. lia.
    - rewrite lookup_app_r by lia. now rewrite Hlen.
    - rewrite lookup_app_r by lia. now replace (i + j - length front)%nat with j by lia. }
  assert (Hmn : In mn (r0 :: rest)).
  { apply (Permutation_in _ Hperm). now left. }
  assert (Htl : forall y, In y tl -> In y (r0 :: rest)).
  { intros y Hy. apply (Permutation_in _ Hperm). now right. }
  exists (front ++ [mn]), tl.
  split; [now rewrite <- app_assoc|].
  split; [rewrite length_app; simpl; lia|].
  rewrite List.Forall_forall in Hle, Hall.
  split.
  - apply ascending_snoc; [exact Hasc|].
    apply List.Forall_forall. intros x Hx.
    specialize (Hle x Hx). rewrite List.Forall_forall in Hle. now apply Hle.
  - apply List.Forall_forall. intros x Hx. apply List.Forall_forall. intros y Hy.
    apply in_app_or in Hx as [Hx|[<-|[]]].
    + specialize (Hle x Hx). rewrite List.Forall_forall in Hle. apply Hle. now apply Htl.
    + apply Hall. now apply Htl.
Qed.

Lemma selectionSort_rounds (n k : nat) :
  forall (i : nat) (l : list row),
    length l = n -> (i + k <= n)%nat -> selected i l ->
    selected (i + k) (fold_left (selectionStep n) (seq i k) l) /\
    Permutation (fold_left (selectionStep n) (seq i k) l) l.
Proof.
  induction k as [|k IH]; intros i l Hn Hk Hs.
  - rewrite Nat.add_0_r. split; [exact Hs | reflexivity].
  - cbn [seq fold_left].
    destruct (selected_step n i l Hn) as [Hs' Hp']; [lia | exact Hs |].
    destruct (IH (S i) (selectionStep n l i)) as [Hs2 Hp2];
      [now rewrite (Permutation_length Hp') | lia | exact Hs'|].
    replace (i + S k)%nat with (S i + k)%nat by lia.
    split; [exact Hs2 | now rewrite Hp2].
Qed.

Lemma selectionSort_correct (vals : list row) :
  ascending (selectionSort vals) /\ Permutation (selectionSort vals) vals.
Proof.
  unfold selectionSort. set (n := length vals).
  destruct (selectionSort_rounds n (n - 1) 0 vals) as [Hs Hp].
  - reflexivity.
  - lia.
  - exists [], vals. repeat split; constructor.
  - split; [|exact Hp].
    destruct Hs as (front & rest & E & Hlen & Hasc & Hle).
    assert (Hl : length (front ++ rest) = n)
      by (rewrite <- E; apply (Permutation_length Hp)).
    rewrite E. rewrite length_app in Hl. simpl in Hlen.
    destruct rest as [|z [|z' rest]].
    + now rewrite app_nil_r.
    + apply ascending_snoc; [exact Hasc|].
      eapply List.Forall_impl; [|exact Hle]. intros x Hx.
      now apply Forall_cons in Hx as [Hx _].
    + simpl in Hl. lia.
Qed.

(** *** bogoSort *)

Lemma inOrder_adjacent (vals : list row) (i : nat) (a b : row) :
  inOrder vals (S i) = true ->
  vals !! i = Some b -> vals !! S i = Some a -> rowLe b a.
Proof.
  unfold inOrder. cbn [Nat.sub]. rewrite Nat.sub_0_r.
  intros Ho Eb Ea. rewrite Ea, Eb in Ho.
  apply negb_true_iff in Ho. now apply ltRow_false.
Qed.

Lemma adjacent_ascending (vals : list row) :
  (forall i a b, vals !! i = Some b -> vals !! S i = Some a -> rowLe b a) ->
  ascending vals.
Proof.
  intros Hadj. apply Sorted_StronglySorted.
  { intros x y z. apply rowLe_trans. }
  induction vals as [|x vals IH]; [constructor|].
  constructor.
  - apply IH. intros i a b Eb Ea. exact (Hadj (S i) a b Eb Ea).
  - destruct vals as [|y vals]; constructor.
    exact (Hadj 0%nat y x eq_refl eq_refl).
Qed.

Lemma isSorted_ascending (vals : list row) :
  isSorted vals = true -> ascending vals.
Proof.
  unfold isSorted. rewrite forallb_forall. intros Hall.
  apply adjacent_ascending. intros i a b Eb Ea.
  apply (inOrder_adjacent vals i a b); [|exact Eb | exact Ea].
  apply Hall, in_seq. apply lookup_lt_Some in Ea. lia.
Qed.

Section Bogo.
Variable random : nat -> nat.

Lemma bogoLoop_correct (fuel : nat) :
  forall (calls : nat) (vals out : list row),
    bogoLoop random fuel calls vals = Some out ->
    ascending out /\ Permutation out vals.
Proof.
  induction fuel as [|fuel IH]; intros calls vals out; [discriminate|].
  cbn [bogoLoop]. destruct (isSorted vals) eqn:E.
  - intros [= <-]. split; [now apply isSorted_ascending | reflexivity].
  - intros Hout. apply IH in Hout as [Hasc Hperm].
    split; [exact Hasc|]. rewrite Hperm. apply shuffle_perm.
Qed.

End Bogo.

End Sorting.

(** ** The strategies on last columns that are numbers

    On an array without [NaN] in the last column every comparison the
    strategies make is the comparison of two rationals, the places of the
    two last columns; so each strategy does to the array what its
    counterpart of [NumericSort] does to the rows with their places as
    keys. *)

Section Agreement.
Import SortLastCol.

Lemma rank_finite (q : Q) :
  (rank (Finite q) * (1 + Qabs q) == q)%Q /\ (0 < 1 + Qabs q)%Q.
Proof.
  assert (H : (0 < 1 + Qabs q)%Q) by (pose proof (Qabs_nonneg q); lra).
  split; [|exact H]. cbn [rank]. field. lra.
Qed.

Lemma Qabs_cases (q : Q) :
  ((0 <= q)%Q /\ (Qabs q == q)%Q) \/ ((q <= 0)%Q /\ (Qabs q == - q)%Q).
Proof.
  destruct (Qlt_le_dec q 0); [right | left]; split; try lra.
  - apply Qabs_neg. lra.
  - now apply Qabs_pos.
Qed.

Lemma sign_of_product (d n c : Q) :
  (0 < d)%Q -> (c * d == n)%Q -> ((0 <= n)%Q <-> (0 <= c)%Q).
Proof.
  intros Hd E. split; intros H.
  - destruct (Qlt_le_dec c 0) as [Hc|Hc]; [|exact Hc]. exfalso.
    assert ((c * d < 0)%Q) by nra. lra.
  - rewrite <- E. apply Qmult_le_0_compat; lra.
Qed.

(** The places of the finite numbers are in the order of the numbers, and
    strictly between the places of the infinities. *)
Lemma rank_finite_le (p q : Q) :
  (p <= q)%Q <-> (rank (Finite p) <= rank (Finite q))%Q.
Proof.
  destruct (rank_finite p) as [Ep Hp]. destruct (rank_finite q) as [Eq Hq].
  pose proof (Qabs_cases p) as Ap. pose proof (Qabs_cases q) as Aq.
  set (a := rank (Finite p)) in *. set (b := rank (Finite q)) in *.
  set (x := Qabs p) in *. set (y := Qabs q) in *.
  assert (Hd : (0 < (1 + x) * (1 + y))%Q) by (apply Qmult_lt_0_compat; assumption).
  assert (E : ((b - a) * ((1 + x) * (1 + y)) == q * (1 + x) - p * (1 + y))%Q).
  { rewrite <- Ep, <- Eq. ring. }
  pose proof (sign_of_product _ _ _ Hd E) as S.
  assert (T : (p <= q)%Q <-> (0 <= q * (1 + x) - p * (1 + y))%Q).
  { destruct Ap as [[Hp0 Ex]|[Hp0 Ex]], Aq as [[Hq0 Ey]|[Hq0 Ey]]; rewrite Ex, Ey;
      split; intros H; nra. }
  rewrite T, S. split; intros H; lra.
Qed.

Lemma rank_finite_bound (q : Q) : (-1 < rank (Finite q))%Q /\ (rank (Finite q) < 1)%Q.
Proof.
  destruct (rank_finite q) as [Eq Hq]. pose proof (Qabs_cases q) as Aq.
  set (b := rank (Finite q)) in *. set (y := Qabs q) in *.
  assert (E1 : ((1 - b) * (1 + y) == 1 + y - q)%Q) by (rewrite <- Eq; ring).
  assert (E2 : ((b + 1) * (1 + y) == 1 + y + q)%Q) by (rewrite <- Eq; ring).
  split.
  - destruct (Qlt_le_dec (-1) b) as [H|H]; [exact H|]. exfalso.
    assert (((b + 1) * (1 + y) <= 0)%Q) by nra.
    destruct Aq as [[Hq0 Ey]|[Hq0 Ey]]; rewrite Ey in *; lra.
  - destruct (Qlt_le_dec b 1) as [H|H]; [exact H|]. exfalso.
    assert (((1 - b) * (1 + y) <= 0)%Q) by nra.
    destruct Aq as [[Hq0 Ey]|[Hq0 Ey]]; rewrite Ey in *; lra.
Qed.

Lemma Qle_bool_true (a b : Q) : (a <= b)%Q -> Qle_bool a b = true.
Proof. apply Qle_bool_iff. Qed.

Lemma Qle_bool_false (a b : Q) : (b < a)%Q -> Qle_bool a b = false.
Proof.
  intros H. destruct (Qle_bool a b) eqn:E; [|reflexivity].
  apply Qle_bool_iff in E. lra.
Qed.

(** [x <= y], [x < y] and [x == y] on numbers that are not [NaN] are the
    comparisons of their places. *)
Lemma rank_le (x y : number) :
  isNumber x = true -> isNumber y = true -> leNumber x y = Qle_bool (rank x) (rank y).
Proof.
  destruct x as [| |p|], y as [| |q|]; try discriminate; intros _ _;
    try reflexivity; cbn [leNumber];
    try (pose proof (rank_finite_bound p) as [Lp Up]);
    try (pose proof (rank_finite_bound q) as [Lq Uq]).
  - symmetry. apply Qle_bool_true. change (rank NegInfinity) with (-1)%Q. lra.
  - symmetry. apply Qle_bool_false. change (rank NegInfinity) with (-1)%Q. lra.
  - apply eq_true_iff_eq. rewrite !Qle_bool_iff. apply rank_finite_le.
  - symmetry. apply Qle_bool_true. change (rank Infinity) with 1%Q. lra.
  - symmetry. apply Qle_bool_false. change (rank Infinity) with 1%Q. lra.
Qed.

Lemma ltNumber_leNumber (x y : number) :
  isNumber x = true -> isNumber y = true -> ltNumber x y = negb (leNumber y x).
Proof. destruct x, y; try discriminate; reflexivity. Qed.

Lemma rank_lt (x y : number) :
  isNumber x = true -> isNumber y = true ->
  ltNumber x y = negb (Qle_bool (rank y) (rank x)).
Proof. intros Hx Hy. now rewrite ltNumber_leNumber, rank_le. Qed.

Lemma eqNumber_leNumber (x y : number) :
  isNumber x = true -> isNumber y = true ->
  eqNumber x y = leNumber x y && leNumber y x.
Proof.
  destruct x as [| |p|], y as [| |q|]; try discriminate; intros _ _; try reflexivity.
  cbn [eqNumber leNumber]. apply eq_true_iff_eq.
  rewrite andb_true_iff, !Qle_bool_iff, Qeq_bool_iff. split.
  - intros E. rewrite E. split; apply Qle_refl.
  - intros [H1 H2]. now apply Qle_antisym.
Qed.

Lemma rank_eq (x y : number) :
  isNumber x = true -> isNumber y = true -> eqNumber x y = Qeq_bool (rank x) (rank y).
Proof.
  intros Hx Hy. rewrite eqNumber_leNumber, !rank_le by assumption.
  apply eq_true_iff_eq. rewrite andb_true_iff, !Qle_bool_iff, Qeq_bool_iff. split.
  - intros [H1 H2]. now apply Qle_antisym.
  - intros E. rewrite E. split; apply Qle_refl.
Qed.

Lemma eqNumber_NaN (x : number) : eqNumber x NaN = false.
Proof. now destruct x. Qed.

(** *** Rows *)

Definition numeric (r : row) : Prop := isNumber (lastCol r) = true.

Lemma numericKeys_Forall (vals : list row) :
  numericKeys vals = true <-> Forall numeric vals.
Proof.
  unfold numericKeys. rewrite forallb_forall, List.Forall_forall. reflexivity.
Qed.

Lemma leRow_tag (a b : row) :
  numeric a -> numeric b -> NumericSort.leRow (tag a) (tag b) = leRow a b.
Proof. intros Ha Hb. symmetry. now apply rank_le. Qed.

Lemma gtRow_tag (a b : row) :
  numeric a -> numeric b -> NumericSort.gtRow (tag a) (tag b) = gtRow a b.
Proof. intros Ha Hb. symmetry. now apply rank_lt. Qed.

Lemma ltRow_tag (a b : row) :
  numeric a -> numeric b -> NumericSort.ltRow (tag a) (tag b) = ltRow a b.
Proof. intros Ha Hb. symmetry. now apply rank_lt. Qed.

Lemma hasKey_tag (k : number) (r : row) :
  isNumber k = true -> numeric r -> NumericSort.hasKey (rank k) (tag r) = hasKey k r.
Proof. intros Hk Hr. symmetry. now apply rank_eq. Qed.

Lemma untag (l : list row) : fst <$> (tag <$> l) = l.
Proof. induction l as [|r l IH]; [reflexivity|]. cbn. now rewrite IH. Qed.

Lemma tag_inj (l1 l2 : list row) : tag <$> l1 = tag <$> l2 -> l1 = l2.
Proof. intros E. apply (f_equal (fmap fst)) in E. now rewrite !untag in E. Qed.

Lemma tag_perm (out vals : list row) :
  Permutation (tag <$> out) (tag <$> vals) -> Permutation out vals.
Proof.
  intros Hp. apply (fmap_Permutation fst) in Hp. now rewrite !untag in Hp.
Qed.

(** *** merge sort *)

Lemma merge_step (a b : row) (left right : list row) :
  merge (a :: left) (b :: right) =
  if leRow a b then a :: merge left (b :: right)
  else b :: merge (a :: left) right.
Proof. reflexivity. Qed.

Lemma merge_tag (left : list row) :
  forall right, Forall numeric left -> Forall numeric right ->
    tag <$> merge left right = NumericSort.merge (tag <$> left) (tag <$> right).
Proof.
  induction left as [|a left IHl]; intros right Hl Hr; [now destruct right|].
  induction right as [|b right IHr]; [reflexivity|].
  apply Forall_cons in Hl as [Ha Hl]. apply Forall_cons in Hr as [Hb Hr].
  rewrite merge_step, !fmap_cons, merge_cons, leRow_tag by assumption.
  destruct (leRow a b); rewrite fmap_cons; f_equal.
  - rewrite IHl; [reflexivity | assumption | now constructor].
  - rewrite IHr by assumption. reflexivity.
Qed.

Lemma mergeSortDepth_tag (fuel : nat) :
  forall vals, Forall numeric vals ->
    tag <$> mergeSortDepth fuel vals = NumericSort.mergeSortDepth fuel (tag <$> vals) /\
    Permutation (mergeSortDepth fuel vals) vals.
Proof.
  induction fuel as [|fuel IH]; intros vals Hv; [now split|].
  cbn [mergeSortDepth NumericSort.mergeSortDepth]. rewrite length_fmap.
  destruct (length vals <? 2)%nat; [now split|].
  set (mid := (length vals / 2)%nat).
  destruct (IH (firstn mid vals)) as [E1 P1]; [now apply Forall_take|].
  destruct (IH (skipn mid vals)) as [E2 P2]; [now apply Forall_drop|].
  assert (H1 : Forall numeric (mergeSortDepth fuel (firstn mid vals)))
    by (rewrite P1; now apply Forall_take).
  assert (H2 : Forall numeric (mergeSortDepth fuel (skipn mid vals)))
    by (rewrite P2; now apply Forall_drop).
  assert (E : tag <$> merge (mergeSortDepth fuel (firstn mid vals))
                           (mergeSortDepth fuel (skipn mid vals)) =
              NumericSort.merge (NumericSort.mergeSortDepth fuel (firstn mid (tag <$> vals)))
                                (NumericSort.mergeSortDepth fuel (skipn mid (tag <$> vals)))).
  { rewrite merge_tag, E1, E2 by assumption.
    now rewrite <- fmap_take, <- fmap_drop. }
  split; [exact E|].
  apply tag_perm. rewrite E, merge_perm.
  rewrite <- fmap_take, <- fmap_drop, <- E1, <- E2, <- fmap_app.
  apply fmap_Permutation. rewrite P1, P2. now rewrite firstn_skipn.
Qed.

Lemma mergeSort_tag (vals : list row) :
  Forall numeric vals -> tag <$> mergeSort vals = NumericSort.mergeSort (tag <$> vals).
Proof.
  intros Hv. unfold mergeSort, NumericSort.mergeSort. rewrite length_fmap.
  now apply mergeSortDepth_tag.
Qed.

(** *** Loops of exchanges *)

Lemma steps_tag (step : list row -> nat -> list row)
    (stepQ : list NumericSort.row -> nat -> list NumericSort.row) :
  (forall l j, Forall numeric l ->
     tag <$> step l j = stepQ (tag <$> l) j /\ Permutation (step l j) l) ->
  forall idx l, Forall numeric l ->
    tag <$> fold_left step idx l = fold_left stepQ idx (tag <$> l) /\
    Permutation (fold_left step idx l) l.
Proof.
  intros Hstep. induction idx as [|j idx IH]; intros l Hl; [now split|].
  cbn [fold_left]. destruct (Hstep l j Hl) as [E P].
  destruct (IH (step l j)) as [E' P']; [now rewrite P|].
  split; [now rewrite E', E | now rewrite P'].
Qed.

Lemma bubbleStep_tag (vals : list row) (j : nat) :
  Forall numeric vals ->
  tag <$> bubbleStep vals j = NumericSort.bubbleStep (tag <$> vals) j /\
  Permutation (bubbleStep vals j) vals.
Proof.
  intros Hv. unfold bubbleStep, NumericSort.bubbleStep. rewrite !list_lookup_fmap.
  destruct (vals !! j) as [a|] eqn:Ea; [|now split].
  destruct (vals !! (j + 1)%nat) as [b|] eqn:Eb; [|now split].
  cbn [fmap option_fmap option_map].
  rewrite gtRow_tag
    by (eapply Forall_lookup_1; eassumption).
  destruct (gtRow a b); [|now split].
  split; [apply swap_fmap | apply swap_perm].
Qed.

Lemma bubbleSort_tag (vals : list row) :
  Forall numeric vals ->
  tag <$> bubbleSort vals = NumericSort.bubbleSort (tag <$> vals).
Proof.
  intros Hv. unfold bubbleSort, NumericSort.bubbleSort. rewrite length_fmap.
  apply steps_tag; [|exact Hv].
  intros l i Hl. unfold bubblePass, NumericSort.bubblePass.
  apply steps_tag; [|exact Hl]. intros l' j Hl'. now apply bubbleStep_tag.
Qed.

Lemma minStep_tag (vals : list row) (m j : nat) :
  Forall numeric vals -> NumericSort.minStep (tag <$> vals) m j = minStep vals m j.
Proof.
  intros Hv. unfold minStep, NumericSort.minStep. rewrite !list_lookup_fmap.
  destruct (vals !! j) as [a|] eqn:Ea; [|reflexivity].
  destruct (vals !! m) as [b|] eqn:Eb; [|reflexivity].
  cbn [fmap option_fmap option_map].
  now rewrite ltRow_tag by (eapply Forall_lookup_1; eassumption).
Qed.

Lemma minIndex_tag (n : nat) (vals : list row) (i : nat) :
  Forall numeric vals -> NumericSort.minIndex n (tag <$> vals) i = minIndex n vals i.
Proof.
  intros Hv. unfold minIndex, NumericSort.minIndex.
  generalize (seq (i + 1) (n - (i + 1))) as idx. intros idx.
  generalize i as m. induction idx as [|j idx IH]; intros m; [reflexivity|].
  cbn [fold_left]. now rewrite minStep_tag, IH.
Qed.

Lemma selectionSort_tag (vals : list row) :
  Forall numeric vals ->
  tag <$> selectionSort vals = NumericSort.selectionSort (tag <$> vals).
Proof.
  intros Hv. unfold selectionSort, NumericSort.selectionSort. rewrite length_fmap.
  apply steps_tag; [|exact Hv].
  intros l i Hl. unfold selectionStep, NumericSort.selectionStep.
  rewrite minIndex_tag by exact Hl. split; [apply swap_fmap | apply swap_perm].
Qed.

(** *** isSorted and bogoSort *)

Lemma isSorted_tag (vals : list row) :
  Forall numeric vals -> NumericSort.isSorted (tag <$> vals) = isSorted vals.
Proof.
  intros Hv. unfold isSorted, NumericSort.isSorted. rewrite length_fmap.
  generalize (seq 1 (length vals - 1)) as idx.
  induction idx as [|i idx IH]; [reflexivity|].
  cbn [forallb]. rewrite IH. f_equal.
  unfold inOrder, NumericSort.inOrder. rewrite !list_lookup_fmap.
  destruct (vals !! i) as [a|] eqn:Ea; [|reflexivity].
  destruct (vals !! (i - 1)%nat) as [b|] eqn:Eb; [|reflexivity].
  cbn [fmap option_fmap option_map].
  now rewrite ltRow_tag by (eapply Forall_lookup_1; eassumption).
Qed.

Lemma bogoLoop_tag (random : nat -> nat) (fuel : nat) :
  forall (calls : nat) (vals : list row),
    Forall numeric vals ->
    NumericSort.bogoLoop random fuel calls (tag <$> vals) =
    option_map (fmap tag) (bogoLoop random fuel calls vals).
Proof.
  induction fuel as [|fuel IH]; intros calls vals Hv; [reflexivity|].
  cbn [bogoLoop NumericSort.bogoLoop].
  rewrite isSorted_tag, length_fmap by exact Hv.
  destruct (isSorted vals); [reflexivity|].
  rewrite <- shuffle_fmap. apply IH.
  now rewrite shuffle_perm.
Qed.

(** *** What carries over *)

Lemma rowLe_tag (a b : row) :
  numeric a -> numeric b -> NumericSort.rowLe (tag a) (tag b) <-> rowLe a b.
Proof.
  intros Ha Hb. unfold rowLe. rewrite <- leRow_tag by assumption.
  symmetry. apply Qle_bool_iff.
Qed.

Lemma ascending_tag (vals : list row) :
  Forall numeric vals -> NumericSort.ascending (tag <$> vals) <-> ascending vals.
Proof.
  unfold ascending, NumericSort.ascending.
  induction 1 as [|a l Ha Hl IH]; [split; constructor|].
  rewrite fmap_cons. split; intros Hs; apply StronglySorted_inv in Hs as [Hs Hfa];
    (constructor; [now apply IH|]).
  - rewrite List.Forall_forall in *. intros b Hb.
    apply rowLe_tag; [assumption | now apply Hl |].
    apply Hfa. apply list_elem_of_In, list_elem_of_fmap. exists b.
    split; [reflexivity | now apply list_elem_of_In].
  - rewrite List.Forall_forall in *. intros bq Hbq.
    apply list_elem_of_In, list_elem_of_fmap in Hbq as (b & -> & Hb%list_elem_of_In).
    apply rowLe_tag; [assumption | now apply Hl | now apply Hfa].
Qed.

Lemma filter_tag (k : number) (vals : list row) :
  isNumber k = true -> Forall numeric vals ->
  List.filter (NumericSort.hasKey (rank k)) (tag <$> vals) =
  tag <$> List.filter (hasKey k) vals.
Proof.
  intros Hk. induction 1 as [|a l Ha _ IH]; [reflexivity|].
  rewrite fmap_cons. cbn [List.filter]. rewrite hasKey_tag, IH by assumption.
  now destruct (hasKey k a).
Qed.

(** No row has the last column [NaN] under [==]. *)
Lemma filter_NaN (l : list row) : List.filter (hasKey NaN) l = [].
Proof.
  induction l as [|r l IH]; [reflexivity|].
  cbn [List.filter]. unfold hasKey at 1. now rewrite eqNumber_NaN.
Qed.

Lemma stable_tag (vals out : list row) :
  Forall numeric vals -> Forall numeric out ->
  NumericSort.stable (tag <$> vals) (tag <$> out) -> stable vals out.
Proof.
  intros Hv Ho Hst k. destruct (isNumber k) eqn:Hk.
  - apply tag_inj. rewrite <- !filter_tag by assumption. apply Hst.
  - destruct k; try discriminate. now rewrite !filter_NaN.
Qed.

(** An array that agrees with a sorted array of keyed rows is sorted. *)
Lemma sorted_by_tag (vals out : list row) (outQ : list NumericSort.row) :
  Forall numeric vals -> tag <$> out = outQ ->
  NumericSort.ascending outQ /\ Permutation outQ (tag <$> vals) ->
  ascending out /\ Permutation out vals /\ Forall numeric out.
Proof.
  intros Hv <- [Hasc Hp].
  assert (P : Permutation out vals) by now apply tag_perm.
  assert (Ho : Forall numeric out) by now rewrite P.
  split; [now apply ascending_tag|]. now split.
Qed.

End Agreement.

(** C8 (amended): on an array no last column of which is [NaN],
    [mergeSort] and [bubbleSort] leave a rearrangement of the rows in
    ascending order of the last column and keep rows of equal last column
    in their original order; [selectionSort] leaves a rearrangement of the
    rows in ascending order; so does [bogoSort] whenever its loop ends. *)
Theorem sort_strategies (vals : list SortLastCol.row) :
  numericKeys vals = true ->
  (ascending (SortLastCol.mergeSort vals) /\
   Permutation (SortLastCol.mergeSort vals) vals /\
   stable vals (SortLastCol.mergeSort vals)) /\
  (ascending (SortLastCol.bubbleSort vals) /\
   Permutation (SortLastCol.bubbleSort vals) vals /\
   stable vals (SortLastCol.bubbleSort vals)) /\
  (ascending (SortLastCol.selectionSort vals) /\
   Permutation (SortLastCol.selectionSort vals) vals) /\
  (forall (random : nat -> nat) (fuel : nat) (out : list SortLastCol.row),
     SortLastCol.bogoSort random fuel vals = Some out ->
     ascending out /\ Permutation out vals).
Proof.
  intros Hn. apply numericKeys_Forall in Hn.
  pose proof (mergeSort_tag vals Hn) as Em.
  pose proof (bubbleSort_tag vals Hn) as Eb.
  pose proof (selectionSort_tag vals Hn) as Es.
  destruct (mergeSort_correct (tag <$> vals)) as (Hm1 & Hm2 & Hm3).
  destruct (bubbleSort_correct (tag <$> vals)) as (Hb1 & Hb2 & Hb3).
  destruct (sorted_by_tag vals _ _ Hn Em (conj Hm1 Hm3)) as (Am & Pm & Nm).
  destruct (sorted_by_tag vals _ _ Hn Eb (conj Hb1 Hb3)) as (Ab & Pb & Nb).
  destruct (sorted_by_tag vals _ _ Hn Es (selectionSort_correct (tag <$> vals)))
    as (As & Ps & _).
  split; [|split; [|split]].
  - split; [exact Am|]. split; [exact Pm|].
    apply stable_tag; [assumption | assumption | now rewrite Em].
  - split; [exact Ab|]. split; [exact Pb|].
    apply stable_tag; [assumption | assumption | now rewrite Eb].
  - now split.
  - intros random fuel out Hout. unfold SortLastCol.bogoSort in Hout.
    pose proof (bogoLoop_tag random fuel 0 vals Hn) as E.
    rewrite Hout in E. cbn [option_map] in E.
    apply bogoLoop_correct in E.
    destruct (sorted_by_tag vals out _ Hn eq_refl E) as (Ao & Po & _). now split.
Qed.

Lemma sort_strategies_witness :
  let vals := [keyed 0 2; keyed 1 1; keyed 2 2] in
  numericKeys vals = true /\
  (ascending (SortLastCol.mergeSort vals) /\
   Permutation (SortLastCol.mergeSort vals) vals /\
   stable vals (SortLastCol.mergeSort vals)) /\
  (ascending (SortLastCol.bubbleSort vals) /\
   Permutation (SortLastCol.bubbleSort vals) vals /\
   stable vals (SortLastCol.bubbleSort vals)) /\
  (ascending (SortLastCol.selectionSort vals) /\
   Permutation (SortLastCol.selectionSort vals) vals) /\
  (forall (random : nat -> nat) (fuel : nat) (out : list SortLastCol.row),
     SortLastCol.bogoSort random fuel vals = Some out ->
     ascending out /\ Permutation out vals).
Proof.
  cbv zeta. split; [reflexivity|].
  apply (sort_strategies [keyed 0 2; keyed 1 1; keyed 2 2]). reflexivity.
Defined.

(** The rows 2, 1, 3 are never sorted by [bogoSort]: each run of its
    shuffling loop rotates the three rows, and no rotation is in order. *)
Lemma bogoLoop_rotations (random : nat -> nat) (fuel : nat) :
  forall calls : nat,
    SortLastCol.bogoLoop random fuel calls [keyed 0 2; keyed 1 1; keyed 2 3] = None /\
    SortLastCol.bogoLoop random fuel calls [keyed 2 3; keyed 0 2; keyed 1 1] = None /\
    SortLastCol.bogoLoop random fuel calls [keyed 1 1; keyed 2 3; keyed 0 2] = None.
Proof.
  induction fuel as [|fuel IH]; intros calls; [repeat split; reflexivity|].
  cbn [SortLastCol.bogoLoop].
  change (SortLastCol.isSorted [keyed 0 2; keyed 1 1; keyed 2 3]) with false.
  change (SortLastCol.isSorted [keyed 2 3; keyed 0 2; keyed 1 1]) with false.
  change (SortLastCol.isSorted [keyed 1 1; keyed 2 3; keyed 0 2]) with false.
  cbv iota.
  repeat split;
    match goal with
    | |- context [SortLastCol.shuffle random calls [?x; ?y; ?z]] =>
        destruct (shuffle_three random calls x y z) as [-> | ->]; apply IH
    end.
Qed.

(** C8, as stated, fails in four ways.  On the last columns 2, [NaN], 1
    every comparison with [NaN] is false: [bubbleSort] exchanges nothing
    and leaves 2 before 1, and [mergeSort] leaves 1, [NaN], 2.
    [selectionSort] is not stable: of two rows with last column 2 followed
    by a row with last column 1, the first is exchanged with the last,
    which puts it behind the second.  [bogoSort] produces nothing on the
    last columns 2, 1, 3: its loop never ends.  And a run of [bogoSort]
    that ends is not stable: on the last columns 2, 2, 1, 3 the third run
    of the shuffling loop can leave the two rows with last column 2
    exchanged. *)
Lemma strategies_unsorted_or_unstable :
  (SortLastCol.bubbleSort nanRows = nanRows /\
   ~ ascending (SortLastCol.bubbleSort nanRows) /\
   SortLastCol.mergeSort nanRows =
     [[SortLastCol.Finite 2; SortLastCol.Finite 1];
      [SortLastCol.Finite 1; SortLastCol.NaN];
      [SortLastCol.Finite 0; SortLastCol.Finite 2]] /\
   ~ ascending (SortLastCol.mergeSort nanRows)) /\
  (let vals := [keyed 0 2; keyed 1 2; keyed 2 1] in
   numericKeys vals = true /\
   SortLastCol.selectionSort vals = [keyed 2 1; keyed 1 2; keyed 0 2] /\
   ~ stable vals (SortLastCol.selectionSort vals)) /\
  (let vals := [keyed 0 2; keyed 1 1; keyed 2 3] in
   numericKeys vals = true /\
   forall (random : nat -> nat) (fuel : nat),
     SortLastCol.bogoSort random fuel vals = None) /\
  (let vals := [keyed 0 2; keyed 1 2; keyed 2 1; keyed 3 3] in
   numericKeys vals = true /\
   SortLastCol.bogoSort threeRandom 4 vals =
     Some [keyed 2 1; keyed 1 2; keyed 0 2; keyed 3 3] /\
   ~ stable vals [keyed 2 1; keyed 1 2; keyed 0 2; keyed 3 3]).
Proof.
  assert (Hnan : forall a b c : SortLastCol.row,
            SortLastCol.leRow a b = false -> ~ ascending [a; b; c]).
  { intros a b c E Hs. apply StronglySorted_inv in Hs as [_ Hs].
    apply Forall_cons in Hs as [Hs _]. unfold rowLe in Hs. congruence. }
  split; [|split; [|split]].
  - split; [reflexivity|]. split; [apply Hnan; reflexivity|].
    split; [reflexivity|]. apply Hnan. reflexivity.
  - cbv zeta. split; [reflexivity|]. split; [reflexivity|].
    intros Hst. specialize (Hst (SortLastCol.Finite 2)). vm_compute in Hst. discriminate.
  - cbv zeta. split; [reflexivity|].
    intros random fuel. apply (bogoLoop_rotations random fuel 0).
  - cbv zeta. split; [reflexivity|]. split; [vm_compute; reflexivity|].
    intros Hst. specialize (Hst (SortLastCol.Finite 2)). vm_compute in Hst. discriminate.
Qed.

(** C9 (amended): without an argument [mergeSort] is run; each of -m, -b,
    -s and -bogo alone selects its own strategy; more than one argument,
    or one that is none of the four, ends the process with the usage lines
    on the diagnostic stream and exit status 255; every run of the merge,
    bubble or selection sort completes with exit status 0, and so does a
    run of [bogoSort] whose loop ends. *)
Theorem processVals_dispatch (random : nat -> nat) (fuel : nat)
    (args : list string) (vals : list SortLastCol.row) :
  let run := SortLastCol.processVals random fuel args vals in
  (length args = 2%nat -> run = Some (SortLastCol.Completed (SortLastCol.mergeSort vals))) /\
  (length args = 3%nat ->
     (args !! 2%nat = Some "-m"%string ->
        run = Some (SortLastCol.Completed (SortLastCol.mergeSort vals))) /\
     (args !! 2%nat = Some "-b"%string ->
        run = Some (SortLastCol.Completed (SortLastCol.bubbleSort vals))) /\
     (args !! 2%nat = Some "-s"%string ->
        run = Some (SortLastCol.Completed (SortLastCol.selectionSort vals))) /\
     (args !! 2%nat = Some "-bogo"%string ->
        run = option_map SortLastCol.Completed (SortLastCol.bogoSort random fuel vals)) /\
     (forall a, args !! 2%nat = Some a ->
        ~ In a ["-m"; "-b"; "-s"; "-bogo"]%string -> run = Some SortLastCol.argsErr)) /\
  ((3 < length args)%nat -> run = Some SortLastCol.argsErr) /\
  SortLastCol.exitStatus SortLastCol.argsErr = 255 /\
  (forall out, run = Some (SortLastCol.Completed out) ->
     SortLastCol.exitStatus (SortLastCol.Completed out) = 0).
Proof.
  cbv zeta. unfold SortLastCol.processVals, SortLastCol.isFlag.
  split; [intros ->; reflexivity|].
  split.
  { intros ->. cbn [Nat.ltb Nat.leb Nat.eqb orb].
    repeat split.
    - intros ->. reflexivity.
    - intros ->. reflexivity.
    - intros ->. reflexivity.
    - intros ->. reflexivity.
    - intros a -> Hnot.
      assert (Hne : forall flag, In flag ["-m"; "-b"; "-s"; "-bogo"]%string ->
                                 String.eqb a flag = false).
      { intros flag Hin. apply String.eqb_neq. intros ->. contradiction. }
      rewrite !Hne by (simpl; auto). reflexivity. }
  split.
  { intros Hmany. apply Nat.ltb_lt in Hmany. now rewrite Hmany. }
  split; reflexivity.
Qed.

(** C9, as stated, fails for the run [-bogo] on rows with last columns 2,
    1, 3: the flag is recognised, there is one argument, and whatever
    [Math.random] returns the sort never ends, so the run does not
    complete. *)
Lemma bogo_run_never_completes :
  let args := ["node"; "sortlastcol.js"; "-bogo"]%string in
  let vals := [keyed 0 2; keyed 1 1; keyed 2 3] in
  length args = 3%nat /\ args !! 2%nat = Some "-bogo"%string /\
  forall (random : nat -> nat) (fuel : nat),
    SortLastCol.processVals random fuel args vals = None.
Proof.
  cbv zeta. split; [reflexivity|]. split; [reflexivity|].
  intros random fuel.
  change (SortLastCol.processVals random fuel
            ["node"; "sortlastcol.js"; "-bogo"]%string [keyed 0 2; keyed 1 1; keyed 2 3])
    with (option_map SortLastCol.Completed
            (SortLastCol.bogoLoop random fuel 0 [keyed 0 2; keyed 1 1; keyed 2 3])).
  now rewrite (proj1 (bogoLoop_rotations random fuel 0)).
Qed.

(** ** What the partition driver writes *)

Section Driver.
Context {N : Type} `{JsNumber N}.
Variable g : Argmin.globals (N:=N).

Lemma scanStep_cut (st : Argmin.scan) (s : nat) (v : N) :
  Argmin.cut (Argmin.scanStep g st s v) = Argmin.cut st \/
  Argmin.cut (Argmin.scanStep g st s v) = Some s.
Proof.
  unfold Argmin.scanStep.
  repeat match goal with |- context [if ?b then _ else _] => destruct b end;
    auto.
Qed.

Lemma scanFrom_cut (vs : list N) :
  forall (s : nat) (st : Argmin.scan) (c : nat),
    Argmin.cut (Argmin.scanFrom g vs s st) = Some c ->
    Argmin.cut st = Some c \/ (s <= c < s + length vs)%nat.
Proof.
  induction vs as [|v vs IH]; intros s st c Hc; [now left|].
  cbn [Argmin.scanFrom] in Hc. apply IH in Hc as [Hc|Hc].
  - destruct (scanStep_cut st s v) as [E|E]; rewrite E in Hc.
    + now left.
    + injection Hc as <-. right. simpl. lia.
  - right. simpl. lia.
Qed.

(** A split returned by [argmin] lies inside the range. *)
Lemma argmin_bounds (min max c : nat) :
  Argmin.argmin g min max = Some c -> (min < c <= max)%nat.
Proof.
  unfold Argmin.argmin.
  destruct (Nat.ltb_spec (2 * Argmin.minBinSize g) (max - min)) as [Hbig|_];
    [|discriminate].
  destruct (Argmin.cut _) as [s|] eqn:Es; [|discriminate].
  intros [= <-]. apply scanFrom_cut in Es as [Es|Es]; [discriminate|].
  unfold Argmin.slice in Es. rewrite length_take in Es. lia.
Qed.

Lemma emitted_app (out1 out2 : list (nat * nat)) :
  emittedRows (out1 ++ out2) = emittedRows out1 ++ emittedRows out2.
Proof. apply map_app. Qed.

Lemma emitted_labelled (c : nat) (rows : list nat) :
  emittedRows (map (fun j => (j, c)) rows) = rows.
Proof.
  unfold emittedRows. rewrite map_map. simpl. apply map_id.
Qed.

Lemma emitted_rest (p : nat) :
  emittedRows (Argmin.restRows g (Some p)) = seq p (Argmin.numRows g - p).
Proof. apply emitted_labelled. Qed.

(** Once fewer than [minBinSize + 1] rows are left, the first loop only
    counts [i] up to [numRows]. *)
Lemma splitLoop_counts (fuel : nat) :
  forall (i : nat) (cut prevCut : option nat) (out : list (nat * nat)),
    (Argmin.numRows g - i <= Argmin.minBinSize g)%nat ->
    (Argmin.numRows g - i < fuel)%nat ->
    Argmin.splitLoop g fuel i cut prevCut out = Some (out ++ Argmin.restRows g prevCut).
Proof.
  induction fuel as [|fuel IH]; intros i cut prevCut out Hsmall Hfuel; [lia|].
  cbn [Argmin.splitLoop].
  destruct (Nat.ltb_spec i (Argmin.numRows g)) as [Hi|Hi]; [|reflexivity].
  destruct (Nat.ltb_spec (Argmin.minBinSize g) (Argmin.numRows g - i)); [lia|].
  apply IH; lia.
Qed.

(** The three ways the output can look: every row once; nothing at all;
    or the rows up to the last cut [c], followed by the rows from the cut
    before it, [p], to the end. *)
Definition driverShape (out : list (nat * nat)) : Prop :=
  emittedRows out = seq 0 (Argmin.numRows g) \/
  (out = [] /\ (0 < Argmin.numRows g <= Argmin.minBinSize g)%nat) \/
  exists p c : nat,
    (p < c <= Argmin.numRows g)%nat /\
    (Argmin.numRows g - c <= Argmin.minBinSize g)%nat /\
    emittedRows out = seq 0 c ++ seq p (Argmin.numRows g - p).

Lemma splitLoop_shape (fuel : nat) :
  forall (i : nat) (prevCut : option nat) (out : list (nat * nat)),
    (Argmin.numRows g - i < fuel)%nat -> (i <= Argmin.numRows g)%nat ->
    emittedRows out = seq 0 i ->
    (prevCut = None /\ i = 0%nat) \/ (exists p, prevCut = Some p /\ (p < i)%nat) ->
    exists res, Argmin.splitLoop g fuel i (Some i) prevCut out = Some res /\
                driverShape res.
Proof.
  induction fuel as [|fuel IH]; intros i prevCut out Hfuel Hi Hout Hprev; [lia|].
  assert (Hstop : (Argmin.numRows g - i <= Argmin.minBinSize g)%nat ->
    driverShape (out ++ Argmin.restRows g prevCut)).
  { intros Hsmall. destruct Hprev as [[-> ->] | (p & -> & Hp)].
    - destruct out; [|discriminate]. simpl.
      destruct (Nat.eq_dec (Argmin.numRows g) 0%nat) as [En|En].
      + left. now rewrite En.
      + right. left. split; [reflexivity | lia].
    - right. right. exists p, i. split; [lia|]. split; [exact Hsmall|].
      now rewrite emitted_app, emitted_rest, Hout. }
  cbn [Argmin.splitLoop].
  destruct (Nat.ltb_spec i (Argmin.numRows g)) as [Hlt|Hge].
  - destruct (Nat.ltb_spec (Argmin.minBinSize g) (Argmin.numRows g - i)) as [Hbig|Hsmall].
    + destruct (Argmin.argmin g i (Argmin.numRows g)) as [c|] eqn:Ec.
      * apply argmin_bounds in Ec.
        replace (c - 1 + 1)%nat with c by lia.
        apply IH; [lia | lia | | right; exists i; split; [reflexivity | lia]].
        rewrite emitted_app, emitted_labelled, Hout, <- seq_app. f_equal. lia.
      * eexists. split; [reflexivity|]. left.
        rewrite emitted_app, emitted_rest, Hout, <- seq_app. f_equal. lia.
    + rewrite splitLoop_counts by lia.
      eexists. split; [reflexivity|]. apply Hstop. lia.
  - eexists. split; [reflexivity|]. apply Hstop. lia.
Qed.

End Driver.

(** X1: on a table that is not empty the driver always ends, and its
    output has one of three shapes: every row once, in order; or nothing,
    for a table of one row; or the rows [0 .. c-1] followed by the rows
    [p .. n-1] for two cuts [p < c], which repeats the rows [p .. c-1]. *)
Theorem calcSplits_shape {N : Type} `{JsNumber N} (col : list N) :
  col <> [] ->
  exists out, Argmin.calcSplits col = Some out /\
    (emittedRows out = seq 0 (length col) \/
     (out = [] /\ length col = 1%nat) \/
     exists p c : nat,
       (p < c <= length col)%nat /\ (length col - c <= Nat.sqrt (length col))%nat /\
       emittedRows out = seq 0 c ++ seq p (length col - p)).
Proof.
  intros _.
  unfold Argmin.calcSplits, Argmin.calcSplitsWith.
  destruct (splitLoop_shape (Argmin.initValues col)
              (S (Argmin.numRows (Argmin.initValues col))) 0 None [])
    as (res & Hres & Hshape); [simpl; lia | lia | reflexivity | now left |].
  exists res. split; [exact Hres|].
  destruct Hshape as [Hall | [[Hnil Hone] | Hdup]].
  - now left.
  - right. left. split; [exact Hnil|]. simpl in Hone.
    pose proof (Nat.sqrt_lt_lin (length col)). lia.
  - right. right. exact Hdup.
Qed.

Definition oneRow : list float := fl [5].

Lemma calcSplits_shape_witness :
  oneRow <> [] /\
  exists out, Argmin.calcSplits oneRow = Some out /\
    (emittedRows out = seq 0 (length oneRow) \/
     (out = [] /\ length oneRow = 1%nat) \/
     exists p c : nat,
       (p < c <= length oneRow)%nat /\
       (length oneRow - c <= Nat.sqrt (length oneRow))%nat /\
       emittedRows out = seq 0 c ++ seq p (length oneRow - p)).
Proof.
  assert (Hne : oneRow <> []) by discriminate.
  split; [exact Hne|]. exact (calcSplits_shape oneRow Hne).
Defined.

(** X2: a table of two or of four rows is too short for [argmin] to look
    for a split: every row is written once, with the row count appended. *)
Theorem calcSplits_short_table {N : Type} `{JsNumber N} (col : list N) :
  (Nat.sqrt (length col) < length col <= 2 * Nat.sqrt (length col))%nat ->
  Argmin.argmin (Argmin.initValues col) 0 (length col) = None /\
  Argmin.calcSplits col =
    Some (map (fun i => (i, length col)) (seq 0 (length col))).
Proof.
  intros [Hlo Hhi].
  assert (Hnone : Argmin.argmin (Argmin.initValues col) 0 (length col) = None).
  { unfold Argmin.argmin. cbn [Argmin.minBinSize Argmin.initValues].
    destruct (Nat.ltb_spec (2 * Nat.sqrt (length col)) (length col - 0)); [lia | reflexivity]. }
  split; [exact Hnone|].
  unfold Argmin.calcSplits, Argmin.calcSplitsWith.
  cbn [Argmin.splitLoop Argmin.numRows Argmin.initValues Argmin.minBinSize].
  destruct (Nat.ltb_spec 0 (length col)) as [_|]; [|lia].
  destruct (Nat.ltb_spec (Nat.sqrt (length col)) (length col - 0)) as [_|]; [|lia].
  cbn [Argmin.numRows Argmin.initValues] in Hnone. rewrite Hnone.
  cbn [app Argmin.restRows Argmin.numRows]. now rewrite Nat.sub_0_r.
Qed.

Definition twoRows : list float := fl [3; 9].

Lemma calcSplits_short_table_witness :
  (Nat.sqrt (length twoRows) < length twoRows <= 2 * Nat.sqrt (length twoRows))%nat /\
  Argmin.argmin (Argmin.initValues twoRows) 0 (length twoRows) = None /\
  Argmin.calcSplits twoRows =
    Some (map (fun i => (i, length twoRows)) (seq 0 (length twoRows))).
Proof.
  assert (Hn : (Nat.sqrt (length twoRows) < length twoRows
                <= 2 * Nat.sqrt (length twoRows))%nat)
    by (split; [apply Nat.ltb_lt | apply Nat.leb_le]; reflexivity).
  split; [exact Hn|]. exact (calcSplits_short_table twoRows Hn).
Defined.

(** X3: no table has fewer rows than [minBinSize]. *)
Lemma minBinSize_le_numRows {N : Type} `{JsNumber N} (col : list N) :
  (Argmin.minBinSize (Argmin.initValues col) <= Argmin.numRows (Argmin.initValues col))%nat.
Proof.
  cbn [Argmin.minBinSize Argmin.numRows Argmin.initValues].
  destruct (length col) as [|[|n]]; [reflexivity | reflexivity |].
  apply Nat.lt_le_incl, Nat.sqrt_lt_lin. lia.
Qed.

(** ** More on the sorting strategies *)

(** Further facts on keyed rows. *)
Section SortFacts.
Import SortLastCol.
Import NumericSort.

Lemma ascending_lookup (vals : list row) :
  ascending vals ->
  forall i j a b, (i < j)%nat -> vals !! i = Some a -> vals !! j = Some b -> rowLe a b.
Proof.
  induction 1 as [|x l Hs IH Hx]; intros i j a b Hij Ea Eb.
  - rewrite lookup_nil in Ea. discriminate.
  - destruct j as [|j]; [lia|]. cbn in Eb.
    destruct i as [|i]; cbn in Ea.
    + injection Ea as <-. rewrite List.Forall_forall in Hx. apply Hx.
      apply list_elem_of_In. eapply list_elem_of_lookup_2. exact Eb.
    + apply (IH i j); [lia | exact Ea | exact Eb].
Qed.

Lemma ascending_isSorted (vals : list row) :
  ascending vals -> isSorted vals = true.
Proof.
  intros Hasc. unfold isSorted. apply forallb_forall. intros i Hi.
  apply in_seq in Hi. unfold inOrder.
  destruct (vals !! i) as [a|] eqn:Ea; [|reflexivity].
  destruct (vals !! (i - 1)%nat) as [b|] eqn:Eb; [|reflexivity].
  assert (Hle : rowLe b a)
    by (apply (ascending_lookup vals Hasc (i - 1) i); [lia | exact Eb | exact Ea]).
  unfold ltRow. apply Qle_bool_iff in Hle. unfold rowLe in *. rewrite Hle. reflexivity.
Qed.

Lemma hasKey_self (a : row) : hasKey (lastCol a) a = true.
Proof. unfold hasKey. apply Qeq_bool_iff. reflexivity. Qed.

Lemma filter_head_in (k : Q) (a : row) (l rest : list row) :
  List.filter (hasKey k) l = a :: rest -> In a l.
Proof.
  intros E. assert (Hin : In a (List.filter (hasKey k) l)) by (rewrite E; now left).
  now apply List.filter_In in Hin.
Qed.

(** Two ascending arrangements that list the rows of every key in the
    same order are the same array. *)
Lemma stable_sorted_unique (l1 : list row) :
  forall l2, ascending l1 -> ascending l2 ->
    (forall k, List.filter (hasKey k) l1 = List.filter (hasKey k) l2) -> l1 = l2.
Proof.
  induction l1 as [|a l1 IH]; intros [|b l2] H1 H2 Hk; try reflexivity.
  - specialize (Hk (lastCol b)). cbn in Hk. rewrite hasKey_self in Hk. discriminate.
  - specialize (Hk (lastCol a)). cbn in Hk. rewrite hasKey_self in Hk. discriminate.
  - apply StronglySorted_inv in H1 as [H1 Ha]. apply StronglySorted_inv in H2 as [H2 Hb].
    assert (Eab : a = b).
    { pose proof (Hk (lastCol a)) as Ka. pose proof (Hk (lastCol b)) as Kb.
      cbn in Ka, Kb. rewrite hasKey_self in Ka, Kb.
      destruct (hasKey (lastCol a) b) eqn:Eb; [now injection Ka|].
      assert (Ea : hasKey (lastCol b) a = false).
      { unfold hasKey in *. destruct (Qeq_bool (lastCol a) (lastCol b)) eqn:E; [|reflexivity].
        apply Qeq_bool_iff in E. symmetry in E. apply Qeq_bool_iff in E. congruence. }
      rewrite Ea in Kb.
      symmetry in Ka. apply filter_head_in in Ka. apply filter_head_in in Kb.
      rewrite List.Forall_forall in Ha, Hb.
      specialize (Ha b Kb). specialize (Hb a Ka). unfold rowLe in Ha, Hb.
      assert (E : (lastCol b == lastCol a)%Q) by (apply Qle_antisym; assumption).
      apply Qeq_bool_iff in E. unfold hasKey in Eb. congruence. }
    subst b. f_equal. apply IH; [exact H1 | exact H2 |].
    intros k. specialize (Hk k). cbn in Hk.
    destruct (hasKey k a); [now injection Hk | exact Hk].
Qed.

Lemma distinctKeys_filter (k : Q) (vals : list row) :
  distinctKeys vals = true -> (length (List.filter (hasKey k) vals) <= 1)%nat.
Proof.
  induction vals as [|a rest IH]; cbn; [lia|].
  intros Hd. apply andb_true_iff in Hd as [Ha Hd]. specialize (IH Hd).
  destruct (hasKey k a) eqn:Ea; [|exact IH].
  assert (E : List.filter (hasKey k) rest = []).
  { destruct (List.filter (hasKey k) rest) as [|b tl] eqn:Ef; [reflexivity|].
    assert (Hb : In b (List.filter (hasKey k) rest)) by (rewrite Ef; now left).
    apply List.filter_In in Hb as [Hb Kb].
    rewrite forallb_forall in Ha. specialize (Ha b Hb).
    apply negb_true_iff in Ha. unfold hasKey in *.
    apply Qeq_bool_iff in Ea, Kb.
    assert (E : (lastCol b == lastCol a)%Q) by (rewrite Ea, Kb; reflexivity).
    apply Qeq_bool_iff in E. congruence. }
  rewrite E. simpl. lia.
Qed.

Lemma perm_filter (k : Q) (l1 l2 : list row) :
  Permutation l1 l2 -> Permutation (List.filter (hasKey k) l1) (List.filter (hasKey k) l2).
Proof.
  induction 1 as [|x l l' _ IH|x y l|l l' l'' _ IH1 _ IH2]; cbn.
  - constructor.
  - destruct (hasKey k x); [now constructor | exact IH].
  - destruct (hasKey k x), (hasKey k y); try reflexivity. constructor.
  - now transitivity (List.filter (hasKey k) l').
Qed.

Lemma distinct_perm_stable (vals out : list row) :
  distinctKeys vals = true -> Permutation out vals -> stable vals out.
Proof.
  intros Hd Hp k. pose proof (distinctKeys_filter k vals Hd) as Hlen.
  pose proof (perm_filter k out vals Hp) as Hf.
  destruct (List.filter (hasKey k) vals) as [|x [|y tl]]; [| |simpl in Hlen; lia].
  - symmetry in Hf. now apply Permutation_nil in Hf.
  - symmetry in Hf. now apply Permutation_length_1_inv in Hf.
Qed.

Lemma minSteps_ascending (vals : list row) (i : nat) (idx : list nat) :
  ascending vals -> Forall (fun j => (i < j)%nat) idx ->
  fold_left (minStep vals) idx i = i.
Proof.
  intros Hasc. induction 1 as [|j idx Hj _ IH]; [reflexivity|].
  cbn [fold_left]. assert (E : minStep vals i j = i); [|now rewrite E].
  unfold minStep. destruct (vals !! j) as [a|] eqn:Ea; [|reflexivity].
  destruct (vals !! i) as [b|] eqn:Eb; [|reflexivity].
  pose proof (ascending_lookup vals Hasc i j b a Hj Eb Ea) as Hle.
  unfold ltRow. apply Qle_bool_iff in Hle. unfold rowLe in *. now rewrite Hle.
Qed.

Lemma selectionStep_ascending (n : nat) (vals : list row) (i : nat) :
  ascending vals -> selectionStep n vals i = vals.
Proof.
  intros Hasc. unfold selectionStep, minIndex.
  rewrite minSteps_ascending; [apply swap_same | exact Hasc |].
  apply List.Forall_forall. intros j Hj. apply in_seq in Hj. lia.
Qed.

Lemma selectionSort_ascending (vals : list row) :
  ascending vals -> selectionSort vals = vals.
Proof.
  intros Hasc. unfold selectionSort.
  induction (seq 0 (length vals - 1)) as [|i idx IH]; [reflexivity|].
  cbn [fold_left]. now rewrite selectionStep_ascending.
Qed.

Lemma countIf_app (f : row -> bool) (l1 l2 : list row) :
  countIf f (l1 ++ l2) = (countIf f l1 + countIf f l2)%nat.
Proof. induction l1 as [|x l1 IH]; cbn; [reflexivity | rewrite IH; lia]. Qed.

Lemma countIf_perm (f : row -> bool) (l1 l2 : list row) :
  Permutation l1 l2 -> countIf f l1 = countIf f l2.
Proof. induction 1; cbn; lia. Qed.

Lemma countIf_filter (f : row -> bool) (l : list row) :
  countIf f l = length (List.filter f l).
Proof. induction l as [|x l IH]; cbn; [reflexivity|]. destruct (f x); cbn; lia. Qed.

Lemma countIf_zero (f : row -> bool) (l : list row) :
  countIf f l = 0%nat -> Forall (fun m => f m = false) l.
Proof.
  induction l as [|x l IH]; cbn; [constructor|].
  destruct (f x) eqn:E; [lia|]. intros H. constructor; [exact E | now apply IH].
Qed.

Lemma cross_cons_r (l : list row) (b : row) (t : list row) :
  crossInversions l (b :: t) = (rowsAbove b l + crossInversions l t)%nat.
Proof.
  induction l as [|m l IH]; [reflexivity|].
  cbn [crossInversions]. rewrite IH. unfold rowsBelow, rowsAbove. cbn [countIf]. lia.
Qed.

Lemma cross_perm_r (l l1 l2 : list row) :
  Permutation l1 l2 -> crossInversions l l1 = crossInversions l l2.
Proof.
  intros Hp. induction l as [|x l IH]; [reflexivity|].
  cbn [crossInversions]. rewrite IH. unfold rowsBelow. now rewrite (countIf_perm _ l1 l2 Hp).
Qed.

Lemma inversions_app (l1 l2 : list row) :
  inversions (l1 ++ l2) = (inversions l1 + inversions l2 + crossInversions l1 l2)%nat.
Proof.
  induction l1 as [|x l1 IH]; [cbn; lia|].
  cbn [app inversions crossInversions]. rewrite IH. unfold rowsBelow. rewrite countIf_app. lia.
Qed.

Lemma below_above (x : row) (l : list row) :
  Forall (fun m => hasKey (lastCol x) m = false) l ->
  (rowsBelow x l + rowsAbove x l)%nat = length l.
Proof.
  unfold rowsBelow, rowsAbove. induction 1 as [|m l Hm _ IH]; [reflexivity|].
  cbn [countIf length].
  assert (E : ((if ltRow m x then 1 else 0) + (if ltRow x m then 1 else 0))%nat = 1%nat);
    [|lia].
  unfold ltRow, hasKey in *.
  destruct (Qle_bool (lastCol x) (lastCol m)) eqn:E1,
           (Qle_bool (lastCol m) (lastCol x)) eqn:E2; cbn; try reflexivity.
  - apply Qle_bool_iff in E1, E2.
    assert (E : (lastCol m == lastCol x)%Q) by (apply Qle_antisym; assumption).
    apply Qeq_bool_iff in E. congruence.
  - destruct (Qlt_le_dec (lastCol m) (lastCol x)) as [Hlt|Hle].
    + apply Qlt_le_weak, Qle_bool_iff in Hlt. congruence.
    + apply Qle_bool_iff in Hle. congruence.
Qed.

Lemma pair_order (a b : row) :
  hasKey (lastCol a) b = false ->
  ((if ltRow b a then 1 else 0) + (if ltRow a b then 1 else 0))%nat = 1%nat.
Proof.
  intros Hab. assert (Hf : Forall (fun m => hasKey (lastCol a) m = false) [b])
    by now constructor.
  pose proof (below_above a [b] Hf) as H.
  unfold rowsBelow, rowsAbove in H. cbn [countIf length] in H. lia.
Qed.

Lemma inversions_segment (a b : row) (mid post : list row) :
  inversions (a :: mid ++ b :: post) =
  (rowsBelow a mid + (if ltRow b a then 1 else 0) + rowsBelow a post + inversions mid
   + rowsBelow b post + inversions post + rowsAbove b mid + crossInversions mid post)%nat.
Proof.
  cbn [inversions]. rewrite inversions_app. cbn [inversions].
  rewrite cross_cons_r. unfold rowsBelow, rowsAbove. rewrite countIf_app. cbn [countIf]. lia.
Qed.

(** Exchanging two rows with different keys, and different from the keys
    between them, changes the number of inversions by an odd amount. *)
Lemma inversions_exchange (pre mid post : list row) (a b : row) :
  hasKey (lastCol a) b = false ->
  Forall (fun m => hasKey (lastCol a) m = false) mid ->
  Forall (fun m => hasKey (lastCol b) m = false) mid ->
  exists K : nat,
    (inversions (pre ++ b :: mid ++ a :: post) +
     inversions (pre ++ a :: mid ++ b :: post))%nat = (2 * K + 1)%nat.
Proof.
  intros Hab Ha Hb.
  pose proof (below_above a mid Ha) as Ea. pose proof (below_above b mid Hb) as Eb.
  pose proof (pair_order a b Hab) as Eab.
  rewrite !inversions_app.
  assert (Hp : Permutation (b :: mid ++ a :: post) (a :: mid ++ b :: post)).
  { rewrite <- !Permutation_middle. apply perm_swap. }
  rewrite (cross_perm_r pre _ _ Hp).
  rewrite !inversions_segment.
  exists (inversions pre + crossInversions pre (a :: mid ++ b :: post) + inversions mid
          + inversions post + crossInversions mid post + rowsBelow a post + rowsBelow b post
          + length mid)%nat.
  lia.
Qed.

Lemma uniqueKeys_perm (l1 l2 : list row) :
  Permutation l1 l2 -> uniqueKeys l1 -> uniqueKeys l2.
Proof. intros Hp Hu k. rewrite <- (countIf_perm _ l1 l2 Hp). apply Hu. Qed.

Lemma distinctKeys_unique (vals : list row) :
  distinctKeys vals = true -> uniqueKeys vals.
Proof.
  intros Hd k. rewrite countIf_filter. now apply distinctKeys_filter.
Qed.

Lemma uniqueKeys_exchange (pre mid post : list row) (a b : row) :
  uniqueKeys (pre ++ b :: mid ++ a :: post) ->
  hasKey (lastCol a) b = false /\
  Forall (fun m => hasKey (lastCol a) m = false) mid /\
  Forall (fun m => hasKey (lastCol b) m = false) mid.
Proof.
  intros Hu.
  pose proof (Hu (lastCol a)) as Ka. pose proof (Hu (lastCol b)) as Kb.
  rewrite countIf_app in Ka, Kb. cbn [countIf] in Ka, Kb.
  rewrite countIf_app in Ka, Kb. cbn [countIf] in Ka, Kb.
  rewrite hasKey_self in Ka, Kb.
  repeat split.
  - destruct (hasKey (lastCol a) b); [lia | reflexivity].
  - apply countIf_zero. lia.
  - apply countIf_zero. lia.
Qed.

(** A swap of two different positions flips the parity of the number of
    inversions. *)
Lemma inversions_swap (vals : list row) (i j : nat) :
  uniqueKeys vals -> (j < i < length vals)%nat ->
  Nat.odd (inversions (swap vals i j)) = negb (Nat.odd (inversions vals)).
Proof.
  intros Hu Hij.
  destruct (lookup_lt_is_Some_2 vals i) as [a Ea]; [lia|].
  destruct (lookup_lt_is_Some_2 vals j) as [b Eb]; [lia|].
  destruct (swap_split vals i j a b) as (pre & mid & post & E & Es); [lia | exact Ea | exact Eb |].
  rewrite Es. rewrite E in Hu |- *.
  destruct (uniqueKeys_exchange _ _ _ _ _ Hu) as (Hab & Ha & Hb).
  destruct (inversions_exchange pre mid post a b Hab Ha Hb) as [K HK].
  assert (Ho : Nat.odd (inversions (pre ++ b :: mid ++ a :: post) +
                        inversions (pre ++ a :: mid ++ b :: post)) = true).
  { rewrite HK. rewrite Nat.add_comm, Nat.odd_add_mul_2. reflexivity. }
  rewrite Nat.odd_add in Ho.
  destruct (Nat.odd (inversions (pre ++ b :: mid ++ a :: post))),
           (Nat.odd (inversions (pre ++ a :: mid ++ b :: post))); try reflexivity; discriminate.
Qed.

Section Shuffle.
Variable random : nat -> nat.

(** The swaps of the [for] loop for [i = s, ..., s + k - 1], [s >= 1]. *)
Lemma shuffle_steps (calls k : nat) :
  forall (s : nat) (vals : list row),
    (1 <= s)%nat -> (s + k <= length vals)%nat -> uniqueKeys vals ->
    let out := fold_left (fun v i => swap v i (pick random (calls + i) i)) (seq s k) vals in
    Nat.odd (inversions out) = xorb (Nat.odd k) (Nat.odd (inversions vals)).
Proof.
  induction k as [|k IH]; intros s vals Hs Hlen Hu; [reflexivity|].
  cbn [seq fold_left]. cbv zeta.
  specialize (IH (S s) (swap vals s (pick random (calls + s) s))).
  cbv zeta in IH. rewrite IH.
  - rewrite inversions_swap; [|exact Hu|].
    + rewrite Nat.odd_succ, <- Nat.negb_odd.
      destruct (Nat.odd k), (Nat.odd (inversions vals)); reflexivity.
    + split; [apply pick_lt; lia | lia].
  - lia.
  - rewrite length_swap. lia.
  - eapply uniqueKeys_perm; [|exact Hu]. symmetry. apply swap_perm.
Qed.

Lemma shuffle_parity (calls : nat) (vals : list row) :
  uniqueKeys vals ->
  Nat.odd (inversions (shuffle random calls vals)) =
  xorb (Nat.odd (length vals - 1)) (Nat.odd (inversions vals)).
Proof.
  intros Hu. unfold shuffle.
  destruct vals as [|x vals]; [reflexivity|].
  cbn [length seq fold_left]. cbn [pick]. rewrite swap_same.
  pose proof (shuffle_steps calls (length vals) 1 (x :: vals)) as H.
  cbv zeta in H. rewrite H; [|lia|cbn; lia|exact Hu].
  now rewrite Nat.sub_succ, Nat.sub_0_r.
Qed.

Lemma below_least (x : row) (l : list row) :
  Forall (rowLe x) l -> rowsBelow x l = 0%nat.
Proof.
  unfold rowsBelow. induction 1 as [|y l Hy _ IH]; [reflexivity|].
  cbn [countIf]. rewrite IH. unfold ltRow.
  apply Qle_bool_iff in Hy. now rewrite Hy.
Qed.

Lemma ascending_inversions (vals : list row) :
  ascending vals -> inversions vals = 0%nat.
Proof.
  induction 1 as [|x l _ IH Hx]; [reflexivity|].
  cbn [inversions]. now rewrite IH, below_least.
Qed.

Lemma bogoLoop_parity (fuel : nat) :
  forall (calls : nat) (vals : list row),
    Nat.odd (length vals) = true -> uniqueKeys vals ->
    Nat.odd (inversions vals) = true ->
    bogoLoop random fuel calls vals = None.
Proof.
  induction fuel as [|fuel IH]; intros calls vals Hn Hu Hodd; [reflexivity|].
  cbn [bogoLoop].
  destruct (isSorted vals) eqn:Es.
  - apply isSorted_ascending, ascending_inversions in Es. rewrite Es in Hodd. discriminate.
  - apply IH.
    + unfold shuffle.
      assert (L : forall idx (v : list row),
                length (fold_left (fun v i => swap v i (pick random (calls + i) i)) idx v)
                = length v).
      { induction idx as [|i idx IHi]; intros v; [reflexivity|].
        cbn [fold_left]. rewrite IHi. apply length_swap. }
      now rewrite L.
    + eapply uniqueKeys_perm; [|exact Hu]. symmetry. apply shuffle_perm.
    + rewrite shuffle_parity by exact Hu. rewrite Hodd.
      destruct vals as [|x vals]; [discriminate Hn|].
      cbn [length] in Hn |- *. rewrite Nat.sub_succ, Nat.sub_0_r.
      rewrite Nat.odd_succ, <- Nat.negb_odd in Hn.
      destruct (Nat.odd (length vals)); [discriminate Hn | reflexivity].
Qed.

End Shuffle.

(** Merge sort and bubble sort leave the same array of keyed rows. *)
Lemma keyed_stable_sorts_agree (vals : list row) : bubbleSort vals = mergeSort vals.
Proof.
  destruct (mergeSort_correct vals) as (Hm & Sm & _).
  destruct (bubbleSort_correct vals) as (Hb & Sb & _).
  apply stable_sorted_unique; [exact Hb | exact Hm |].
  intros k. now rewrite Sm, Sb.
Qed.

Lemma keyed_sorted_unchanged (vals : list row) :
  isSorted vals = true ->
  mergeSort vals = vals /\ bubbleSort vals = vals /\ selectionSort vals = vals.
Proof.
  intros Hs. pose proof (isSorted_ascending vals Hs) as Hasc.
  destruct (mergeSort_correct vals) as (Hm & Sm & _).
  destruct (bubbleSort_correct vals) as (Hb & Sb & _).
  repeat split.
  - now apply stable_sorted_unique.
  - now apply stable_sorted_unique.
  - now apply selectionSort_ascending.
Qed.

Lemma keyed_distinct_one_output (vals : list row) :
  distinctKeys vals = true ->
  selectionSort vals = mergeSort vals /\
  forall (random : nat -> nat) (fuel calls : nat) (out : list row),
    bogoLoop random fuel calls vals = Some out -> out = mergeSort vals.
Proof.
  intros Hd.
  destruct (mergeSort_correct vals) as (Hm & Sm & _).
  destruct (selectionSort_correct vals) as (Hs & Ps).
  split.
  - apply stable_sorted_unique; [exact Hs | exact Hm |]. intros k.
    rewrite Sm. now apply distinct_perm_stable.
  - intros random fuel calls out Hout. apply bogoLoop_correct in Hout as [Ho Po].
    apply stable_sorted_unique; [exact Ho | exact Hm |]. intros k.
    rewrite Sm. now apply distinct_perm_stable.
Qed.

End SortFacts.

(** How the counts of [NumericSort] read on [SortLastCol]. *)
Section AgreementOfCounts.
Import SortLastCol.

Lemma forallb_tag (f : row -> bool) (g : NumericSort.row -> bool) (l : list row) :
  Forall (fun r => g (tag r) = f r) l -> forallb g (tag <$> l) = forallb f l.
Proof.
  induction 1 as [|r l Hr _ IH]; [reflexivity|].
  rewrite fmap_cons. cbn [forallb]. now rewrite Hr, IH.
Qed.

Lemma countIf_tag (f : row -> bool) (g : NumericSort.row -> bool) (l : list row) :
  Forall (fun r => g (tag r) = f r) l -> countIf g (tag <$> l) = countIf f l.
Proof.
  induction 1 as [|r l Hr _ IH]; [reflexivity|].
  rewrite fmap_cons. cbn [countIf]. now rewrite Hr, IH.
Qed.

Lemma distinctKeys_tag (vals : list row) :
  Forall numeric vals -> NumericSort.distinctKeys (tag <$> vals) = distinctKeys vals.
Proof.
  induction 1 as [|a l Ha Hl IH]; [reflexivity|].
  rewrite fmap_cons. cbn [distinctKeys NumericSort.distinctKeys]. rewrite IH. f_equal.
  apply forallb_tag. eapply List.Forall_impl; [|exact Hl].
  intros b Hb. cbn beta. f_equal. now apply (hasKey_tag (lastCol a) b).
Qed.

Lemma inversions_tag (vals : list row) :
  Forall numeric vals -> NumericSort.inversions (tag <$> vals) = inversions vals.
Proof.
  induction 1 as [|a l Ha Hl IH]; [reflexivity|].
  rewrite fmap_cons. cbn [inversions NumericSort.inversions]. rewrite IH. f_equal.
  unfold rowsBelow, NumericSort.rowsBelow. apply countIf_tag.
  eapply List.Forall_impl; [|exact Hl]. intros b Hb. cbn beta. now apply ltRow_tag.
Qed.

End AgreementOfCounts.

(** X4: on an array no last column of which is [NaN], [isSorted] returns
    true exactly when the last columns are in ascending order. *)
Theorem isSorted_iff_ascending (vals : list SortLastCol.row) :
  numericKeys vals = true ->
  SortLastCol.isSorted vals = true <-> ascending vals.
Proof.
  intros Hn. apply numericKeys_Forall in Hn.
  rewrite <- isSorted_tag, <- ascending_tag by exact Hn.
  split; [apply isSorted_ascending | apply ascending_isSorted].
Qed.

Lemma isSorted_iff_ascending_witness :
  let vals := [keyed 0 1; keyed 1 2; keyed 2 2] in
  numericKeys vals = true /\
  (SortLastCol.isSorted vals = true <-> ascending vals).
Proof.
  cbv zeta. split; [reflexivity|].
  apply (isSorted_iff_ascending [keyed 0 1; keyed 1 2; keyed 2 2]). reflexivity.
Defined.

(** X5: on an array no last column of which is [NaN], merge sort and
    bubble sort leave the same array: the flags [-m] and [-b] print the
    same lines. *)
Theorem stable_sorts_agree (vals : list SortLastCol.row) :
  numericKeys vals = true ->
  SortLastCol.bubbleSort vals = SortLastCol.mergeSort vals.
Proof.
  intros Hn. apply numericKeys_Forall in Hn. apply tag_inj.
  rewrite bubbleSort_tag, mergeSort_tag by exact Hn.
  apply keyed_stable_sorts_agree.
Qed.

Lemma stable_sorts_agree_witness :
  let vals := [keyed 0 2; keyed 1 1; keyed 2 2; keyed 3 1] in
  numericKeys vals = true /\
  SortLastCol.bubbleSort vals = SortLastCol.mergeSort vals.
Proof.
  cbv zeta. split; [reflexivity|].
  apply (stable_sorts_agree [keyed 0 2; keyed 1 1; keyed 2 2; keyed 3 1]). reflexivity.
Defined.

(** X6: an array without [NaN] in the last column that [isSorted] accepts
    is left as it is by merge sort, bubble sort and selection sort, and
    [bogoSort] returns it at once, without a call of [Math.random]. *)
Theorem sorted_input_unchanged (vals : list SortLastCol.row) :
  numericKeys vals = true ->
  SortLastCol.isSorted vals = true ->
  SortLastCol.mergeSort vals = vals /\
  SortLastCol.bubbleSort vals = vals /\
  SortLastCol.selectionSort vals = vals /\
  forall (random : nat -> nat) (fuel : nat),
    SortLastCol.bogoSort random (S fuel) vals = Some vals.
Proof.
  intros Hn Hs. apply numericKeys_Forall in Hn.
  pose proof Hs as Hq. rewrite <- isSorted_tag in Hq by exact Hn.
  destruct (keyed_sorted_unchanged _ Hq) as (Em & Eb & Es).
  split; [apply tag_inj; now rewrite mergeSort_tag|].
  split; [apply tag_inj; now rewrite bubbleSort_tag|].
  split; [apply tag_inj; now rewrite selectionSort_tag|].
  intros random fuel. unfold SortLastCol.bogoSort. cbn [SortLastCol.bogoLoop].
  now rewrite Hs.
Qed.

Lemma sorted_input_unchanged_witness :
  let vals := [keyed 0 1; keyed 1 2; keyed 2 2] in
  numericKeys vals = true /\
  SortLastCol.isSorted vals = true /\
  (SortLastCol.mergeSort vals = vals /\
   SortLastCol.bubbleSort vals = vals /\
   SortLastCol.selectionSort vals = vals /\
   forall (random : nat -> nat) (fuel : nat),
     SortLastCol.bogoSort random (S fuel) vals = Some vals).
Proof.
  cbv zeta. split; [reflexivity|]. split; [reflexivity|].
  apply (sorted_input_unchanged [keyed 0 1; keyed 1 2; keyed 2 2]); reflexivity.
Defined.

(** X7: when no last column is [NaN] and no two rows have the same last
    column, selection sort leaves the same array as merge sort, and so
    does every run of [bogoSort] that ends: all strategies print the same
    lines. *)
Theorem distinct_keys_one_output (vals : list SortLastCol.row) :
  numericKeys vals = true ->
  distinctKeys vals = true ->
  SortLastCol.selectionSort vals = SortLastCol.mergeSort vals /\
  forall (random : nat -> nat) (fuel : nat) (out : list SortLastCol.row),
    SortLastCol.bogoSort random fuel vals = Some out -> out = SortLastCol.mergeSort vals.
Proof.
  intros Hn Hd. apply numericKeys_Forall in Hn.
  rewrite <- distinctKeys_tag in Hd by exact Hn.
  destruct (keyed_distinct_one_output _ Hd) as [Es Eb].
  split.
  - apply tag_inj. now rewrite selectionSort_tag, mergeSort_tag.
  - intros random fuel out Hout. unfold SortLastCol.bogoSort in Hout.
    pose proof (bogoLoop_tag random fuel 0 vals Hn) as E.
    rewrite Hout in E. cbn [option_map] in E. apply Eb in E.
    apply tag_inj. now rewrite mergeSort_tag.
Qed.

Lemma distinct_keys_one_output_witness :
  let vals := [keyed 0 3; keyed 1 1; keyed 2 2] in
  numericKeys vals = true /\
  distinctKeys vals = true /\
  (SortLastCol.selectionSort vals = SortLastCol.mergeSort vals /\
   forall (random : nat -> nat) (fuel : nat) (out : list SortLastCol.row),
     SortLastCol.bogoSort random fuel vals = Some out -> out = SortLastCol.mergeSort vals).
Proof.
  cbv zeta. split; [reflexivity|]. split; [reflexivity|].
  apply (distinct_keys_one_output [keyed 0 3; keyed 1 1; keyed 2 2]); reflexivity.
Defined.

(** X8: on an array with an odd number of rows, pairwise different last
    columns, none of them [NaN], and an odd number of out-of-order pairs,
    [bogoSort] never ends, whatever [Math.random] returns: every run of
    its [for] loop makes [n - 1] exchanges of two different rows, an even
    number, so the parity of the out-of-order pairs never changes, and a
    sorted array has none. *)
Theorem bogoSort_odd_inversions (random : nat -> nat) (fuel : nat)
    (vals : list SortLastCol.row) :
  numericKeys vals = true ->
  Nat.odd (length vals) = true -> distinctKeys vals = true ->
  Nat.odd (inversions vals) = true ->
  SortLastCol.bogoSort random fuel vals = None.
Proof.
  intros Hn Hl Hd Hodd. apply numericKeys_Forall in Hn.
  rewrite <- distinctKeys_tag in Hd by exact Hn.
  rewrite <- inversions_tag in Hodd by exact Hn.
  rewrite <- (length_fmap tag) in Hl.
  pose proof (bogoLoop_parity random fuel 0 _ Hl (distinctKeys_unique _ Hd) Hodd) as E.
  rewrite bogoLoop_tag in E by exact Hn.
  unfold SortLastCol.bogoSort.
  destruct (SortLastCol.bogoLoop random fuel 0 vals); [discriminate | reflexivity].
Qed.

Lemma bogoSort_odd_inversions_witness :
  let vals := [keyed 0 1; keyed 1 2; keyed 2 3; keyed 3 5; keyed 4 4] in
  numericKeys vals = true /\
  Nat.odd (length vals) = true /\ distinctKeys vals = true /\
  Nat.odd (inversions vals) = true /\
  SortLastCol.bogoSort (fun k => k) 7 vals = None.
Proof.
  cbv zeta. split; [reflexivity|]. split; [reflexivity|]. split; [reflexivity|].
  split; [reflexivity|].
  apply (bogoSort_odd_inversions (fun k => k) 7
           [keyed 0 1; keyed 1 2; keyed 2 3; keyed 3 5; keyed 4 4]); reflexivity.
Defined.

(** X9: [merge] of two sorted arrays without [NaN] in the last column is
    sorted, holds the rows of both, and among rows with the same last
    column puts those of [left] first, each group in its own order. *)
Theorem merge_spec (left right : list SortLastCol.row) :
  numericKeys left = true -> numericKeys right = true ->
  SortLastCol.isSorted left = true -> SortLastCol.isSorted right = true ->
  SortLastCol.isSorted (SortLastCol.merge left right) = true /\
  Permutation (SortLastCol.merge left right) (left ++ right) /\
  forall k : SortLastCol.number,
    List.filter (hasKey k) (SortLastCol.merge left right) =
    List.filter (hasKey k) left ++ List.filter (hasKey k) right.
Proof.
  intros Nl Nr Hl Hr. apply numericKeys_Forall in Nl, Nr.
  rewrite <- isSorted_tag in Hl, Hr by assumption.
  apply isSorted_ascending in Hl, Hr.
  pose proof (merge_tag left right Nl Nr) as E.
  assert (P : Permutation (SortLastCol.merge left right) (left ++ right)).
  { apply tag_perm. rewrite E, fmap_app. apply merge_perm. }
  assert (Nm : Forall numeric (SortLastCol.merge left right)).
  { rewrite P. apply Forall_app. now split. }
  split; [|split; [exact P|]].
  - rewrite <- isSorted_tag, E by exact Nm.
    apply ascending_isSorted. now apply merge_ascending.
  - intros k. destruct (SortLastCol.isNumber k) eqn:Hk.
    + apply tag_inj. rewrite fmap_app, <- !filter_tag, E by assumption.
      now apply merge_filter.
    + destruct k; try discriminate. now rewrite !filter_NaN.
Qed.

Lemma merge_spec_witness :
  let left := [keyed 0 1; keyed 1 3] in
  let right := [keyed 2 1; keyed 3 2] in
  numericKeys left = true /\ numericKeys right = true /\
  SortLastCol.isSorted left = true /\ SortLastCol.isSorted right = true /\
  (SortLastCol.isSorted (SortLastCol.merge left right) = true /\
   Permutation (SortLastCol.merge left right) (left ++ right) /\
   forall k : SortLastCol.number,
     List.filter (hasKey k) (SortLastCol.merge left right) =
     List.filter (hasKey k) left ++ List.filter (hasKey k) right).
Proof.
  cbv zeta. split; [reflexivity|]. split; [reflexivity|].
  split; [reflexivity|]. split; [reflexivity|].
  apply (merge_spec [keyed 0 1; keyed 1 3] [keyed 2 1; keyed 3 2]); reflexivity.
Defined.

(** ** More on the accumulator *)

Section RangeOfInserts.
Context {N : Type} `{JsOrder N}.

Lemma max_numInc (a : Argmin.aggr) (v : N) :
  Argmin.max (Argmin.numInc a v) = if ltb (Argmin.max a) v then v else Argmin.max a.
Proof. reflexivity. Qed.

Lemma min_numInc (a : Argmin.aggr) (v : N) :
  Argmin.min (Argmin.numInc a v) = if ltb v (Argmin.min a) then v else Argmin.min a.
Proof. reflexivity. Qed.

Lemma max_inserts (vs : list N) :
  forall a : Argmin.aggr,
    let a' := fold_left Argmin.numInc vs a in
    (Argmin.max a' = Argmin.max a \/
     (In (Argmin.max a') vs /\ ltb (Argmin.max a) (Argmin.max a') = true)) /\
    Forall (fun v => ltb (Argmin.max a') v = false) vs.
Proof.
  induction vs as [|v vs IH]; intros a; cbv zeta; cbn [fold_left].
  - split; [now left | constructor].
  - destruct (IH (Argmin.numInc a v)) as [Hm Hall]. cbv zeta in Hm, Hall.
    set (a' := fold_left Argmin.numInc vs (Argmin.numInc a v)) in *.
    rewrite max_numInc in Hm.
    destruct (ltb (Argmin.max a) v) eqn:Ev.
    + split.
      * right. destruct Hm as [Hm|[Hin Hlt]].
        -- rewrite Hm. split; [now left | exact Ev].
        -- split; [now right | exact (ltb_trans _ _ _ Ev Hlt)].
      * constructor; [|exact Hall].
        destruct Hm as [Hm|[Hin Hlt]]; [rewrite Hm; apply ltb_irrefl|].
        destruct (ltb (Argmin.max a') v) eqn:E; [|reflexivity].
        pose proof (ltb_trans _ _ _ Hlt E) as C. rewrite ltb_irrefl in C. discriminate.
    + split.
      * destruct Hm as [Hm|[Hin Hlt]]; [now left | right; split; [now right | exact Hlt]].
      * constructor; [|exact Hall].
        destruct Hm as [Hm|[Hin Hlt]]; [now rewrite Hm|].
        destruct (ltb (Argmin.max a') v) eqn:E; [|reflexivity].
        pose proof (ltb_trans _ _ _ Hlt E) as C. congruence.
Qed.

Lemma min_inserts (vs : list N) :
  forall a : Argmin.aggr,
    let a' := fold_left Argmin.numInc vs a in
    (Argmin.min a' = Argmin.min a \/
     (In (Argmin.min a') vs /\ ltb (Argmin.min a') (Argmin.min a) = true)) /\
    Forall (fun v => ltb v (Argmin.min a') = false) vs.
Proof.
  induction vs as [|v vs IH]; intros a; cbv zeta; cbn [fold_left].
  - split; [now left | constructor].
  - destruct (IH (Argmin.numInc a v)) as [Hm Hall]. cbv zeta in Hm, Hall.
    set (a' := fold_left Argmin.numInc vs (Argmin.numInc a v)) in *.
    rewrite min_numInc in Hm.
    destruct (ltb v (Argmin.min a)) eqn:Ev.
    + split.
      * right. destruct Hm as [Hm|[Hin Hlt]].
        -- rewrite Hm. split; [now left | exact Ev].
        -- split; [now right | exact (ltb_trans _ _ _ Hlt Ev)].
      * constructor; [|exact Hall].
        destruct Hm as [Hm|[Hin Hlt]]; [rewrite Hm; apply ltb_irrefl|].
        destruct (ltb v (Argmin.min a')) eqn:E; [|reflexivity].
        pose proof (ltb_trans _ _ _ E Hlt) as C. rewrite ltb_irrefl in C. discriminate.
    + split.
      * destruct Hm as [Hm|[Hin Hlt]]; [now left | right; split; [now right | exact Hlt]].
      * constructor; [|exact Hall].
        destruct Hm as [Hm|[Hin Hlt]]; [now rewrite Hm|].
        destruct (ltb v (Argmin.min a')) eqn:E; [|reflexivity].
        pose proof (ltb_trans _ _ _ E Hlt) as C. congruence.
Qed.

End RangeOfInserts.

(** X10: for a range within the column, after [getStdDev(lo, hi)] the
    count is the number of values read, no value read is greater than
    [max] or less than [min], and [max] ([min]) is one of the values read
    or still the initial [-1 * 10**32] ([10**32]). *)
Theorem getStdDev_range {N : Type} `{JsOrder N} (col : list N) (lo hi : nat) :
  (hi <= length col)%nat ->
  let a := Argmin.getStdDev col lo hi in
  let values := Argmin.slice col lo hi in
  Argmin.count a = Z.of_nat (hi - lo) /\
  Forall (fun v => ltb (Argmin.max a) v = false /\ ltb v (Argmin.min a) = false) values /\
  (Argmin.max a = mul (of_Z (-1)) huge \/ In (Argmin.max a) values) /\
  (Argmin.min a = huge \/ In (Argmin.min a) values).
Proof.
  intros Hhi. cbv zeta. unfold Argmin.getStdDev.
  destruct (max_inserts (Argmin.slice col lo hi) Argmin.emptyAggr) as [Hmax Amax].
  destruct (min_inserts (Argmin.slice col lo hi) Argmin.emptyAggr) as [Hmin Amin].
  cbv zeta in *. split; [|repeat split].
  - rewrite count_fold_numInc, length_slice_col by exact Hhi.
    cbn [Argmin.count Argmin.emptyAggr]. lia.
  - rewrite List.Forall_forall in *. intros v Hv. split; [now apply Amax | now apply Amin].
  - destruct Hmax as [Hm|[Hin _]]; [left; exact Hm | now right].
  - destruct Hmin as [Hm|[Hin _]]; [left; exact Hm | now right].
Qed.

Lemma getStdDev_range_witness :
  let col := fl [3; 1; 2] in
  let a := Argmin.getStdDev col 0 3 in
  let values := Argmin.slice col 0 3 in
  (3 <= length col)%nat /\
  (Argmin.count a = Z.of_nat (3 - 0) /\
   Forall (fun v => ltb (Argmin.max a) v = false /\ ltb v (Argmin.min a) = false) values /\
   (Argmin.max a = mul (of_Z (-1)) huge \/ In (Argmin.max a) values) /\
   (Argmin.min a = huge \/ In (Argmin.min a) values)).
Proof.
  cbv zeta. split; [cbn; lia|].
  apply (getStdDev_range (fl [3; 1; 2]) 0 3). cbn. lia.
Defined.

Section ExactRoundTrip.
Open Scope R_scope.

(** X12: in exact arithmetic, for two accumulators with counts and
    deviations that are not negative, [getTotalVariance] lies between 0
    and the larger of the two deviations. *)
Theorem getTotalVariance_between (aggrA aggrB : Argmin.aggr (N:=R)) :
  (0 <= Argmin.count aggrA)%Z -> (0 <= Argmin.count aggrB)%Z ->
  0 <= Argmin.sd aggrA -> 0 <= Argmin.sd aggrB ->
  0 <= Argmin.getTotalVariance aggrA aggrB <= Rmax (Argmin.sd aggrA) (Argmin.sd aggrB).
Proof.
  intros Ha Hb Hsa Hsb. unfold Argmin.getTotalVariance, Argmin.fuzz.
  cbn [add sub mul div of_Z real_number].
  rewrite plus_IZR. apply IZR_le in Ha, Hb.
  set (x := IZR (Argmin.count aggrA)) in *. set (y := IZR (Argmin.count aggrB)) in *.
  set (sa := Argmin.sd aggrA) in *. set (sb := Argmin.sd aggrB) in *.
  pose proof (Rmax_l sa sb) as Ml. pose proof (Rmax_r sa sb) as Mr.
  set (m := Rmax sa sb) in *.
  assert (Hd : 0 < x + y + 1 / 10000) by lra.
  replace (x / (x + y + 1 / 10000) * sa + y / (x + y + 1 / 10000) * sb)
    with ((x * sa + y * sb) / (x + y + 1 / 10000)) by (field; lra).
  split.
  - apply Rmult_le_pos; [nra | left; now apply Rinv_0_lt_compat].
  - apply Rmult_le_reg_r with (x + y + 1 / 10000); [exact Hd|].
    unfold Rdiv at 1. rewrite Rmult_assoc, Rinv_l by lra. nra.
Qed.

End ExactRoundTrip.

Lemma getTotalVariance_between_witness :
  let aggrA := Argmin.mkAggr 2 0%R 0%R 1%R 0%R 0%R in
  let aggrB := Argmin.mkAggr 3 0%R 0%R 2%R 0%R 0%R in
  (0 <= Argmin.count aggrA)%Z /\ (0 <= Argmin.count aggrB)%Z /\
  (0 <= Argmin.sd aggrA)%R /\ (0 <= Argmin.sd aggrB)%R /\
  (0 <= Argmin.getTotalVariance aggrA aggrB
     <= Rmax (Argmin.sd aggrA) (Argmin.sd aggrB))%R.
Proof.
  cbv zeta. split; [cbn; lia|]. split; [cbn; lia|].
  split; [cbn; lra|]. split; [cbn; lra|].
  apply (getTotalVariance_between
           (Argmin.mkAggr 2 0%R 0%R 1%R 0%R 0%R) (Argmin.mkAggr 3 0%R 0%R 2%R 0%R 0%R));
    cbn; (lia || lra).
Defined.

(** ** More on the split search and its driver *)

Section CutBounds.
Context {N : Type} `{JsNumber N}.
Variable col : list N.

(** Once every row from [min] on has been taken out, the guard of
    [numDec] has kept the count of the upper accumulator at 1. *)
Lemma aboveAt_count_last (min s : nat) :
  (min <= s)%nat -> (s + 1 = length col)%nat ->
  Argmin.count (Argmin.aboveAt (Argmin.initValues col) min s) = 1.
Proof.
  intros Hmin Hs. unfold Argmin.aboveAt, Argmin.getStdDev.
  cbn [Argmin.lastCol Argmin.numRows Argmin.initValues].
  rewrite count_fold_numDec; rewrite count_fold_numInc, !length_slice_col by lia;
    cbn [Argmin.count Argmin.emptyAggr]; lia.
Qed.

End CutBounds.

(** X13: in a table of four rows or more, every cut that [argmin(min, max)]
    returns leaves at least [minBinSize] rows on either side: it is at
    least [min + minBinSize] and at most [numRows - minBinSize]. *)
Theorem argmin_cut_bounds {N : Type} `{JsOrder N} (col : list N) (min max c : nat) :
  (4 <= length col)%nat -> (max <= length col)%nat ->
  Argmin.argmin (Argmin.initValues col) min max = Some c ->
  (min + Nat.sqrt (length col) <= c)%nat /\
  (c + Nat.sqrt (length col) <= length col)%nat /\
  (c <= max)%nat.
Proof.
  intros Hfour Hmax Harg.
  pose proof (argmin_characterised (Argmin.initValues col) min max Hmax) as Hch.
  rewrite Harg in Hch. destruct Hch as (s & -> & Hs & Hcand & _).
  unfold Argmin.candidate in Hcand.
  apply andb_true_iff in Hcand as [Hcand _]. apply andb_true_iff in Hcand as [Hbig _].
  unfold Argmin.bigEnough in Hbig. apply andb_true_iff in Hbig as [Hb Ha].
  apply Z.leb_le in Hb, Ha.
  cbn [Argmin.minBinSize Argmin.initValues] in Hb, Ha.
  rewrite belowAt_count in Hb by lia.
  assert (Hsq : (2 <= Nat.sqrt (length col))%nat) by (apply Nat.sqrt_le_square; lia).
  destruct (Nat.eq_dec (s + 1)%nat (length col)) as [Elast|Hnot].
  - rewrite aboveAt_count_last in Ha by lia. lia.
  - rewrite aboveAt_count in Ha by lia. lia.
Qed.

Lemma argmin_cut_bounds_witness :
  let col := fl [1; 2; 3; 4; 4] in
  (4 <= length col)%nat /\ (5 <= length col)%nat /\
  Argmin.argmin (Argmin.initValues col) 0 5 = Some 3%nat /\
  ((0 + Nat.sqrt (length col) <= 3)%nat /\
   (3 + Nat.sqrt (length col) <= length col)%nat /\
   (3 <= 5)%nat).
Proof.
  cbv zeta.
  assert (E : Argmin.argmin (Argmin.initValues (fl [1; 2; 3; 4; 4])) 0 5 = Some 3%nat)
    by (vm_compute; reflexivity).
  split; [simpl; lia|]. split; [simpl; lia|]. split; [exact E|].
  apply (argmin_cut_bounds (fl [1; 2; 3; 4; 4]) 0 5 3); [simpl; lia | simpl; lia | exact E].
Defined.

(** With three rows the size test passes on the count 1 that the guard
    of [numDec] has kept: the cut 3 leaves no row above it. *)
Lemma argmin_three_rows :
  Argmin.argmin (Argmin.initValues (fl [0; 3; 3])) 0 3 = Some 3%nat.
Proof. vm_compute. reflexivity. Qed.

Section Labels.
Context {N : Type} `{JsNumber N}.
Variable g : Argmin.globals (N:=N).

Lemma restRows_labels (prevCut : option nat) :
  Forall (labelInRange (Argmin.numRows g)) (Argmin.restRows g prevCut).
Proof.
  destruct prevCut as [p|]; [|constructor]. cbn [Argmin.restRows].
  apply List.Forall_forall. intros line Hl. apply in_map_iff in Hl as (i & <- & Hi).
  apply in_seq in Hi. unfold labelInRange. cbn. lia.
Qed.

Lemma splitLoop_labels (fuel : nat) :
  forall (i : nat) (cut prevCut : option nat) (out res : list (nat * nat)),
    Forall (labelInRange (Argmin.numRows g)) out ->
    Argmin.splitLoop g fuel i cut prevCut out = Some res ->
    Forall (labelInRange (Argmin.numRows g)) res.
Proof.
  induction fuel as [|fuel IH]; intros i cut prevCut out res Hout; [discriminate|].
  cbn [Argmin.splitLoop].
  destruct (i <? Argmin.numRows g)%nat.
  - destruct (Argmin.minBinSize g <? Argmin.numRows g - i)%nat.
    + destruct (Argmin.argmin g i (Argmin.numRows g)) as [c|] eqn:Ec.
      * apply IH. apply Forall_app. split; [exact Hout|].
        apply argmin_bounds in Ec.
        apply List.Forall_forall. intros line Hl. apply in_map_iff in Hl as (j & <- & Hj).
        apply in_seq in Hj. unfold labelInRange. cbn. lia.
      * intros [= <-]. apply Forall_app. split; [exact Hout | apply restRows_labels].
    + apply IH. exact Hout.
  - intros [= <-]. apply Forall_app. split; [exact Hout | apply restRows_labels].
Qed.

End Labels.

(** X14: [calcSplits] always ends, and the label it appends to a row is
    greater than the index of the row and at most the number of rows. *)
Theorem calcSplits_labels {N : Type} `{JsNumber N} (col : list N) :
  exists out, Argmin.calcSplits col = Some out /\
    Forall (labelInRange (length col)) out.
Proof.
  destruct (splitLoop_shape (Argmin.initValues col)
              (S (Argmin.numRows (Argmin.initValues col))) 0 None [])
    as (res & Hres & _); [simpl; lia | lia | reflexivity | now left |].
  exists res. split; [exact Hres|].
  exact (splitLoop_labels (Argmin.initValues col) _ _ _ _ _ _ (List.Forall_nil _) Hres).
Qed.

(** ** Values that are not numbers *)

Section NotANumber.

Lemma is_nan_isNaN (x : float) : PrimFloat.is_nan x = true -> isNaN x.
Proof.
  unfold PrimFloat.is_nan, isNaN. rewrite FloatAxioms.eqb_spec. intros Hx.
  apply negb_true_iff in Hx. unfold SFeqb, SFcompare in Hx.
  destruct (Prim2SF x) as [s|s| |s m e]; try reflexivity; try destruct s; try discriminate;
    rewrite Z.compare_refl, Pos.compare_cont_refl in Hx; discriminate.
Qed.

Lemma add_nan_l (x y : float) : isNaN x -> isNaN (x + y).
Proof. unfold isNaN. intros Hx. now rewrite FloatAxioms.add_spec, Hx. Qed.

Lemma add_nan_r (x y : float) : isNaN y -> isNaN (x + y).
Proof. unfold isNaN. intros Hy. rewrite FloatAxioms.add_spec, Hy. now destruct (Prim2SF x). Qed.

Lemma sub_nan_l (x y : float) : isNaN x -> isNaN (x - y).
Proof. unfold isNaN. intros Hx. now rewrite FloatAxioms.sub_spec, Hx. Qed.

Lemma mul_nan_l (x y : float) : isNaN x -> isNaN (x * y).
Proof. unfold isNaN. intros Hx. now rewrite FloatAxioms.mul_spec, Hx. Qed.

Lemma mul_nan_r (x y : float) : isNaN y -> isNaN (x * y).
Proof. unfold isNaN. intros Hy. rewrite FloatAxioms.mul_spec, Hy. now destruct (Prim2SF x). Qed.

Lemma div_nan_l (x y : float) : isNaN x -> isNaN (x / y).
Proof. unfold isNaN. intros Hx. now rewrite FloatAxioms.div_spec, Hx. Qed.

Lemma sqrt_nan (x : float) : isNaN x -> isNaN (PrimFloat.sqrt x).
Proof. unfold isNaN. intros Hx. now rewrite FloatAxioms.sqrt_spec, Hx. Qed.

Lemma ltb_nan_l (x y : float) : isNaN x -> PrimFloat.ltb x y = false.
Proof. unfold isNaN. intros Hx. now rewrite FloatAxioms.ltb_spec, Hx. Qed.

Lemma numInc_M2_nan (a : Argmin.aggr) (v : float) :
  isNaN (Argmin.M2 a) \/ isNaN v -> isNaN (Argmin.M2 (Argmin.numInc a v)).
Proof.
  unfold Argmin.numInc. cbn [Argmin.M2 add sub mul div float_number].
  intros [Hm|Hv]; [now apply add_nan_l|].
  apply add_nan_r, mul_nan_l, sub_nan_l. exact Hv.
Qed.

Lemma inserts_M2_nan (vs : list float) :
  forall a : Argmin.aggr,
    isNaN (Argmin.M2 a) \/ Exists isNaN vs ->
    isNaN (Argmin.M2 (fold_left Argmin.numInc vs a)).
Proof.
  induction vs as [|v vs IH]; intros a Hnan; cbn [fold_left].
  - destruct Hnan as [Hm|Hex]; [exact Hm | inversion Hex].
  - apply IH. destruct Hnan as [Hm|Hex].
    + left. apply numInc_M2_nan. now left.
    + apply Exists_cons in Hex as [Hv|Hex]; [|now right].
      left. apply numInc_M2_nan. now right.
Qed.

Lemma numInc_sd (a : Argmin.aggr (N:=float)) (v : float) :
  2 <= Argmin.count (Argmin.numInc a v) ->
  Argmin.sd (Argmin.numInc a v)
  = Argmin.stddev (Argmin.M2 (Argmin.numInc a v)) (Argmin.count (Argmin.numInc a v)).
Proof.
  unfold Argmin.numInc. cbn [Argmin.count Argmin.sd Argmin.M2]. intros Hc.
  destruct (Z.leb_spec 2 (Argmin.count a + 1)); [reflexivity | lia].
Qed.

Lemma inserts_sd_nan (vs : list float) :
  (2 <= length vs)%nat -> Exists isNaN vs ->
  isNaN (Argmin.sd (fold_left Argmin.numInc vs Argmin.emptyAggr)).
Proof.
  intros Hlen Hex.
  destruct (exists_last (l := vs)) as (front & v & ->);
    [intros ->; simpl in Hlen; lia|].
  pose proof (inserts_M2_nan (front ++ [v]) Argmin.emptyAggr (or_intror Hex)) as Hm.
  pose proof (count_fold_numInc (front ++ [v]) (Argmin.emptyAggr (N:=float))) as Hc.
  rewrite fold_left_app in *. cbn [fold_left] in *.
  rewrite numInc_sd.
  - unfold Argmin.stddev. cbn [sqrt div float_number]. now apply sqrt_nan, div_nan_l.
  - rewrite Hc. cbn [Argmin.count Argmin.emptyAggr]. lia.
Qed.

End NotANumber.

Section NeverWide.
Context {N : Type} `{JsNumber N}.
Variable g : Argmin.globals (N:=N).
Hypothesis narrow : forall a : Argmin.aggr, Argmin.wideEnough g a = false.

Lemma scanStep_keeps_cut (st : Argmin.scan) (s : nat) (v : N) :
  Argmin.cut (Argmin.scanStep g st s v) = Argmin.cut st.
Proof.
  unfold Argmin.scanStep. rewrite narrow.
  now destruct (Argmin.bigEnough g _ _).
Qed.

Lemma scanFrom_keeps_cut (vs : list N) :
  forall (s : nat) (st : Argmin.scan),
    Argmin.cut (Argmin.scanFrom g vs s st) = Argmin.cut st.
Proof.
  induction vs as [|v vs IH]; intros s st; cbn [Argmin.scanFrom]; [reflexivity|].
  now rewrite IH, scanStep_keeps_cut.
Qed.

Lemma argmin_never_wide (min max : nat) : Argmin.argmin g min max = None.
Proof.
  unfold Argmin.argmin. destruct (2 * Argmin.minBinSize g <? max - min)%nat; [|reflexivity].
  now rewrite scanFrom_keeps_cut.
Qed.

End NeverWide.

(** X15: on floats, when the dom column has two rows or more and one of
    its values is [NaN] (what [Number] gives for a field such as "?"),
    [minRise] is [NaN], every range test fails, [argmin] finds no cut for
    any range, and [calcSplits] writes every row once, in order, with the
    number of rows as its label. *)
Theorem calcSplits_with_NaN (col : list float) :
  (2 <= length col)%nat -> existsb PrimFloat.is_nan col = true ->
  (forall min max : nat, Argmin.argmin (Argmin.initValues col) min max = None) /\
  Argmin.calcSplits col = Some (map (fun i => (i, length col)) (seq 0 (length col))).
Proof.
  intros Hlen Hnan.
  assert (Hex : Exists isNaN col).
  { apply existsb_exists in Hnan as (v & Hin & Hv).
    apply List.Exists_exists. exists v. split; [exact Hin | now apply is_nan_isNaN]. }
  assert (Hrise : isNaN (Argmin.minRise (Argmin.initValues col))).
  { cbn [Argmin.minRise Argmin.initValues mul float_number]. apply mul_nan_r.
    unfold Argmin.getStdDev, Argmin.slice.
    rewrite Nat.sub_0_r, firstn_all. cbn [skipn].
    now apply inserts_sd_nan. }
  assert (Hnarrow : forall a, Argmin.wideEnough (Argmin.initValues col) a = false).
  { intros a. unfold Argmin.wideEnough. cbn [ltb float_number]. now apply ltb_nan_l. }
  assert (Harg : forall min max, Argmin.argmin (Argmin.initValues col) min max = None)
    by (intros min max; now apply argmin_never_wide).
  split; [exact Harg|].
  unfold Argmin.calcSplits, Argmin.calcSplitsWith. cbn [Argmin.splitLoop].
  cbn [Argmin.numRows Argmin.minBinSize Argmin.initValues].
  destruct (Nat.ltb_spec 0 (length col)); [|lia].
  pose proof (Nat.sqrt_lt_lin (length col) ltac:(lia)) as Hsq.
  destruct (Nat.ltb_spec (Nat.sqrt (length col)) (length col - 0)); [|lia].
  fold (Argmin.initValues col). rewrite Harg.
  cbn [Argmin.restRows app Argmin.numRows Argmin.initValues].
  now rewrite Nat.sub_0_r.
Qed.

Lemma calcSplits_with_NaN_witness :
  let col := [1%float; nan; 3%float] in
  (2 <= length col)%nat /\ existsb PrimFloat.is_nan col = true /\
  (forall min max : nat, Argmin.argmin (Argmin.initValues col) min max = None) /\
  Argmin.calcSplits col = Some (map (fun i => (i, length col)) (seq 0 (length col))).
Proof.
  cbv zeta. split; [cbn; lia|]. split; [reflexivity|].
  apply (calcSplits_with_NaN [1%float; nan; 3%float]); [cbn; lia | reflexivity].
Defined.

(** ** More on Pipe3.ts *)

Section MarkFacts.
Local Open Scope nat_scope.

Lemma nth_error_lookup {A : Type} (l : list A) (i : nat) : nth_error l i = l !! i.
Proof. revert i. induction l as [|x l IH]; intros [|i]; cbn; auto. Qed.

Lemma indexOf_complete (q : Q) (n : nat) :
  (q == inject_Z (Z.of_nat n))%Q -> Pipe3.indexOf q = Some n.
Proof.
  intros E. unfold Pipe3.indexOf.
  assert (Ef : Qfloor q = Z.of_nat n) by (rewrite (Qfloor_comp _ _ E); apply Qfloor_Z).
  rewrite Ef. apply Qeq_bool_iff in E. rewrite E.
  destruct (Z.leb_spec 0%Z (Z.of_nat n)); [|lia]. cbn. now rewrite Nat2Z.id.
Qed.

Lemma indexOf_none_negative (q : Q) : (q < 0)%Q -> Pipe3.indexOf q = None.
Proof.
  intros Hq. destruct (Pipe3.indexOf q) as [n|] eqn:E; [|reflexivity].
  apply indexOf_sound in E. rewrite E in Hq.
  assert (inject_Z 0 <= inject_Z (Z.of_nat n))%Q by (rewrite <- Zle_Qle; lia).
  change (inject_Z 0) with 0%Q in *.
  exfalso. lra.
Qed.

Lemma indexOf_compat (q q' : Q) : (q == q')%Q -> Pipe3.indexOf q = Pipe3.indexOf q'.
Proof.
  intros E. destruct (Pipe3.indexOf q') as [n|] eqn:E'.
  - apply indexOf_complete. rewrite E. now apply indexOf_sound.
  - destruct (Pipe3.indexOf q) as [n|] eqn:E1; [|reflexivity].
    apply indexOf_sound in E1. rewrite E in E1. apply indexOf_complete in E1. congruence.
Qed.

Lemma rowAt_compat (d : list (list string)) (q q' : Q) :
  (q == q')%Q -> Pipe3.rowAt d q = Pipe3.rowAt d q'.
Proof. intros E. unfold Pipe3.rowAt. now rewrite (indexOf_compat q q' E). Qed.

Lemma rowAt_index (d : list (list string)) (q : Q) (row : list string) :
  Pipe3.rowAt d q = Some row ->
  exists n, Pipe3.indexOf q = Some n /\ d !! n = Some row.
Proof.
  unfold Pipe3.rowAt. destruct (Pipe3.indexOf q) as [n|]; [|discriminate].
  rewrite nth_error_lookup. eauto.
Qed.

Lemma band_compat (t : Pipe3.table) (lo lo' hi hi' : Q) :
  (lo == lo')%Q -> (hi == hi')%Q -> Pipe3.band t lo hi = Pipe3.band t lo' hi'.
Proof.
  intros El Eh. unfold Pipe3.band.
  rewrite (rowAt_compat _ lo lo' El), (rowAt_compat _ hi hi' Eh).
  assert (E1 : Qeq_bool lo 1 = Qeq_bool lo' 1).
  { destruct (Qeq_bool lo' 1) eqn:E.
    - apply Qeq_bool_iff. apply Qeq_bool_iff in E. now rewrite El.
    - destruct (Qeq_bool lo 1) eqn:E2; [|reflexivity].
      apply Qeq_bool_iff in E2. rewrite El in E2. apply Qeq_bool_iff in E2. congruence. }
  now rewrite E1.
Qed.

Variables (cols rows c : Z) (b : string).

Let mk (d : list (list string)) : Pipe3.table := Pipe3.mkTable cols rows c d.

(** The rows [a .. a + k - 1] relabelled. *)
Let relabelFrom (a k : nat) (d : list (list string)) : list (list string) :=
  imap (fun i row =>
          if (a <=? i)%nat && (i <? a + k)%nat then Pipe3.setCell row cols b else row) d.

Lemma writeBands (lo : Q) (l k : nat) :
  Pipe3.indexOf lo = Some l ->
  forall (s : nat) (d : list (list string)),
    (l + s + k <= length d)%nat ->
    fold_left (Pipe3.writeBand b)
      (map (fun j => (lo + inject_Z (Z.of_nat j))%Q) (seq s k)) (Pipe3.Returned (mk d))
    = Pipe3.Returned (mk (relabelFrom (l + s) k d)).
Proof.
  intros El. apply indexOf_sound in El.
  induction k as [|k IH]; intros s d Hlen; cbn [seq map fold_left].
  - f_equal. unfold mk. f_equal. apply list_eq. intros i. unfold relabelFrom.
    rewrite list_lookup_imap. destruct (d !! i) as [row|]; [|reflexivity].
    cbn [fmap option_fmap option_map].
    destruct (Nat.leb_spec (l + s) i), (Nat.ltb_spec i (l + s + 0)); cbn; try reflexivity; lia.
  - assert (Ei : Pipe3.indexOf (lo + inject_Z (Z.of_nat s)) = Some (l + s)%nat).
    { apply indexOf_complete. rewrite El, Nat2Z.inj_add, inject_Z_plus. reflexivity. }
    destruct (lookup_lt_is_Some_2 d (l + s)) as [row Erow]; [lia|].
    unfold Pipe3.writeBand at 2. rewrite Ei. cbn [Pipe3.data mk].
    rewrite nth_error_lookup, Erow. cbn [Pipe3.cols Pipe3.rows Pipe3.c].
    fold (mk (<[(l + s)%nat := Pipe3.setCell row cols b]> d)).
    rewrite IH by (rewrite length_insert; lia).
    f_equal. unfold mk. f_equal. apply list_eq. intros i. unfold relabelFrom.
    rewrite !list_lookup_imap.
    destruct (Nat.eq_dec i (l + s)) as [->|Hne].
    + rewrite list_lookup_insert_eq by lia. rewrite Erow. cbn [fmap option_fmap option_map].
      destruct (Nat.leb_spec (l + S s) (l + s)); [lia|].
      destruct (Nat.leb_spec (l + s) (l + s)); [|lia].
      destruct (Nat.ltb_spec (l + s) (l + s + S k)); [|lia]. reflexivity.
    + rewrite list_lookup_insert_ne by lia.
      destruct (d !! i) as [r|]; [|reflexivity]. cbn [fmap option_fmap option_map].
      destruct (Nat.leb_spec (l + S s) i), (Nat.leb_spec (l + s) i),
               (Nat.ltb_spec i (l + S s + k)), (Nat.ltb_spec i (l + s + S k));
        cbn; try reflexivity; lia.
Qed.

Lemma mark_relabels (d : list (list string)) (lo hi : Q) (l h : nat) :
  Pipe3.indexOf lo = Some l -> Pipe3.indexOf hi = Some h -> (h < length d)%nat ->
  Pipe3.band (mk d) lo hi = Some b ->
  Pipe3.mark (mk d) lo hi = Pipe3.Returned (mk (relabel cols b l h d)).
Proof.
  intros El Eh Hh Eb. unfold Pipe3.mark. rewrite Eb. unfold Pipe3.upTo.
  pose proof (indexOf_sound _ _ El) as Ql. pose proof (indexOf_sound _ _ Eh) as Qh.
  destruct (Qle_bool lo hi) eqn:Ele.
  - apply Qle_bool_iff in Ele. rewrite Ql, Qh in Ele. rewrite <- Zle_Qle in Ele.
    assert (Ef : Qfloor (hi - lo) = Z.of_nat (h - l)).
    { assert (E : (hi - lo == inject_Z (Z.of_nat (h - l)))%Q).
      { rewrite Ql, Qh, Nat2Z.inj_sub by lia. unfold Z.sub.
        rewrite inject_Z_plus, inject_Z_opp. reflexivity. }
      rewrite (Qfloor_comp _ _ E). apply Qfloor_Z. }
    rewrite Ef, Nat2Z.id.
    rewrite (writeBands lo l (h - l + 1) El 0 d) by lia.
    f_equal. unfold mk. f_equal. apply list_eq. intros i. unfold relabelFrom, relabel.
    rewrite !list_lookup_imap. destruct (d !! i) as [r|]; [|reflexivity].
    cbn [fmap option_fmap option_map].
    destruct (Nat.leb_spec (l + 0) i), (Nat.leb_spec l i),
             (Nat.ltb_spec i (l + 0 + (h - l + 1))), (Nat.leb_spec i h);
      cbn; try reflexivity; lia.
  - cbn [fold_left]. f_equal. unfold mk. f_equal. apply list_eq. intros i. unfold relabel.
    rewrite list_lookup_imap. destruct (d !! i) as [r|]; [|reflexivity].
    cbn [fmap option_fmap option_map].
    assert (Hlt : (h < l)%nat).
    { destruct (Nat.lt_ge_cases h l) as [Hlt|Hge]; [exact Hlt|].
      assert (Hq : (lo <= hi)%Q) by (rewrite Ql, Qh, <- Zle_Qle; lia).
      apply Qle_bool_iff in Hq. congruence. }
    destruct (Nat.leb_spec l i), (Nat.leb_spec i h); cbn; try reflexivity; lia.
Qed.

End MarkFacts.


Section CutsResult.
Variable Number : string -> option Q.
Variable t : Pipe3.table.
Variable high : Q.

(** A call that returns normally has ended in the two calls of [mark],
    for the [low] it was called with or for a [low] that a usable cut
    gave, which is never 1. *)
Lemma cuts_returned (fuel : nat) :
  forall (low : Q) (pre : string) (log : list string) (t' : Pipe3.table),
    Pipe3.cuts Number fuel t low high pre = Some (log, Pipe3.Returned t') ->
    exists (lowf : Q) (row : list string) (t1 : Pipe3.table),
      (lowf = low \/ ~ (lowf == 1)%Q) /\
      Pipe3.rowAt (Pipe3.data t) lowf = Some row /\
      Pipe3.mark t 1 (lowf - 1) = Pipe3.Returned t1 /\
      Pipe3.mark t1 lowf high = Pipe3.Returned t'.
Proof.
  induction fuel as [|fuel IH]; intros low pre log t'; [discriminate|].
  cbn [Pipe3.cuts].
  destruct (Pipe3.rowAt (Pipe3.data t) low) as [row|] eqn:Erow; [|discriminate].
  assert (Hfin : forall line,
    Some ([line],
          match Pipe3.mark t 1 (low - 1) with
          | Pipe3.Returned t1 => Pipe3.mark t1 low high
          | Pipe3.Thrown => Pipe3.Thrown
          end) = Some (log, Pipe3.Returned t') ->
    exists (lowf : Q) (row : list string) (t1 : Pipe3.table),
      (lowf = low \/ ~ (lowf == 1)%Q) /\
      Pipe3.rowAt (Pipe3.data t) lowf = Some row /\
      Pipe3.mark t 1 (lowf - 1) = Pipe3.Returned t1 /\
      Pipe3.mark t1 lowf high = Pipe3.Returned t').
  { intros line E. injection E as _ E.
    destruct (Pipe3.mark t 1 (low - 1)) as [t1|] eqn:E1; [|discriminate].
    exists low, row, t1. auto. }
  destruct (Pipe3.exceedsEnough (high - low) (Pipe3.rows t)); [|apply Hfin].
  destruct (Pipe3.usable _ _) eqn:Eu; [|apply Hfin].
  destruct (usable_some _ _ Eu) as (q & Eq & Hnz & _). rewrite Eq.
  destruct (Pipe3.cuts Number fuel t (q + 1) high (pre ++ "|..")) as [[log' r]|] eqn:Erec;
    [|discriminate].
  intros [= _ ->].
  destruct (IH _ _ _ _ Erec) as (lowf & rowf & t1 & Hlow & Hrow & H1 & H2).
  exists lowf, rowf, t1. repeat split; try assumption.
  right. destruct Hlow as [->|Hne]; [|exact Hne].
  intros E. apply Hnz. lra.
Qed.

End CutsResult.

Lemma band_same_rows (t t1 : Pipe3.table) (lo hi : Q) :
  Pipe3.c t1 = Pipe3.c t ->
  Pipe3.rowAt (Pipe3.data t1) lo = Pipe3.rowAt (Pipe3.data t) lo ->
  Pipe3.rowAt (Pipe3.data t1) hi = Pipe3.rowAt (Pipe3.data t) hi ->
  Pipe3.band t1 lo hi = Pipe3.band t lo hi.
Proof. intros Ec El Eh. unfold Pipe3.band. now rewrite Ec, El, Eh. Qed.

Lemma relabel_outside (cols : Z) (b : string) (l h i : nat) (d : list (list string)) :
  (i < l \/ h < i)%nat -> relabel cols b l h d !! i = d !! i.
Proof.
  intros Hi. unfold relabel. rewrite list_lookup_imap.
  destruct (d !! i) as [r|]; [|reflexivity]. cbn [fmap option_fmap option_map].
  destruct (Nat.leb_spec l i), (Nat.leb_spec i h); cbn; try reflexivity; lia.
Qed.

Lemma relabel_inside (cols : Z) (b : string) (l h i : nat) (d : list (list string)) :
  (l <= i <= h)%nat ->
  relabel cols b l h d !! i = (fun row => Pipe3.setCell row cols b) <$> d !! i.
Proof.
  intros Hi. unfold relabel. rewrite list_lookup_imap.
  destruct (d !! i) as [r|]; [|reflexivity]. cbn [fmap option_fmap option_map].
  destruct (Nat.leb_spec l i), (Nat.leb_spec i h); cbn; try reflexivity; lia.
Qed.

Lemma length_relabel (cols : Z) (b : string) (l h : nat) (d : list (list string)) :
  length (relabel cols b l h d) = length d.
Proof. apply length_imap. Qed.

Lemma rowAt_lookup (d : list (list string)) (n : nat) :
  Pipe3.rowAt d (inject_Z (Z.of_nat n)) = d !! n.
Proof.
  unfold Pipe3.rowAt. rewrite (indexOf_complete _ n) by reflexivity.
  apply nth_error_lookup.
Qed.

Lemma mark_needs_band (t t1 : Pipe3.table) (lo hi : Q) :
  Pipe3.mark t lo hi = Pipe3.Returned t1 -> exists b, Pipe3.band t lo hi = Some b.
Proof.
  unfold Pipe3.mark. destruct (Pipe3.band t lo hi) as [b|]; [eauto | discriminate].
Qed.

Lemma dataSet_fields (newData : list (list string)) (t : Pipe3.table) :
  Pipe3.dataSet newData = Some t ->
  t = Pipe3.mkTable (Pipe3.cols t) (Pipe3.rows t) (Pipe3.c t) newData /\
  Pipe3.rows t = Z.of_nat (length newData) - 1 /\ (1 <= length newData)%nat.
Proof.
  unfold Pipe3.dataSet. destruct newData as [|row0 rest]; [discriminate|].
  intros [= <-]. cbn [Pipe3.data Pipe3.rows Pipe3.c Pipe3.cols length].
  repeat split; lia.
Qed.

Section CellFacts.
Local Open Scope nat_scope.

Lemma setCell_same (row : list string) (j : Z) (b : string) :
  (0 <= j)%Z -> Pipe3.cellAt (Pipe3.setCell row j b) j = Some b.
Proof.
  intros Hj. unfold Pipe3.cellAt, Pipe3.setCell.
  destruct (Z.ltb_spec j 0); [lia|]. rewrite nth_error_lookup.
  destruct (Nat.ltb_spec (Z.to_nat j) (length row)) as [Hin|Hout].
  - now apply list_lookup_insert_eq.
  - rewrite lookup_app_r by lia. rewrite lookup_app_r by (rewrite repeat_length; lia).
    rewrite repeat_length. now rewrite Nat.sub_diag.
Qed.

Lemma setCell_other (row : list string) (j j' : Z) (b : string) :
  j' <> j ->
  Pipe3.str (Pipe3.cellAt (Pipe3.setCell row j b) j') = Pipe3.str (Pipe3.cellAt row j').
Proof.
  intros Hne. unfold Pipe3.cellAt, Pipe3.setCell.
  destruct (Z.ltb_spec j' 0); [reflexivity|].
  destruct (Z.ltb_spec j 0); [reflexivity|].
  rewrite !nth_error_lookup.
  destruct (Nat.ltb_spec (Z.to_nat j) (length row)) as [Hin|Hout].
  - rewrite list_lookup_insert_ne by lia. reflexivity.
  - destruct (Nat.lt_ge_cases (Z.to_nat j') (length row)) as [Hin'|Hout'].
    + now rewrite lookup_app_l by lia.
    + rewrite lookup_app_r by lia.
      rewrite (lookup_ge_None_2 row) by lia.
      destruct (Nat.lt_ge_cases (Z.to_nat j') (Z.to_nat j)) as [Hlt|Hge].
      * rewrite lookup_app_l by (rewrite repeat_length; lia).
        rewrite <- nth_error_lookup, nth_error_repeat by lia. reflexivity.
      * rewrite lookup_ge_None_2; [reflexivity|].
        rewrite length_app, repeat_length. cbn [length]. lia.
Qed.

End CellFacts.

(** X16: for rows [l <= h] of a table whose label field is not negative,
    [mark] throws when row [h] does not exist; otherwise it returns, the
    table has as many rows as before, every row from [l] to [h] reads the
    band in its label field, every other row is as it was, and no other
    field of any row reads differently. *)
Theorem mark_writes_band (t : Pipe3.table) (l h : nat) :
  0 <= Pipe3.cols t -> (l <= h)%nat ->
  let low := inject_Z (Z.of_nat l) in
  let high := inject_Z (Z.of_nat h) in
  if (h <? length (Pipe3.data t))%nat then
    exists (b : string) (d' : list (list string)),
      Pipe3.band t low high = Some b /\
      Pipe3.mark t low high =
        Pipe3.Returned (Pipe3.mkTable (Pipe3.cols t) (Pipe3.rows t) (Pipe3.c t) d') /\
      length d' = length (Pipe3.data t) /\
      forall (i : nat) (row : list string),
        Pipe3.data t !! i = Some row ->
        exists row', d' !! i = Some row' /\
          (forall j, j <> Pipe3.cols t ->
             Pipe3.str (Pipe3.cellAt row' j) = Pipe3.str (Pipe3.cellAt row j)) /\
          if (l <=? i)%nat && (i <=? h)%nat
          then Pipe3.cellAt row' (Pipe3.cols t) = Some b
          else row' = row
  else Pipe3.mark t low high = Pipe3.Thrown.
Proof.
  intros Hcols Hlh. cbv zeta.
  destruct (Nat.ltb_spec h (length (Pipe3.data t))) as [Hin|Hout].
  - destruct (lookup_lt_is_Some_2 (Pipe3.data t) h) as [rh Erh]; [lia|].
    destruct (lookup_lt_is_Some_2 (Pipe3.data t) l) as [rl Erl]; [lia|].
    assert (Hb : exists b, Pipe3.band t (inject_Z (Z.of_nat l)) (inject_Z (Z.of_nat h)) = Some b).
    { unfold Pipe3.band. rewrite !rowAt_lookup, Erh, Erl.
      destruct (Qeq_bool _ _); eauto. }
    destruct Hb as [b Eb]. exists b, (relabel (Pipe3.cols t) b l h (Pipe3.data t)).
    split; [exact Eb|]. split.
    { destruct t as [cols rows c d]. cbn [Pipe3.cols Pipe3.rows Pipe3.c Pipe3.data] in *.
      apply mark_relabels; [now apply indexOf_complete | now apply indexOf_complete
                            | exact Hin | exact Eb]. }
    split; [apply length_relabel|].
    intros i row Erow.
    destruct (Nat.leb_spec l i) as [Hli|Hli]; [destruct (Nat.leb_spec i h) as [Hih|Hih]|];
      cbn [andb].
    + exists (Pipe3.setCell row (Pipe3.cols t) b).
      rewrite relabel_inside, Erow by lia.
      split; [reflexivity|]. split; [|now apply setCell_same].
      intros j Hj. now apply setCell_other.
    + exists row. rewrite relabel_outside, Erow by lia. auto.
    + exists row. rewrite relabel_outside, Erow by lia. auto.
  - unfold Pipe3.mark, Pipe3.band. rewrite !rowAt_lookup.
    rewrite (lookup_ge_None_2 _ h) by lia.
    destruct (Qeq_bool _ _); [reflexivity|]. now destruct (Pipe3.data t !! l).
Qed.


(** [mark] and [cuts] never change the number of rows of the table nor
    its fields [cols], [rows] and [c]. *)
Definition sameShape (t t' : Pipe3.table) : Prop :=
  Pipe3.cols t' = Pipe3.cols t /\ Pipe3.rows t' = Pipe3.rows t /\
  Pipe3.c t' = Pipe3.c t /\ length (Pipe3.data t') = length (Pipe3.data t).

Lemma writeBands_shape (b : string) (rows : list Q) :
  forall (acc : Pipe3.completion) (t' : Pipe3.table),
    fold_left (Pipe3.writeBand b) rows acc = Pipe3.Returned t' ->
    exists t0, acc = Pipe3.Returned t0 /\ sameShape t0 t'.
Proof.
  induction rows as [|i rows IH]; intros acc t'; cbn [fold_left].
  - intros ->. exists t'. now repeat split.
  - intros Hfold. destruct (IH _ _ Hfold) as (t1 & E1 & Hs1).
    unfold Pipe3.writeBand in E1. destruct acc as [t0|]; [|discriminate].
    exists t0. split; [reflexivity|].
    destruct (Pipe3.indexOf i) as [n|]; [|discriminate].
    destruct (nth_error (Pipe3.data t0) n) as [row|]; [|discriminate].
    injection E1 as <-. unfold sameShape in *.
    cbn [Pipe3.cols Pipe3.rows Pipe3.c Pipe3.data] in Hs1.
    rewrite length_insert in Hs1. exact Hs1.
Qed.

Lemma mark_keeps_shape (t t' : Pipe3.table) (lo hi : Q) :
  Pipe3.mark t lo hi = Pipe3.Returned t' -> sameShape t t'.
Proof.
  unfold Pipe3.mark. destruct (Pipe3.band t lo hi) as [b|]; [|discriminate].
  intros Hfold. apply writeBands_shape in Hfold as (t0 & [= <-] & Hs). exact Hs.
Qed.

Lemma cuts_keeps_shape (Number : string -> option Q) (t t' : Pipe3.table)
    (fuel : nat) (low high : Q) (pre : string) (log : list string) :
  Pipe3.cuts Number fuel t low high pre = Some (log, Pipe3.Returned t') ->
  sameShape t t'.
Proof.
  intros Hcuts.
  destruct (cuts_returned Number t _ fuel _ _ _ _ Hcuts)
    as (lowf & row & t1 & _ & _ & H1 & H2).
  apply mark_keeps_shape in H1, H2. unfold sameShape in *.
  destruct H1 as (A1 & A2 & A3 & A4). destruct H2 as (B1 & B2 & B3 & B4).
  repeat split; congruence.
Qed.

(** X17: a call [cuts(input, 0, high, pre)] that does not go on to a
    further call, because [high] is not more than [enough] rows away or
    because the cut field of row 0 is [NaN], zero or above [rows], writes
    its one diagnostic line and throws: [mark(input, 1, -1)] reads
    [input.data[-1]]. *)
Theorem cuts_needs_first_cut (Number : string -> option Q) (t : Pipe3.table)
    (high : Q) (pre : string) (fuel : nat) (row0 : list string) :
  nth_error (Pipe3.data t) 0 = Some row0 ->
  Pipe3.exceedsEnough (high - 0) (Pipe3.rows t) &&
    Pipe3.usable (Pipe3.numberAt Number row0 (Pipe3.cols t)) (Pipe3.rows t) = false ->
  Pipe3.cuts Number (S fuel) t 0 high pre =
    Some ([(pre ++ Pipe3.str (Pipe3.cellAt row0 (Pipe3.c t)))%string], Pipe3.Thrown).
Proof.
  intros Hrow Hno. cbn [Pipe3.cuts].
  assert (E0 : Pipe3.rowAt (Pipe3.data t) 0 = Some row0) by exact Hrow.
  rewrite E0.
  assert (Em : Pipe3.mark t 1 (0 - 1) = Pipe3.Thrown).
  { unfold Pipe3.mark, Pipe3.band. change (Qeq_bool 1 1) with true. cbv iota.
    unfold Pipe3.rowAt. rewrite (indexOf_none_negative (0 - 1)) by reflexivity.
    reflexivity. }
  rewrite Em.
  destruct (Pipe3.exceedsEnough (high - 0) (Pipe3.rows t)); [|reflexivity].
  cbn [andb] in Hno. rewrite Hno. reflexivity.
Qed.

(** X18: on a table whose cut fields are integers, when the call
    [cuts(csv, 0, csv.rows, pre)] of the script returns normally, there is
    one row [low >= 2] such that the rows [1 .. low - 1] carry the band of
    [1 .. low - 1] and the rows [low .. rows] carry the band of
    [low .. rows], both read off the table as it was; row 0 is as it was.
    However many cuts were followed, two bands are written. *)
Theorem cuts_two_bands (Number : string -> option Q) (newData : list (list string))
    (t t' : Pipe3.table) (fuel : nat) (pre : string) (log : list string) :
  Pipe3.dataSet newData = Some t ->
  integerCuts Number t ->
  Pipe3.cuts Number fuel t 0 (inject_Z (Pipe3.rows t)) pre = Some (log, Pipe3.Returned t') ->
  exists (low : nat) (b1 b2 : string),
    (2 <= low < length newData)%nat /\
    Pipe3.band t 1 (inject_Z (Z.of_nat (low - 1))) = Some b1 /\
    Pipe3.band t (inject_Z (Z.of_nat low)) (inject_Z (Pipe3.rows t)) = Some b2 /\
    t' = Pipe3.mkTable (Pipe3.cols t) (Pipe3.rows t) (Pipe3.c t)
           (relabel (Pipe3.cols t) b2 low (length newData - 1)
              (relabel (Pipe3.cols t) b1 1 (low - 1) newData)) /\
    Pipe3.data t' !! 0%nat = newData !! 0%nat.
Proof.
  intros Hset _ Hcuts.
  destruct (dataSet_fields newData t Hset) as (Et & Erows & Hlen).
  set (cols := Pipe3.cols t) in *. set (c := Pipe3.c t) in *.
  assert (Hd : Pipe3.data t = newData) by (rewrite Et; reflexivity).
  destruct (cuts_returned Number t _ fuel _ _ _ _ Hcuts)
    as (lowf & row & t1 & Hlow & Hrow & H1 & H2).
  destruct (mark_needs_band _ _ _ _ H1) as [b1 Eb1].
  assert (Hprev : exists rh, Pipe3.rowAt (Pipe3.data t) (lowf - 1) = Some rh).
  { unfold Pipe3.band in Eb1. change (Qeq_bool 1 1) with true in Eb1. cbv iota in Eb1.
    destruct (Pipe3.rowAt (Pipe3.data t) (lowf - 1)) as [rh|]; [eauto | discriminate]. }
  destruct Hprev as [rh Erh].
  destruct (rowAt_index _ _ _ Hrow) as (low & Elow & Hl).
  destruct (rowAt_index _ _ _ Erh) as (m & Em & Hm).
  pose proof (indexOf_sound _ _ Elow) as Qlow. pose proof (indexOf_sound _ _ Em) as Qm.
  assert (Elm : low = S m).
  { rewrite Qlow in Qm.
    assert (E : (inject_Z (Z.of_nat low - 1) == inject_Z (Z.of_nat m))%Q).
    { rewrite <- Qm. unfold Z.sub. rewrite inject_Z_plus, inject_Z_opp. reflexivity. }
    rewrite inject_Z_injective in E. lia. }
  assert (Htwo : (2 <= low)%nat).
  { destruct Hlow as [->|Hne].
    - exfalso. rewrite (indexOf_none_negative (0 - 1)) in Em by reflexivity. discriminate.
    - destruct (Nat.eq_dec low 1%nat) as [->|]; [|lia]. exfalso. apply Hne. exact Qlow. }
  rewrite Hd in Hl, Hm.
  pose proof (lookup_lt_Some _ _ _ Hl) as Llow.
  assert (Eh : Pipe3.indexOf (inject_Z (Pipe3.rows t)) = Some (length newData - 1)%nat).
  { apply indexOf_complete. rewrite Erows.
    replace (Z.of_nat (length newData) - 1) with (Z.of_nat (length newData - 1)) by lia.
    reflexivity. }
  (* the first mark *)
  rewrite Et in H1.
  rewrite (mark_relabels cols (Pipe3.rows t) c b1 newData 1 (lowf - 1) 1 m) in H1;
    [| reflexivity | exact Em | lia | rewrite <- Et; exact Eb1].
  injection H1 as <-.
  (* the second mark *)
  destruct (mark_needs_band _ _ _ _ H2) as [b2 Eb2].
  rewrite (mark_relabels cols (Pipe3.rows t) c b2 _ lowf (inject_Z (Pipe3.rows t))
             low (length newData - 1)) in H2;
    [| exact Elow | exact Eh | rewrite length_relabel; lia | exact Eb2].
  injection H2 as <-.
  exists low, b1, b2. subst low. rewrite Nat.sub_succ, Nat.sub_0_r.
  split; [lia|]. split.
  { rewrite <- Eb1. apply band_compat; [reflexivity | now symmetry]. }
  split.
  { rewrite <- Eb2. rewrite (band_compat t _ lowf _ (inject_Z (Pipe3.rows t)));
      [| now symmetry | reflexivity].
    symmetry. apply band_same_rows; [reflexivity | |].
    - rewrite !(rowAt_compat _ lowf _ Qlow), !rowAt_lookup. cbn [Pipe3.data].
      rewrite Hd. apply relabel_outside. lia.
    - rewrite Erows.
      replace (Z.of_nat (length newData) - 1) with (Z.of_nat (length newData - 1)) by lia.
      rewrite !rowAt_lookup. cbn [Pipe3.data].
      rewrite Hd. apply relabel_outside. lia. }
  split; [reflexivity|].
  cbn [Pipe3.data]. rewrite !relabel_outside by lia. reflexivity.
Qed.

(** X19: when the script finishes, its standard output holds two "band"
    lines, the header, and one line for every data row of the table that
    [cuts] left, except the last row, which is never printed. *)
Theorem main_drops_last_row (Number : string -> option Q) (fuel : nat)
    (text : string) (out err : list string) :
  Pipe3.main Number fuel text = Some (Pipe3.Finished out err) ->
  exists (attributes : list string) (t t' : Pipe3.table) (log : list string),
    Pipe3.readInput text = Some (attributes, t) /\
    Pipe3.cuts Number fuel t 0 (inject_Z (Pipe3.rows t)) "|.. "
      = Some (log, Pipe3.Returned t') /\
    length (Pipe3.data t') = length (Pipe3.data t) /\
    out = ("band" :: "band" :: Pipe3.headerOut attributes (Pipe3.c t)
           :: map (Pipe3.rowOut (Pipe3.cols t)) (removelast (Pipe3.data t')))%string /\
    length out = (length (Pipe3.data t) + 2)%nat.
Proof.
  unfold Pipe3.main.
  destruct (Pipe3.readInput text) as [[attributes t]|] eqn:Eread; [|discriminate].
  destruct (Pipe3.cuts Number fuel t 0 (inject_Z (Pipe3.rows t)) "|.. ")
    as [[log [t'|]]|] eqn:Ecuts; try discriminate.
  intros [= <- <-].
  assert (Hset : exists newData, Pipe3.dataSet newData = Some t).
  { unfold Pipe3.readInput in Eread.
    destruct (Pipe3.dataSet _) as [t0|] eqn:E; [|discriminate].
    injection Eread as _ <-. eauto. }
  destruct Hset as [newData Hset].
  destruct (dataSet_fields newData t Hset) as (Et & Erows & Hlen).
  destruct (cuts_keeps_shape _ _ _ _ _ _ _ _ Ecuts) as (Ecols & Er & Ec & Elen).
  assert (Hd : Pipe3.data t = newData) by (rewrite Et; reflexivity).
  rewrite Ecols, Er, Ec.
  assert (Ef : firstn (Z.to_nat (Pipe3.rows t)) (Pipe3.data t') = removelast (Pipe3.data t')).
  { rewrite removelast_firstn_len, Elen, Hd, Erows. f_equal. lia. }
  rewrite Ef. exists attributes, t, t', log.
  split; [reflexivity|]. split; [exact Ecuts|]. split; [exact Elen|].
  split; [reflexivity|].
  cbn [length]. rewrite length_map.
  rewrite removelast_firstn_len, length_firstn, Elen, Hd. lia.
Qed.

Lemma mark_writes_band_witness :
  let t := Pipe3.mkTable 1 4 0 fiveRows in
  0 <= Pipe3.cols t /\ (1 <= 2)%nat /\
  exists (b : string) (d' : list (list string)),
    Pipe3.band t (inject_Z (Z.of_nat 1)) (inject_Z (Z.of_nat 2)) = Some b /\
    Pipe3.mark t (inject_Z (Z.of_nat 1)) (inject_Z (Z.of_nat 2)) =
      Pipe3.Returned (Pipe3.mkTable (Pipe3.cols t) (Pipe3.rows t) (Pipe3.c t) d') /\
    length d' = length (Pipe3.data t) /\
    forall (i : nat) (row : list string),
      Pipe3.data t !! i = Some row ->
      exists row', d' !! i = Some row' /\
        (forall j, j <> Pipe3.cols t ->
           Pipe3.str (Pipe3.cellAt row' j) = Pipe3.str (Pipe3.cellAt row j)) /\
        if (1 <=? i)%nat && (i <=? 2)%nat
        then Pipe3.cellAt row' (Pipe3.cols t) = Some b
        else row' = row.
Proof.
  cbv zeta. split; [cbn; lia|]. split; [lia|].
  exact (mark_writes_band (Pipe3.mkTable 1 4 0 fiveRows) 1 2
           ltac:(cbn; lia) ltac:(lia)).
Defined.

Definition zeroCutTable : Pipe3.table :=
  Pipe3.mkTable 1 2 0 [["5"; "0"]; ["6"; "0"]; ["7"; "0"]]%string.

Lemma cuts_needs_first_cut_witness :
  nth_error (Pipe3.data zeroCutTable) 0 = Some ["5"; "0"]%string /\
  Pipe3.exceedsEnough (2 - 0) (Pipe3.rows zeroCutTable) &&
    Pipe3.usable (Pipe3.numberAt Pipe3.decimalNumber ["5"; "0"]%string
                    (Pipe3.cols zeroCutTable)) (Pipe3.rows zeroCutTable) = false /\
  Pipe3.cuts Pipe3.decimalNumber 1 zeroCutTable 0 2 "|.. " =
    Some (["|.. 5"%string], Pipe3.Thrown).
Proof.
  split; [reflexivity|]. split; [reflexivity|].
  apply (cuts_needs_first_cut Pipe3.decimalNumber zeroCutTable 2 "|.. " 0
           ["5"; "0"]%string); reflexivity.
Defined.

Lemma cuts_two_bands_witness :
  let t := Pipe3.mkTable 1 4 0 fiveRows in
  let t' := Pipe3.mkTable 1 4 0
              [["10"; "2"]; ["20"; "..30"]; ["30"; "..30"];
               ["40"; "40..50"]; ["50"; "40..50"]]%string in
  Pipe3.dataSet fiveRows = Some t /\
  integerCuts Pipe3.decimalNumber t /\
  Pipe3.cuts Pipe3.decimalNumber 5 t 0 (inject_Z (Pipe3.rows t)) "|.. " =
    Some (["|.. 10"; "|.. |..40"]%string, Pipe3.Returned t') /\
  exists (low : nat) (b1 b2 : string),
    (2 <= low < length fiveRows)%nat /\
    Pipe3.band t 1 (inject_Z (Z.of_nat (low - 1))) = Some b1 /\
    Pipe3.band t (inject_Z (Z.of_nat low)) (inject_Z (Pipe3.rows t)) = Some b2 /\
    t' = Pipe3.mkTable (Pipe3.cols t) (Pipe3.rows t) (Pipe3.c t)
           (relabel (Pipe3.cols t) b2 low (length fiveRows - 1)
              (relabel (Pipe3.cols t) b1 1 (low - 1) fiveRows)) /\
    Pipe3.data t' !! 0%nat = fiveRows !! 0%nat.
Proof.
  cbv zeta.
  assert (Hint : integerCuts Pipe3.decimalNumber (Pipe3.mkTable 1 4 0 fiveRows)).
  { intros row Hrow. cbn in Hrow.
    repeat (destruct Hrow as [<-|Hrow]; [reflexivity|]). destruct Hrow. }
  split; [reflexivity|]. split; [exact Hint|]. split; [reflexivity|].
  apply (cuts_two_bands Pipe3.decimalNumber fiveRows (Pipe3.mkTable 1 4 0 fiveRows)
           _ 5 "|.. " ["|.. 10"; "|.. |..40"]%string); [reflexivity | exact Hint | reflexivity].
Defined.

Definition sampleText : string :=
  unlines ["a,b"; "10,2"; "20,2"; "30,5"; "40,5"; "50,5"; ""]%string.

Lemma main_drops_last_row_witness :
  let out := ["band"; "band"; "a, !klass"; "10,2"; "20,..30"; "30,..30"; "40,40..50"]%string in
  let err := [""; "-- a----------"; "|.. 10"; "|.. |..40"]%string in
  Pipe3.main Pipe3.decimalNumber 5 sampleText = Some (Pipe3.Finished out err) /\
  exists (attributes : list string) (t t' : Pipe3.table) (log : list string),
    Pipe3.readInput sampleText = Some (attributes, t) /\
    Pipe3.cuts Pipe3.decimalNumber 5 t 0 (inject_Z (Pipe3.rows t)) "|.. "
      = Some (log, Pipe3.Returned t') /\
    length (Pipe3.data t') = length (Pipe3.data t) /\
    out = ("band" :: "band" :: Pipe3.headerOut attributes (Pipe3.c t)
           :: map (Pipe3.rowOut (Pipe3.cols t)) (removelast (Pipe3.data t')))%string /\
    length out = (length (Pipe3.data t) + 2)%nat.
Proof.
  cbv zeta. split; [reflexivity|].
  apply (main_drops_last_row Pipe3.decimalNumber 5 sampleText
           ["band"; "band"; "a, !klass"; "10,2"; "20,..30"; "30,..30"; "40,40..50"]%string
           [""; "-- a----------"; "|.. 10"; "|.. |..40"]%string).
  reflexivity.
Defined.

(** X20: in a table of two rows or more, a cut field equal to [rows],
    the index of the last row, makes the call that follows it throw: when
    [cuts] starts at a row with that cut field and [high] is more than
    [enough] rows away, the nested call reads [input.data[rows + 1]], which
    does not exist; one diagnostic line is written and no band. *)
Theorem cuts_cut_past_end (Number : string -> option Q) (newData : list (list string))
    (t : Pipe3.table) (low : nat) (high cut : Q) (pre : string) (fuel : nat)
    (row : list string) :
  Pipe3.dataSet newData = Some t ->
  (2 <= length newData)%nat ->
  newData !! low = Some row ->
  Pipe3.exceedsEnough (high - inject_Z (Z.of_nat low)) (Pipe3.rows t) = true ->
  Pipe3.numberAt Number row (Pipe3.cols t) = Some cut ->
  (cut == inject_Z (Pipe3.rows t))%Q ->
  Pipe3.cuts Number (S (S fuel)) t (inject_Z (Z.of_nat low)) high pre =
    Some ([(pre ++ Pipe3.str (Pipe3.cellAt row (Pipe3.c t)))%string], Pipe3.Thrown).
Proof.
  intros Hset Htwo Hrow Hbig Hcut Elast.
  destruct (dataSet_fields newData t Hset) as (Et & Erows & _).
  assert (Hd : Pipe3.data t = newData) by (rewrite Et; reflexivity).
  assert (Huse : Pipe3.usable (Some cut) (Pipe3.rows t) = true).
  { cbn [Pipe3.usable]. apply andb_true_iff. split.
    - apply negb_true_iff. destruct (Qeq_bool cut 0) eqn:E; [|reflexivity].
      apply Qeq_bool_iff in E. rewrite E in Elast.
      change 0%Q with (inject_Z 0) in Elast. rewrite inject_Z_injective in Elast. lia.
    - apply Qle_bool_iff. rewrite Elast. apply Qle_refl. }
  assert (Hnext : Pipe3.rowAt (Pipe3.data t) (cut + 1) = None).
  { assert (E : (cut + 1 == inject_Z (Z.of_nat (length newData)))%Q).
    { rewrite Elast, Erows. unfold Z.sub. rewrite inject_Z_plus, inject_Z_opp.
      change (inject_Z 1) with 1%Q. ring. }
    rewrite (rowAt_compat _ _ _ E), rowAt_lookup, Hd.
    apply lookup_ge_None_2. lia. }
  cbn [Pipe3.cuts]. rewrite rowAt_lookup, Hd, Hrow, Hbig, Hcut, Huse.
  rewrite <- Hd, Hnext. reflexivity.
Qed.

Definition lastCutRows : list (list string) :=
  [["10"; "3"]; ["20"; "3"]; ["30"; "3"]; ["40"; "4"]]%string.

Lemma cuts_cut_past_end_witness :
  let t := Pipe3.mkTable 1 3 0 lastCutRows in
  let row := ["10"; "3"]%string in
  Pipe3.dataSet lastCutRows = Some t /\
  (2 <= length lastCutRows)%nat /\
  lastCutRows !! 0%nat = Some row /\
  Pipe3.exceedsEnough (3 - inject_Z (Z.of_nat 0)) (Pipe3.rows t) = true /\
  Pipe3.numberAt Pipe3.decimalNumber row (Pipe3.cols t) = Some 3%Q /\
  (3 == inject_Z (Pipe3.rows t))%Q /\
  Pipe3.cuts Pipe3.decimalNumber 2 t (inject_Z (Z.of_nat 0)) 3 "|.. " =
    Some (["|.. 10"%string], Pipe3.Thrown).
Proof.
  cbv zeta. split; [reflexivity|]. split; [cbn; lia|].
  repeat (split; [reflexivity|]).
  apply (cuts_cut_past_end Pipe3.decimalNumber lastCutRows (Pipe3.mkTable 1 3 0 lastCutRows)
           0 3 3 "|.. " 0 ["10"; "3"]%string); try reflexivity.
  cbn. lia.
Defined.

(** ** Reading the input *)

Section Splitting.
Variable sep : ascii.

Lemma split_nonempty (s : string) : JsString.split sep s <> [].
Proof.
  destruct s as [|ch rest]; cbn; [discriminate|].
  destruct (Ascii.eqb ch sep); [discriminate|].
  destruct (JsString.split sep rest); discriminate.
Qed.

Lemma split_no_sep (s : string) :
  hasChar sep s = false -> JsString.split sep s = [s].
Proof.
  induction s as [|ch rest IH]; cbn; [reflexivity|].
  intros Hs. apply orb_false_iff in Hs as [Hc Hr]. rewrite Hc, (IH Hr). reflexivity.
Qed.

Lemma split_app (p rest : string) :
  hasChar sep p = false ->
  JsString.split sep (p ++ String sep rest) = p :: JsString.split sep rest.
Proof.
  induction p as [|ch p IH]; cbn.
  - intros _. now rewrite Ascii.eqb_refl.
  - intros Hs. apply orb_false_iff in Hs as [Hc Hr]. rewrite Hc, (IH Hr). reflexivity.
Qed.

Lemma split_concat (lines : list string) :
  lines <> [] -> Forall (fun p => hasChar sep p = false) lines ->
  JsString.split sep (String.concat (String sep EmptyString) lines) = lines.
Proof.
  induction lines as [|p lines IH]; [congruence|].
  intros _ Hall. apply Forall_cons in Hall as [Hp Hall].
  destruct lines as [|q lines]; [now apply split_no_sep|].
  cbn [String.concat]. change (String sep EmptyString ++ ?s)%string with (String sep s).
  rewrite split_app by exact Hp. f_equal. apply IH; [discriminate | exact Hall].
Qed.

Lemma length_split (s : string) :
  length (JsString.split sep s) = S (countChar sep s).
Proof.
  induction s as [|ch rest IH]; cbn; [reflexivity|].
  destruct (Ascii.eqb ch sep); cbn; [now rewrite IH|].
  destruct (JsString.split sep rest); cbn in *; lia.
Qed.

End Splitting.

Lemma inner_middle {A : Type} (h last : A) (body : list A) :
  JsString.inner (h :: body ++ [last]) = body.
Proof.
  unfold JsString.inner. change (skipn 1 (h :: body ++ [last])) with (body ++ [last]).
  cbn [length]. rewrite length_app. cbn [length].
  replace (S (length body + 1) - 2)%nat with (length body) by lia.
  apply take_app_length.
Qed.

Lemma inner_short {A : Type} (data : list A) :
  (length data <= 2)%nat -> JsString.inner data = [].
Proof.
  intros Hlen. unfold JsString.inner.
  replace (length data - 2)%nat with 0%nat by lia. reflexivity.
Qed.

(** X21: on a text made of a header, data lines and a last piece, joined
    by line feeds, each of the three readers takes the header and the data
    lines and drops the last piece.  After a final line feed the last
    piece is the empty string and every data line is read; without it the
    last data line is lost. *)
Theorem readers_drop_last_piece {N : Type} (Number : string -> option Q)
    (NumberN : string -> N) (header last : string) (body : list string) :
  Forall (fun line => hasChar JsString.newline line = false) (header :: body ++ [last]) ->
  let text := unlines (header :: body ++ [last]) in
  SortLastCol.readVals Number text =
    (header, map (fun line => map Number (JsString.split "," line)) body) /\
  Argmin.readInput NumberN text =
    (JsString.split "," header,
     map (fun line => map NumberN (JsString.split "," line)) body) /\
  Pipe3.readInput text =
    option_map (fun t => (JsString.split "," header, t))
      (Pipe3.dataSet (map (JsString.split ",") body)).
Proof.
  intros Hall. cbv zeta.
  assert (E : JsString.split JsString.newline (unlines (header :: body ++ [last]))
              = header :: body ++ [last])
    by (apply split_concat; [discriminate | exact Hall]).
  unfold SortLastCol.readVals, Argmin.readInput, Pipe3.readInput.
  rewrite E, inner_middle. cbn [JsString.first].
  repeat split.
Qed.

(** X22: a text with fewer than two line feeds has no data line for the
    readers: [readVals] builds an empty array, the first row that
    [initValues] reads in [argmin.ts] does not exist, [dataSet] throws in
    [Pipe3.ts], and that script ends with the error before it has written
    anything. *)
Theorem no_data_lines {N : Type} (Number : string -> option Q)
    (NumberN : string -> N) (text : string) :
  (countChar JsString.newline text <= 1)%nat ->
  snd (SortLastCol.readVals Number text) = [] /\
  Argmin.domColumn (snd (Argmin.readInput NumberN text)) = None /\
  Pipe3.readInput text = None /\
  forall fuel : nat, Pipe3.main Number fuel text = Some (Pipe3.Crashed []).
Proof.
  intros Hfew.
  assert (E : JsString.inner (JsString.split JsString.newline text) = [])
    by (apply inner_short; rewrite length_split; lia).
  assert (Er : Pipe3.readInput text = None)
    by (unfold Pipe3.readInput; rewrite E; reflexivity).
  unfold SortLastCol.readVals, Argmin.readInput, Pipe3.main.
  cbn [snd]. rewrite E, Er. repeat split.
Qed.

Lemma readers_drop_last_piece_witness :
  let pieces := ["a,b"; "1,2"; "3,4"; "5,6"]%string in
  Forall (fun line => hasChar JsString.newline line = false) pieces /\
  SortLastCol.readVals Pipe3.decimalNumber (unlines pieces) =
    ("a,b"%string,
     map (fun line => map Pipe3.decimalNumber (JsString.split "," line))
       ["1,2"; "3,4"]%string) /\
  Argmin.readInput String.length (unlines pieces) =
    (JsString.split "," "a,b",
     map (fun line => map String.length (JsString.split "," line)) ["1,2"; "3,4"]%string) /\
  Pipe3.readInput (unlines pieces) =
    option_map (fun t => (JsString.split "," "a,b", t))
      (Pipe3.dataSet (map (JsString.split ",") ["1,2"; "3,4"]%string)).
Proof.
  cbv zeta.
  assert (Hall : Forall (fun line => hasChar JsString.newline line = false)
                   ["a,b"; "1,2"; "3,4"; "5,6"]%string)
    by (repeat constructor).
  split; [exact Hall|].
  exact (readers_drop_last_piece Pipe3.decimalNumber String.length
           "a,b" "5,6" ["1,2"; "3,4"]%string Hall).
Defined.

Lemma no_data_lines_witness :
  let text := unlines ["a,b"; "1,2"]%string in
  (countChar JsString.newline text <= 1)%nat /\
  snd (SortLastCol.readVals Pipe3.decimalNumber text) = [] /\
  Argmin.domColumn (snd (Argmin.readInput String.length text)) = None /\
  Pipe3.readInput text = None /\
  forall fuel : nat, Pipe3.main Pipe3.decimalNumber fuel text = Some (Pipe3.Crashed []).
Proof.
  cbv zeta. split; [cbn; lia|].
  apply (no_data_lines Pipe3.decimalNumber String.length
           (unlines ["a,b"; "1,2"]%string)).
  cbn. lia.
Defined.

Lemma split_rows_nonempty (lines : list string) :
  Forall (fun row : list string => row <> []) (map (JsString.split ",") lines).
Proof.
  apply List.Forall_forall. intros row Hrow. apply in_map_iff in Hrow as (line & <- & _).
  apply split_nonempty.
Qed.

(** X23: every row the readers build has at least one field, so its last
    column exists; in [Pipe3.ts] the attributes are not empty either, and a
    table that [readInput] built has [cols >= 0], [c = cols - 1] and
    [rows = data.length - 1]. *)
Theorem readers_rows_nonempty {N : Type} (Number : string -> option Q)
    (NumberN : string -> N) (text : string) :
  Forall (fun row => row <> []) (snd (SortLastCol.readVals Number text)) /\
  Forall (fun row => row <> []) (snd (Argmin.readInput NumberN text)) /\
  forall (attributes : list string) (t : Pipe3.table),
    Pipe3.readInput text = Some (attributes, t) ->
    attributes <> [] /\ Forall (fun row => row <> []) (Pipe3.data t) /\
    0 <= Pipe3.cols t /\ Pipe3.c t = Pipe3.cols t - 1 /\
    Pipe3.rows t = Z.of_nat (length (Pipe3.data t)) - 1.
Proof.
  unfold SortLastCol.readVals, Argmin.readInput, Pipe3.readInput. cbn [snd].
  set (lines := JsString.inner (JsString.split JsString.newline text)).
  assert (Hmap : forall (A : Type) (f : string -> A),
            Forall (fun row : list A => row <> [])
              (map (fun line => map f (JsString.split "," line)) lines)).
  { intros A f. apply List.Forall_forall. intros row Hrow.
    apply in_map_iff in Hrow as (line & <- & _).
    pose proof (split_nonempty "," line) as Hne.
    destruct (JsString.split "," line); [congruence | discriminate]. }
  split; [apply Hmap|]. split; [apply Hmap|].
  intros attributes t Hread.
  pose proof (split_rows_nonempty lines) as Hrows.
  destruct (map (JsString.split ",") lines) as [|row0 rest] eqn:Ed; [discriminate|].
  cbn [Pipe3.dataSet] in Hread. injection Hread as <- <-.
  cbn [Pipe3.data Pipe3.cols Pipe3.c Pipe3.rows].
  split; [apply split_nonempty|]. split; [exact Hrows|].
  apply Forall_cons in Hrows as [H0 _].
  destruct row0; [congruence|]. cbn [length]. repeat split; lia.
Qed.

(** ** The header line of argmin.ts *)

Section Header.

Lemma append_assoc (s1 s2 s3 : string) :
  ((s1 ++ s2) ++ s3 = s1 ++ (s2 ++ s3))%string.
Proof. induction s1 as [|ch s1 IH]; cbn; [reflexivity | now rewrite IH]. Qed.

Lemma append_empty_r (s : string) : (s ++ "")%string = s.
Proof. induction s as [|ch s IH]; cbn; [reflexivity | now rewrite IH]. Qed.

Lemma concat_empty_cons (x : string) (l : list string) :
  String.concat "" (x :: l) = (x ++ String.concat "" l)%string.
Proof. destruct l; cbn; [now rewrite append_empty_r | reflexivity]. Qed.

Lemma header_pieces (k : nat) :
  forall attributes : list string,
  (k < length attributes)%nat ->
  (String.concat ""
     (map (fun i => JsString.toString (nth_error attributes i) ++ ", ") (seq 0 k))
   ++ JsString.toString (nth_error attributes k))%string
  = String.concat ", " (firstn (S k) attributes).
Proof.
  induction k as [|k IH]; intros [|a rest] Hk; try (simpl in Hk; lia).
  - reflexivity.
  - simpl in Hk. specialize (IH rest ltac:(lia)).
    cbn [seq]. rewrite <- seq_shift. cbn [map]. rewrite map_map. cbn [nth_error].
    rewrite concat_empty_cons, append_assoc. cbn [JsString.toString].
    change (take (S (S k)) (a :: rest)) with (a :: take (S k) rest).
    destruct rest as [|b rest]; [simpl in Hk; lia|].
    change (String.concat ", " (a :: take (S k) (b :: rest)))
      with (a ++ ", " ++ String.concat ", " (take (S k) (b :: rest)))%string.
    rewrite <- IH. now rewrite !append_assoc.
Qed.

Lemma split_spaced (rest : list string) :
  forall a : string,
  Forall (fun p => hasChar "," p = false) (a :: rest) ->
  JsString.split "," (String.concat ", " (a :: rest)) = a :: map (String " ") rest.
Proof.
  induction rest as [|b rest IH]; intros a Hall.
  - apply Forall_cons in Hall as [Ha _]. cbn. now apply split_no_sep.
  - apply Forall_cons in Hall as [Ha Hall].
    change (String.concat ", " (a :: b :: rest))
      with (a ++ String "," (String " " (String.concat ", " (b :: rest))))%string.
    rewrite split_app by exact Ha. f_equal.
    specialize (IH b Hall). cbn [map].
    change (JsString.split "," (String " " (String.concat ", " (b :: rest))))
      with (match JsString.split "," (String.concat ", " (b :: rest)) with
            | piece :: pieces => String " " piece :: pieces
            | [] => [String " " EmptyString]
            end).
    now rewrite IH.
Qed.

End Header.

(** X24: when the header has a name for each of the [numCols] columns
    and no name holds a comma, the first line [calcSplits] writes is the
    first [numCols] names joined by a comma and a space; split at the
    commas again, as the next filter reads it, every name but the first
    has gained a leading space. *)
Theorem header_gains_spaces (attributes : list string) (numCols : nat) :
  (1 <= numCols <= length attributes)%nat ->
  Forall (fun name => hasChar "," name = false) attributes ->
  Argmin.headerOut attributes numCols = String.concat ", " (firstn numCols attributes) /\
  JsString.split "," (Argmin.headerOut attributes numCols) =
    match firstn numCols attributes with
    | name :: names => name :: map (String " ") names
    | [] => []
    end.
Proof.
  intros Hn Hall.
  assert (E : Argmin.headerOut attributes numCols
              = String.concat ", " (firstn numCols attributes)).
  { unfold Argmin.headerOut. rewrite header_pieces by lia. f_equal. f_equal. lia. }
  split; [exact E|]. rewrite E.
  destruct (firstn numCols attributes) as [|name names] eqn:Et.
  - apply (f_equal length) in Et. rewrite length_take in Et. simpl in Et. lia.
  - apply split_spaced. rewrite <- Et. now apply Forall_take.
Qed.

Lemma header_gains_spaces_witness :
  let attributes := ["x"; "y"; "dom"]%string in
  (1 <= 3 <= length attributes)%nat /\
  Forall (fun name => hasChar "," name = false) attributes /\
  Argmin.headerOut attributes 3 = String.concat ", " (firstn 3 attributes) /\
  JsString.split "," (Argmin.headerOut attributes 3) =
    match firstn 3 attributes with
    | name :: names => name :: map (String " ") names
    | [] => []
    end.
Proof.
  cbv zeta.
  assert (Hall : Forall (fun name => hasChar "," name = false) ["x"; "y"; "dom"]%string)
    by (repeat constructor).
  split; [cbn; lia|]. split; [exact Hall|].
  apply (header_gains_spaces ["x"; "y"; "dom"]%string 3); [cbn; lia | exact Hall].
Defined.

(** ** The lines Pipe3.ts prints *)

Section PrintedLines.

Lemma pieces_joined (sep : ascii) (f : nat -> string) (n : nat) :
  forall s : nat,
  (String.concat ""
     (map (fun j => f j ++ String sep EmptyString) (seq s n)) ++ f (s + n)%nat)%string
  = String.concat (String sep EmptyString) (map f (seq s (S n))).
Proof.
  induction n as [|n IH]; intros s.
  - cbn. now rewrite Nat.add_0_r.
  - cbn [seq map]. rewrite concat_empty_cons, append_assoc.
    replace (s + S n)%nat with (S s + n)%nat by lia. rewrite IH.
    cbn [seq map]. rewrite append_assoc. reflexivity.
Qed.

Lemma toString_no_comma (row : list string) (j : nat) :
  Forall (fun field => hasChar "," field = false) row ->
  hasChar "," (Pipe3.str (nth_error row j)) = false.
Proof.
  intros Hrow. destruct (nth_error row j) as [field|] eqn:E; [|reflexivity].
  rewrite List.Forall_forall in Hrow. apply Hrow. eapply nth_error_In. exact E.
Qed.

End PrintedLines.

(** X25: for a table with [cols >= 1] ([c = cols - 1]) whose names and
    fields hold no comma, the header line of [Pipe3.ts] has the first
    [cols] names and then " !klass", and a data line has the fields
    [0 .. cols] of the row, a missing one reading "undefined" and any
    further one left out: all printed lines have [cols + 1] fields, and a
    row of that length is printed as it is. *)
Theorem printed_lines_fields (attributes row : list string) (cols : Z) :
  1 <= cols ->
  Forall (fun name => hasChar "," name = false) attributes ->
  Forall (fun field => hasChar "," field = false) row ->
  JsString.split "," (Pipe3.headerOut attributes (cols - 1)) =
    map (fun j => Pipe3.str (nth_error attributes j)) (seq 0 (Z.to_nat cols))
    ++ [" !klass"%string] /\
  JsString.split "," (Pipe3.rowOut cols row) =
    map (fun j => Pipe3.str (nth_error row j)) (seq 0 (Z.to_nat cols + 1)) /\
  (length row = (Z.to_nat cols + 1)%nat -> JsString.split "," (Pipe3.rowOut cols row) = row).
Proof.
  intros Hcols Hattr Hrow.
  assert (Erow : JsString.split "," (Pipe3.rowOut cols row) =
                 map (fun j => Pipe3.str (nth_error row j)) (seq 0 (Z.to_nat cols + 1))).
  { unfold Pipe3.rowOut.
    pose proof (pieces_joined "," (fun j => Pipe3.str (nth_error row j)) (Z.to_nat cols) 0) as E.
    cbn [Nat.add] in E. rewrite E. clear E.
    rewrite Nat.add_1_r. apply split_concat; [discriminate|].
    apply List.Forall_forall. intros p Hp. apply in_map_iff in Hp as (j & <- & _).
    now apply toString_no_comma. }
  split; [|split; [exact Erow|]].
  - unfold Pipe3.headerOut.
    set (n := Z.to_nat (cols - 1)).
    replace (Z.to_nat cols) with (S n) by (unfold n; lia).
    rewrite <- append_assoc.
    pose proof (pieces_joined "," (fun j => Pipe3.str (nth_error attributes j)) n 0) as E.
    cbn [Nat.add] in E. rewrite E. clear E.
    assert (Ej : forall (l : list string) (tail : string),
              l <> [] ->
              (String.concat "," l ++ String "," tail)%string
              = String.concat "," (l ++ [tail])).
    { induction l as [|x l IH]; intros tail Hl; [congruence|].
      destruct l as [|y l]; [reflexivity|].
      change (String.concat "," (x :: y :: l)) with (x ++ "," ++ String.concat "," (y :: l))%string.
      rewrite append_assoc. change ("," ++ String.concat "," (y :: l))%string
        with (String "," (String.concat "," (y :: l))).
      change ((String "," (String.concat "," (y :: l)) ++ String "," tail))%string
        with (String "," (String.concat "," (y :: l) ++ String "," tail))%string.
      rewrite IH by discriminate. reflexivity. }
    change (", !klass")%string with (String "," " !klass")%string.
    rewrite Ej by discriminate.
    apply split_concat; [now destruct (map _ _)|].
    apply Forall_app. split.
    + apply List.Forall_forall. intros p Hp. apply in_map_iff in Hp as (j & <- & _).
      now apply toString_no_comma.
    + now constructor.
  - intros Hlen. rewrite Erow. apply list_eq. intros i.
    rewrite list_lookup_fmap.
    destruct (Nat.lt_ge_cases i (Z.to_nat cols + 1)) as [Hi|Hi].
    + rewrite lookup_seq_lt by lia. cbn [fmap option_fmap option_map Nat.add].
      rewrite nth_error_lookup.
      destruct (lookup_lt_is_Some_2 row i) as [x Ex]; [lia|]. now rewrite Ex.
    + rewrite lookup_seq_ge by lia. cbn. symmetry. apply lookup_ge_None_2. lia.
Qed.

Lemma printed_lines_fields_witness :
  let attributes := ["a"; "b"; "cut"]%string in
  let row := ["10"; "..30"]%string in
  1 <= 1 /\
  Forall (fun name => hasChar "," name = false) attributes /\
  Forall (fun field => hasChar "," field = false) row /\
  (JsString.split "," (Pipe3.headerOut attributes (1 - 1)) =
     map (fun j => Pipe3.str (nth_error attributes j)) (seq 0 (Z.to_nat 1))
     ++ [" !klass"%string] /\
   JsString.split "," (Pipe3.rowOut 1 row) =
     map (fun j => Pipe3.str (nth_error row j)) (seq 0 (Z.to_nat 1 + 1)) /\
   (length row = (Z.to_nat 1 + 1)%nat -> JsString.split "," (Pipe3.rowOut 1 row) = row)).
Proof.
  cbv zeta.
  assert (Ha : Forall (fun name => hasChar "," name = false) ["a"; "b"; "cut"]%string)
    by (repeat constructor).
  assert (Hr : Forall (fun field => hasChar "," field = false) ["10"; "..30"]%string)
    by (repeat constructor).
  split; [lia|]. split; [exact Ha|]. split; [exact Hr|].
  apply (printed_lines_fields ["a"; "b"; "cut"]%string ["10"; "..30"]%string 1);
    [lia | exact Ha | exact Hr].
Defined.
